(** * datadog-trace-agent: quantile summary and signature sampler

    A shallow embedding of [quantile/summary.go] (the Greenwald-Khanna
    summary and the skiplist that backs it) and of [sampler/signature.go]
    (the signature sampler), with the properties of the specification
    stated and settled against the embedded code.

    Conventions of the embedding.
    - Go pointers to skiplist nodes are addresses into a node store owned
      by the skiplist ([nil] is [None]); slices are lists with checked
      indexing.
    - A run-time panic is a value of [res]: [Panic p].  Pointer-chasing
      loops are bounded by the size of the node store; [Diverges] is the
      answer on a chain that never ends (where the Go loop would spin).
    - Go's [int] and [int64] are 64-bit two's complement: [wrap64].
    - [float64] in the summary is IEEE-754 binary64 ([SpecFloat]); the
      sampler is written over an interface [Float64], read at binary64
      and at a rounding model on the rationals.
    - Calls that the code makes outside ([rand.Int31], [rand.Float64],
      [time.Now]) are arguments: the values they return. *)

From Stdlib Require Import ZArith List Bool Lia String Ascii.
From Stdlib Require Import Floats.SpecFloat.
From Stdlib Require Import QArith Qround Qabs Lqa.
From stdpp Require Import base option list sorting gmap.

Local Open Scope Z_scope.

(** ** Results of partial operations *)

Inductive panic : Type :=
  | IndexOutOfRange   (* index out of range [i] with length n *)
  | NilDereference    (* invalid memory address or nil pointer dereference *)
  | NotReached        (* panic("not reached") in Quantile *)
  | NotInitialized.   (* panic(errors.New("Cannot marshal non-initialized Summary")) *)

Inductive res (A : Type) : Type :=
  | Ok (a : A)
  | Panic (p : panic)
  | Diverges.
Arguments Ok {A} a.
Arguments Panic {A} p.
Arguments Diverges {A}.

#[global] Instance res_ret : MRet res := fun A a => Ok a.
#[global] Instance res_bind : MBind res := fun A B f m =>
  match m with
  | Ok a => f a
  | Panic p => Panic p
  | Diverges => Diverges
  end.

Definition is_Ok {A} (r : res A) : Prop := exists a, r = Ok a.

(** Checked slice indexing: [l[i]] and [l[i] = x]. *)
Definition index {A} (l : list A) (i : nat) : res A :=
  match l !! i with
  | Some x => Ok x
  | None => Panic IndexOutOfRange
  end.

Definition assign {A} (l : list A) (i : nat) (x : A) : res (list A) :=
  if decide (i < length l)%nat then Ok (<[i:=x]> l) else Panic IndexOutOfRange.

(** ** 64-bit integers *)

Definition wrap64 (z : Z) : Z := (z + 2^63) mod 2^64 - 2^63.

Definition int_add (a b : Z) : Z := wrap64 (a + b).
Definition int_sub (a b : Z) : Z := wrap64 (a - b).

(** ** binary64 *)

Module F64.
Definition prec : Z := 53.
Definition emax : Z := 1024.
Definition float64 : Type := spec_float.

Definition mul : float64 -> float64 -> float64 := SFmul prec emax.
Definition add : float64 -> float64 -> float64 := SFadd prec emax.
Definition sub : float64 -> float64 -> float64 := SFsub prec emax.
Definition div : float64 -> float64 -> float64 := SFdiv prec emax.

(** [float64(n)] for an integer [n]: rounded to nearest, ties to even. *)
Definition of_int (n : Z) : float64 := binary_normalize prec emax n 0 false.

(** [int(x)] for a finite [x]: truncation toward zero.  Go leaves the
    result open when [x] is not finite or does not fit; amd64 yields
    the smallest int64 there. *)
Definition to_int (x : float64) : Z :=
  match x with
  | S754_zero _ => 0
  | S754_finite s m e =>
      let a := match e with
               | Z0 => Zpos m
               | Zpos p => Zpos m * 2 ^ Zpos p
               | Zneg p => Zpos m / 2 ^ Zpos p
               end in
      let z := if s then - a else a in
      if (- 2^63 <=? z) && (z <? 2^63) then z else - 2^63
  | _ => - 2^63
  end.

(** The rational that a finite binary64 stands for. *)
Definition to_Q (x : float64) : Q :=
  match x with
  | S754_finite s m e =>
      let a := (inject_Z (Zpos m) * Qpower 2 e)%Q in
      if s then Qopp a else a
  | _ => 0%Q
  end.
End F64.

(** ** The skiplist *)

Module quantile.

(** [const EPSILON float64 = 0.01]: the binary64 nearest to 1/100. *)
Definition EPSILON : F64.float64 := F64.div (F64.of_int 1) (F64.of_int 100).

(** [2 * EPSILON], folded by the compiler (exact: a power of two). *)
Definition two_EPSILON : F64.float64 := F64.mul (F64.of_int 2) EPSILON.

(** [int(1.0/float64(2.0*EPSILON))] *)
Definition compress_period : Z :=
  F64.to_int (F64.div (F64.of_int 1) two_EPSILON).

Record Entry : Type := mkEntry {
  V : Z;                (* int64 *)
  G : Z;                (* int *)
  Delta : Z;            (* int *)
  Samples : list Z      (* []uint64 *)
}.

(** The zero value of [Entry], held by the head node. *)
Definition zeroEntry : Entry := mkEntry 0 0 0 [].

Definition ptr : Type := option nat.

Record SkiplistNode : Type := mkNode {
  value : Entry;
  next : list ptr;
  prev : list ptr
}.

Definition store : Type := list SkiplistNode.

Record Skiplist : Type := mkSkiplist {
  height : nat;
  head : nat;
  nodes : store
}.

Definition maxHeight : nat := 31.

Definition NewSkiplist : Skiplist :=
  {| height := 0;
     head := 0%nat;
     nodes := [ {| value := zeroEntry; next := replicate maxHeight None; prev := [] |} ] |}.

(** *** Node store access *)

Definition load (h : store) (a : nat) : res SkiplistNode :=
  match h !! a with
  | Some n => Ok n
  | None => Panic NilDereference
  end.

(** [a.next[i]] *)
Definition get_next (h : store) (a i : nat) : res ptr :=
  n ← load h a; index (next n) i.

(** [a.prev[i]] *)
Definition get_prev (h : store) (a i : nat) : res ptr :=
  n ← load h a; index (prev n) i.

(** [a.next[i] = p] *)
Definition set_next (h : store) (a i : nat) (p : ptr) : res store :=
  n ← load h a;
  nx ← assign (next n) i p;
  Ok (<[a := {| value := value n; next := nx; prev := prev n |}]> h).

(** [a.prev[i] = p] *)
Definition set_prev (h : store) (a i : nat) (p : ptr) : res store :=
  n ← load h a;
  pv ← assign (prev n) i p;
  Ok (<[a := {| value := value n; next := next n; prev := pv |}]> h).

(** [a.value = e] *)
Definition set_value (h : store) (a : nat) (e : Entry) : res store :=
  n ← load h a;
  Ok (<[a := {| value := e; next := next n; prev := prev n |}]> h).

(** *** Insert *)

(** [for n&1 == 1 { level++; n >>= 1 }] on the draw of [rand.Int31].  A
    draw lies in [0, 2^31), so 32 rounds are enough. *)
Fixpoint trailing_ones (fuel : nat) (n : Z) (level : nat) : res nat :=
  match fuel with
  | O => Diverges
  | S f =>
      if Z.land n 1 =? 1 then trailing_ones f (Z.shiftr n 1) (S level)
      else Ok level
  end.

(** [for curr.next[i] != nil && e.V >= curr.next[i].value.V { curr = curr.next[i] }] *)
Fixpoint advance (fuel : nat) (h : store) (v : Z) (i : nat) (curr : nat) : res nat :=
  match fuel with
  | O => Diverges
  | S f =>
      nx ← get_next h curr i;
      match nx with
      | None => Ok curr
      | Some a =>
          n ← load h a;
          if v >=? V (value n) then advance f h v i a else Ok curr
      end
  end.

(** The four assignments that link [node] after [curr] at level [i]. *)
Definition link (h : store) (i node curr : nat) : res store :=
  nx ← get_next h curr i;
  h1 ← set_next h node i nx;
  h2 ← match nx with
       | None => Ok h1
       | Some a =>
           pv ← get_prev h1 a i;
           match pv with
           | None => Ok h1
           | Some _ => set_prev h1 a i (Some node)
           end
       end;
  h3 ← set_next h2 curr i (Some node);
  set_prev h3 node i (Some curr).

(** [for i := s.height; i >= 0; i--]: [k] is [i+1]. *)
Fixpoint descend (k : nat) (h : store) (v : Z) (level node curr : nat) : res store :=
  match k with
  | O => Ok h
  | S i =>
      curr' ← advance (S (length h)) h v i curr;
      if decide (level < i)%nat then descend i h v level node curr'
      else h1 ← link h i node curr'; descend i h1 v level node curr'
  end.

(** [func (s *Skiplist) Insert(e Entry) *SkiplistNode]; [n] is the draw of
    [rand.Int31()].  The new node takes the next free address of the
    store; the result is that address and the skiplist afterwards. *)
Definition Skiplist_Insert (s : Skiplist) (e : Entry) (n : Z) : res (nat * Skiplist) :=
  drawn ← trailing_ones 32 n 0;
  let '(hgt, level) :=
    if decide (height s < drawn)%nat then (S (height s), S (height s))
    else (height s, drawn) in
  let node := length (nodes s) in
  let h0 := nodes s ++ [ {| value := e;
                            next := replicate (S level) None;
                            prev := replicate (S level) None |} ] in
  h ← descend (S hgt) h0 (V e) level node (head s);
  Ok (node, {| height := hgt; head := head s; nodes := h |}).

(** *** Remove *)

(** One round of [for i := range node.next]. *)
Definition unlink (h : store) (node i : nat) : res store :=
  pv ← get_prev h node i;
  nx ← get_next h node i;
  h1 ← match pv with
       | Some p => set_next h p i nx
       | None => Ok h
       end;
  h2 ← match nx with
       | Some a => set_prev h1 a i pv
       | None => Ok h1
       end;
  h3 ← set_next h2 node i None;
  set_prev h3 node i None.

Fixpoint unlink_from (k : nat) (h : store) (node i : nat) : res store :=
  match k with
  | O => Ok h
  | S k' => h1 ← unlink h node i; unlink_from k' h1 node (S i)
  end.

(** [func (s *Skiplist) Remove(node *SkiplistNode)] *)
Definition Skiplist_Remove (s : Skiplist) (node : nat) : res Skiplist :=
  n ← load (nodes s) node;
  h ← unlink_from (length (next n)) (nodes s) node 0;
  Ok {| height := height s; head := head s; nodes := h |}.

(** ** The summary *)

Record Summary : Type := mkSummary {
  data : option Skiplist;       (* *Skiplist, nil when not initialised *)
  EncodedData : list Entry;
  N : Z
}.

Definition NewSummary : Summary :=
  {| data := Some NewSkiplist; EncodedData := []; N := 0 |}.

Definition with_nodes (sl : Skiplist) (h : store) : Skiplist :=
  {| height := height sl; head := head sl; nodes := h |}.

(** [s.data] dereferenced. *)
Definition the_data (s : Summary) : res Skiplist :=
  match data s with
  | Some sl => Ok sl
  | None => Panic NilDereference
  end.

(** [int(2 * EPSILON * float64(n))] *)
Definition band (n : Z) : Z := F64.to_int (F64.mul two_EPSILON (F64.of_int n)).

(** The three branches of the sweep in [compress], for the tuple at [a]
    and its successor at [b]; yields the skiplist and [missing]. *)
Definition compress_step (sl : Skiplist) (epsN missing : Z) (a b : nat)
  : res (Skiplist * Z) :=
  en ← load (nodes sl) a;
  nn ← load (nodes sl) b;
  let t := value en in
  let nt := value nn in
  if V t =? V nt then
    let missing' := int_add missing (G nt) in
    h ← set_value (nodes sl) b
          {| V := V nt; G := G t; Delta := int_add (Delta nt) missing';
             Samples := Samples nt ++ Samples t |};
    sl' ← Skiplist_Remove (with_nodes sl h) a;
    Ok (sl', missing')
  else if int_add (int_add (int_add (G t) (G nt)) missing) (Delta nt) <? epsN then
    h ← set_value (nodes sl) b
          {| V := V nt; G := int_add (G nt) (int_add (G t) missing);
             Delta := Delta nt; Samples := Samples nt ++ Samples t |};
    sl' ← Skiplist_Remove (with_nodes sl h) a;
    Ok (sl', 0)
  else
    h ← set_value (nodes sl) b
          {| V := V nt; G := int_add (G nt) missing;
             Delta := Delta nt; Samples := Samples nt |};
    Ok (with_nodes sl h, 0).

(** [for elt := s.data.head.next[0]; elt != nil && elt.next[0] != nil; { ... elt = next }] *)
Fixpoint compress_loop (fuel : nat) (sl : Skiplist) (epsN missing : Z) (elt : ptr)
  : res Skiplist :=
  match fuel with
  | O => Diverges
  | S f =>
      match elt with
      | None => Ok sl
      | Some a =>
          nx ← get_next (nodes sl) a 0;
          match nx with
          | None => Ok sl
          | Some b =>
              '(sl', missing') ← compress_step sl epsN missing a b;
              compress_loop f sl' epsN missing' (Some b)
          end
      end
  end.

(** [func (s *Summary) compress()] *)
Definition compress (s : Summary) : res Summary :=
  sl ← the_data s;
  first ← get_next (nodes sl) (head sl) 0;
  sl' ← compress_loop (S (length (nodes sl))) sl (band (N s)) 0 first;
  Ok {| data := Some sl'; EncodedData := EncodedData s; N := N s |}.

(** [eptr.prev[0] != s.data.head && eptr.next[0] != nil] *)
Definition is_interior (sl : Skiplist) (eptr : nat) : res bool :=
  pv ← get_prev (nodes sl) eptr 0;
  if decide (pv = Some (head sl)) then Ok false
  else nx ← get_next (nodes sl) eptr 0; Ok (bool_decide (nx <> None)).

(** [a.value.Delta = d] *)
Definition set_Delta (h : store) (a : nat) (d : Z) : res store :=
  n ← load h a;
  set_value h a {| V := V (value n); G := G (value n); Delta := d;
                   Samples := Samples (value n) |}.

(** [func (s *Summary) Insert(v int64, t uint64)]; [n] is the draw made by
    the skiplist. *)
Definition Summary_Insert (s : Summary) (v t : Z) (n : Z) : res Summary :=
  sl ← the_data s;
  '(eptr, sl1) ← Skiplist_Insert sl {| V := v; G := 1; Delta := 0; Samples := [t] |} n;
  let N1 := int_add (N s) 1 in
  interior ← is_interior sl1 eptr;
  h ← (if interior : bool then set_Delta (nodes sl1) eptr (band N1) else Ok (nodes sl1));
  let s1 := {| data := Some (with_nodes sl1 h); EncodedData := EncodedData s; N := N1 |} in
  if Z.rem N1 compress_period =? 0 then compress s1 else Ok s1.

(** [func (s *Summary) Quantile(q float64) (int64, []uint64)] *)
Fixpoint Quantile_loop (fuel : nat) (h : store) (r epsN rmin : Z) (elt : ptr)
  : res (Z * list Z) :=
  match fuel with
  | O => Diverges
  | S f =>
      match elt with
      | None => Panic NotReached
      | Some a =>
          en ← load h a;
          let t := value en in
          let rmin' := int_add rmin (G t) in
          n ← index (next en) 0;
          match n with
          | None => Ok (V t, Samples t)
          | Some b =>
              nn ← load h b;
              let nv := value nn in
              if int_add r epsN <? int_add (int_add rmin' (G nv)) (Delta nv) then
                if int_add r epsN <? int_add rmin' (G nv) then Ok (V t, Samples t)
                else Ok (V nv, Samples nv)
              else Quantile_loop f h r epsN rmin' n
          end
      end
  end.

Definition half : F64.float64 := F64.div (F64.of_int 1) (F64.of_int 2).

Definition Quantile (s : Summary) (q : F64.float64) : res (Z * list Z) :=
  let r := F64.to_int (F64.add (F64.mul q (F64.of_int (N s))) half) in
  let epsN := F64.to_int (F64.mul EPSILON (F64.of_int (N s))) in
  sl ← the_data s;
  first ← get_next (nodes sl) (head sl) 0;
  Quantile_loop (S (length (nodes sl))) (nodes sl) r epsN 0 first.

Record SummarySlice : Type := mkSlice {
  Start : Z;
  End_ : Z;
  Weight : Z;
  SliceSamples : list Z
}.

Fixpoint BySlices_loop (fuel : nat) (h : store) (last : nat) (cur : ptr)
  : res (list SummarySlice) :=
  match fuel with
  | O => Diverges
  | S f =>
      match cur with
      | None => Ok []
      | Some c =>
          ln ← load h last;
          cn ← load h c;
          nx ← index (next cn) 0;
          rest ← BySlices_loop f h c nx;
          Ok ({| Start := V (value ln); End_ := V (value cn);
                 Weight := int_sub (int_add (G (value cn)) (Delta (value cn))) 1;
                 SliceSamples := Samples (value cn) |} :: rest)
      end
  end.

(** [func (s *Summary) BySlices() []SummarySlice] *)
Definition BySlices (s : Summary) : res (list SummarySlice) :=
  sl ← the_data s;
  cur ← get_next (nodes sl) (head sl) 0;
  BySlices_loop (S (length (nodes sl))) (nodes sl) (head sl) cur.

(** The walk [for curr != nil { ... curr.value ...; curr = curr.next[0] }]
    of MarshalJSON, GobEncode and Merge: the values met, in order. *)
Fixpoint walk (fuel : nat) (h : store) (curr : ptr) : res (list Entry) :=
  match fuel with
  | O => Diverges
  | S f =>
      match curr with
      | None => Ok []
      | Some a =>
          n ← load h a;
          nx ← index (next n) 0;
          rest ← walk f h nx;
          Ok (value n :: rest)
      end
  end.

(** The data tuples of a skiplist: the level-0 chain after the head (one
    node less to visit than from the head, hence one round less). *)
Definition entries (sl : Skiplist) : res (list Entry) :=
  first ← get_next (nodes sl) (head sl) 0;
  walk (length (nodes sl)) (nodes sl) first.

(** [s.data.Insert(e)] for each [e] of [es] in turn; the [k]-th call gets
    the draw [draws k]. *)
Fixpoint insert_all (sl : Skiplist) (es : list Entry) (draws : nat -> Z) (k : nat)
  : res Skiplist :=
  match es with
  | [] => Ok sl
  | e :: es' =>
      '(_, sl') ← Skiplist_Insert sl e (draws k);
      insert_all sl' es' draws (S k)
  end.

(** The loop of Merge as written: read a node of [s2], insert its value
    into [sl], step. *)
Fixpoint Merge_loop (fuel : nat) (sl : Skiplist) (h2 : store) (curElt : ptr)
    (draws : nat -> Z) (k : nat) : res Skiplist :=
  match fuel with
  | O => Diverges
  | S f =>
      match curElt with
      | None => Ok sl
      | Some a =>
          n ← load h2 a;
          '(_, sl') ← Skiplist_Insert sl (value n) (draws k);
          nx ← index (next n) 0;
          Merge_loop f sl' h2 nx draws (S k)
      end
  end.

(** [func (s *Summary) Merge(s2 *Summary)], for [s2] a summary other than
    [s] itself. *)
Definition Merge (s s2 : Summary) (draws : nat -> Z) : res Summary :=
  match data s2 with
  | None => Ok s
  | Some sl2 =>
      if N s2 =? 0 then Ok s
      else
        let N1 := int_add (N s) (N s2) in
        sl ← the_data s;
        sl' ← Merge_loop (S (length (nodes sl2))) sl (nodes sl2) (Some (head sl2)) draws 0;
        compress {| data := Some sl'; EncodedData := EncodedData s; N := N1 |}
  end.

(** Merge as the specification words it: nothing when [other.N] is 0;
    otherwise [other.N] is added, exactly the tuples held in [other]'s
    skiplist are inserted as they are, and [compress] runs once. *)
Definition Merge_specified (s other : Summary) (draws : nat -> Z) : res Summary :=
  if N other =? 0 then Ok s
  else
    es ← match data other with
         | Some sl2 => entries sl2
         | None => Ok []
         end;
    sl ← the_data s;
    sl' ← insert_all sl es draws 0;
    compress {| data := Some sl'; EncodedData := EncodedData s;
                N := int_add (N s) (N other) |}.

(** ** Serialisation

    [encoding/json] and [encoding/gob] are libraries outside the
    repository.  They are taken as functions on the logical content of the
    private type [summary] that they read and write: the exported fields
    [EncodedData] and [N] (the field [data] is unexported and skipped by
    both).  A decoder yields what it has filled in together with its
    error, if any. *)

Section Serialisation.
Context {payload error : Type}.

(** [json.Marshal(map[string]interface{}{"data": d, "n": n})] *)
Variable json_Marshal : list Entry -> Z -> payload.
(** [json.Unmarshal(b, &ss)] on [ss := summary{}] *)
Variable json_Unmarshal : payload -> list Entry * Z * option error.
(** [gob.NewEncoder(&buf).Encode(ss)] *)
Variable gob_Encode : list Entry -> Z -> payload * option error.
(** [gob.NewDecoder(buf).Decode(&ss)] on [ss := summary{}] *)
Variable gob_Decode : payload -> list Entry * Z * option error.

(** The flattening loop shared by MarshalJSON and GobEncode. *)
Definition flatten (sl : Skiplist) : res (list Entry) :=
  walk (S (length (nodes sl))) (nodes sl) (Some (head sl)).

(** [func (s Summary) MarshalJSON() ([]byte, error)] *)
Definition MarshalJSON (s : Summary) : res (payload * option error) :=
  match data s with
  | None => Panic NotInitialized
  | Some sl =>
      enc ← flatten sl;
      Ok (json_Marshal enc (N s), None)
  end.

(** [*s = Summary(ss); s.data = NewSkiplist(); for _, e := range s.EncodedData { s.data.Insert(e) }] *)
Definition rebuild (enc : list Entry) (n : Z) (draws : nat -> Z) : res Summary :=
  sl ← insert_all NewSkiplist enc draws 0;
  Ok {| data := Some sl; EncodedData := enc; N := n |}.

(** [func (s *Summary) UnmarshalJSON(b []byte) error]: the receiver after
    the call and the error returned. *)
Definition UnmarshalJSON (s : Summary) (b : payload) (draws : nat -> Z)
  : res (Summary * option error) :=
  match json_Unmarshal b with
  | (_, _, Some err) => Ok (s, Some err)
  | (enc, n, None) => s' ← rebuild enc n draws; Ok (s', None)
  end.

(** [func (s *Summary) GobEncode() ([]byte, error)]: the receiver after
    the call (its [EncodedData] is overwritten) and the results. *)
Definition GobEncode (s : Summary) : res (Summary * (payload * option error)) :=
  sl ← the_data s;
  enc ← flatten sl;
  Ok ({| data := data s; EncodedData := enc; N := N s |}, gob_Encode enc (N s)).

(** [func (s *Summary) GobDecode(data []byte) error] *)
Definition GobDecode (s : Summary) (b : payload) (draws : nat -> Z)
  : res (Summary * option error) :=
  match gob_Decode b with
  | (_, _, Some err) => Ok (s, Some err)
  | (enc, n, None) => s' ← rebuild enc n draws; Ok (s', None)
  end.
End Serialisation.

(** The values fed to a summary by successive calls of Insert: value, span
    id and the skiplist's draw. *)
Fixpoint insert_stream (s : Summary) (l : list (Z * Z * Z)) : res Summary :=
  match l with
  | [] => Ok s
  | (v, t, n) :: l' => s' ← Summary_Insert s v t n; insert_stream s' l'
  end.

(** *** Ranks in the inserted stream

    The rank of a value is its 1-based position in the sorted stream; a
    value that occurs several times holds a run of ranks. *)

Definition rank_lo (stream : list Z) (v : Z) : Z :=
  Z.of_nat (length (filter (fun x => x < v) stream)) + 1.

Definition rank_hi (stream : list Z) (v : Z) : Z :=
  Z.of_nat (length (filter (fun x => x <= v) stream)).

(** How far the rank [r] is from the ranks held by [v]. *)
Definition rank_distance (stream : list Z) (v r : Z) : Z :=
  if r <? rank_lo stream v then rank_lo stream v - r
  else if rank_hi stream v <? r then r - rank_hi stream v
  else 0.

(** The target rank [floor(q*N + 0.5)] and the bound [ceil(EPSILON*N)] of
    the specification, in exact arithmetic. *)
Definition target_rank (q : Q) (n : Z) : Z := Qfloor (q * inject_Z n + (1#2))%Q.
Definition rank_bound (n : Z) : Z := Qceiling ((1#100) * inject_Z n)%Q.

(** The sum of [g] over the tuples of a skiplist. *)
Definition sum_G (es : list Entry) : Z := fold_right Z.add 0 (map G es).

(** What a caller can observe of a summary: [N], the quantiles at 0, 0.25,
    0.5, 0.75 and 1, and [BySlices]. *)
Definition quartiles : list F64.float64 :=
  [F64.of_int 0; F64.div (F64.of_int 1) (F64.of_int 4); half;
   F64.div (F64.of_int 3) (F64.of_int 4); F64.of_int 1].

Definition observables (s : Summary)
  : Z * list (res (Z * list Z)) * res (list SummarySlice) :=
  (N s, map (Quantile s) quartiles, BySlices s).

End quantile.

(** ** float64 as an interface

    The sampler only adds, multiplies, divides, takes square roots and
    compares its scores.  Its code is written once over this interface and
    read at two instances: bit-exact binary64, and the rounding model
    (exact rational arithmetic followed by a rounding function). *)

Class Float64 (F : Type) : Type := {
  f_of_int : Z -> F;               (* float64(n), and integer constants *)
  f_add : F -> F -> F;
  f_sub : F -> F -> F;
  f_mul : F -> F -> F;
  f_div : F -> F -> F;
  f_sqrt : F -> F;                 (* math.Sqrt *)
  f_min : F -> F -> F;             (* math.Min *)
  f_lt : F -> F -> bool;           (* x < y *)
  f_le : F -> F -> bool            (* x <= y *)
}.

(** [x <= y] and [y < x] never hold together. *)
Class Float64Order (F : Type) `{Float64 F} : Prop :=
  f_le_not_gt : forall x y : F, f_le x y = true -> f_lt y x = false.

(** math.Min on binary64, with its special cases for NaN and zeros. *)
Definition F64_min (x y : F64.float64) : F64.float64 :=
  match x, y with
  | S754_nan, _ | _, S754_nan => S754_nan
  | S754_zero sx, S754_zero sy => S754_zero (sx || sy)
  | _, _ => if SFltb y x then y else x
  end.

#[global] Instance binary64 : Float64 F64.float64 := {|
  f_of_int := F64.of_int;
  f_add := F64.add;
  f_sub := F64.sub;
  f_mul := F64.mul;
  f_div := F64.div;
  f_sqrt := SFsqrt F64.prec F64.emax;
  f_min := F64_min;
  f_lt := SFltb;
  f_le := SFleb
|}.

(** The rounding model: every operation is the exact one on rationals
    followed by [rnd]; [sqrt_r] stands for the rounded square root. *)
Class Rounding : Type := {
  rnd : Q -> Q;
  sqrt_r : Q -> Q
}.

#[global] Instance rounded `{Rounding} : Float64 Q := {|
  f_of_int := fun n => rnd (inject_Z n);
  f_add := fun x y => rnd (x + y)%Q;
  f_sub := fun x y => rnd (x - y)%Q;
  f_mul := fun x y => rnd (x * y)%Q;
  f_div := fun x y => rnd (x / y)%Q;
  f_sqrt := sqrt_r;
  f_min := fun x y => if Qle_bool x y then x else y;
  f_lt := fun x y => negb (Qle_bool y x);
  f_le := Qle_bool
|}.

(** Rounding to the nearest multiple of [1/k], ties away from zero, and
    the square root rounded down to that grid: a small fixed-point
    instance of the rounding model. *)
Definition round_to (k : positive) (x : Q) : Q :=
  let n := Qfloor (Qabs x * inject_Z (Zpos k) + (1 # 2))%Q in
  if Qle_bool 0 x then n # k else (- n) # k.

Definition sqrt_to (k : positive) (x : Q) : Q :=
  Z.sqrt (Qfloor (x * inject_Z (Zpos (k * k)))%Q) # k.

Definition fixed_point (k : positive) : Rounding :=
  {| rnd := round_to k; sqrt_r := sqrt_to k |}.

(** ** The signature sampler *)

Module sampler.

(** Modelled from the spec: the type [model.Span] of package [model],
    with the fields the sampler reads ([Service], [Name], [Resource],
    [Error], [ParentID], [TraceID]); [model.Trace] is a slice of spans. *)
Record Span : Type := mkSpan {
  TraceID : Z;          (* uint64 *)
  ParentID : Z;         (* uint64 *)
  Service : string;
  Name : string;
  Resource : string;
  Error : Z             (* int32 *)
}.

Definition Trace : Type := list Span.

(** [Signature] is a uint64, [spanHash] a uint32. *)
Definition Signature : Type := Z.

(** *** FNV-1a, 32 bits ([hash/fnv]) *)

Definition fnv_offset32 : Z := 2166136261.
Definition fnv_prime32 : Z := 16777619.

(** [h.Write(bs)] *)
Definition fnv_write (h : Z) (bs : list Z) : Z :=
  fold_left (fun h b => (Z.lxor h b * fnv_prime32) mod 2^32) bs h.

(** [[]byte(s)] *)
Definition bytes_of (s : string) : list Z :=
  map (fun a => Z.of_N (N_of_ascii a)) (list_ascii_of_string s).

Definition computeSpanHash (span : Span) : Z :=
  let h := fnv_offset32 in
  let h := fnv_write h (bytes_of (Service span)) in
  let h := fnv_write h (bytes_of (Name span)) in
  fnv_write h [Error span mod 256].

Definition computeRootHash (span : Span) : Z :=
  let h := fnv_offset32 in
  let h := fnv_write h (bytes_of (Service span)) in
  let h := fnv_write h (bytes_of (Name span)) in
  let h := fnv_write h (bytes_of (Resource span)) in
  fnv_write h [Error span mod 256].

(** [l[z]] for an index computed in [int]. *)
Definition index_int {A} (l : list A) (z : Z) : res A :=
  if z <? 0 then Panic IndexOutOfRange else index l (Z.to_nat z).

(** [for i := range trace { if trace[len(trace)-1-i].ParentID == 0 { return ... } }];
    [k] rounds are left and the next one has [i = len(trace) - k]. *)
Fixpoint getRoot_loop (k : nat) (trace : Trace) : res (option Span) :=
  match k with
  | O => Ok None
  | S k' =>
      let i := Z.of_nat (length trace) - Z.of_nat k in
      sp ← index_int trace (Z.of_nat (length trace) - 1 - i);
      if ParentID sp =? 0 then Ok (Some sp) else getRoot_loop k' trace
  end.

Definition getRoot (trace : Trace) : res Span :=
  found ← getRoot_loop (length trace) trace;
  match found with
  | Some sp => Ok sp
  | None => index_int trace (Z.of_nat (length trace) - 1)
  end.

(** [sort.Sort(spanHashSlice(hashes))]: the hashes in ascending order. *)
Definition SortHashes (hashes : list Z) : list Z := merge_sort Z.le hashes.

(** [for i := 1; i < len(spanHashes); i++ { if spanHashes[i] != last { ... } }];
    [k] rounds are left. *)
Fixpoint dedupe (k : nat) (hs : list Z) (last : Z) (idx i : nat) : res (list Z * nat) :=
  match k with
  | O => Ok (hs, idx)
  | S k' =>
      x ← index hs i;
      if decide (x = last) then dedupe k' hs last idx (S i)
      else hs' ← assign hs idx x; dedupe k' hs' x (S idx) (S i)
  end.

(** [for i := 0; i < idx; i++ { traceHash = spanHashes[i] ^ traceHash }] *)
Fixpoint xor_all (k : nat) (hs : list Z) (i : nat) (traceHash : Z) : res Z :=
  match k with
  | O => Ok traceHash
  | S k' => x ← index hs i; xor_all k' hs (S i) (Z.lxor x traceHash)
  end.

(** [func (s *SignatureSampler) ComputeSignature(trace model.Trace) Signature] *)
Definition ComputeSignature (trace : Trace) : res Signature :=
  root ← getRoot trace;
  let traceHash := computeRootHash root in
  let spanHashes := replicate (length trace) 0 ++ map computeSpanHash trace in
  let spanHashes := SortHashes spanHashes in
  last ← index spanHashes 0;
  '(spanHashes, idx) ← dedupe (length spanHashes - 1) spanHashes last 1 1;
  xor_all idx spanHashes 0 traceHash.

Section Sampler.
Context {F : Type} `{Float64 F}.

(** The mutex [mu] only orders concurrent callers; one call at a time is
    what is modelled. *)
Record SignatureSampler : Type := mkSampler {
  lastTSBySignature : gmap Z F;
  sampledTraces : list Trace;
  sMin : F;
  theta : F;
  jitter : F
}.

(** [float64(time.Now().UnixNano()) / 1e9] for a clock reading [ns]. *)
Definition seconds (ns : Z) : F := f_div (f_of_int ns) (f_of_int 1000000000).

(** [GetTimeScore]; [now] is the clock reading it takes when the
    signature has been seen. *)
Definition GetTimeScore (s : SignatureSampler) (signature : Signature) (now : Z) : F :=
  match lastTSBySignature s !! signature with
  | None => f_of_int 5
  | Some ts =>
      let delta := f_sub (seconds now) ts in
      if f_le delta (f_of_int 0) then f_of_int 0
      else f_min (f_sqrt (f_div delta (theta s))) (f_of_int 5)
  end.

(** [GetScore]; [u] is the draw of [rand.Float64()]. *)
Definition GetScore (s : SignatureSampler) (signature : Signature) (now : Z) (u : F) : F :=
  let timeScore := GetTimeScore s signature now in
  f_mul timeScore
    (f_add (f_of_int 1) (f_mul (jitter s) (f_sub (f_of_int 1) (f_mul (f_of_int 2) u)))).

(** What one call of AddTrace reads from outside: the clock in
    GetTimeScore, the random draw, the clock when the trace is kept. *)
Record Env : Type := mkEnv {
  clock_score : Z;
  draw : F;
  clock_keep : Z
}.

(** [func (s *SignatureSampler) AddTrace(trace model.Trace)] *)
Definition AddTrace (s : SignatureSampler) (trace : Trace) (env : Env)
  : res SignatureSampler :=
  signature ← ComputeSignature trace;
  let score := GetScore s signature (clock_score env) (draw env) in
  let s' :=
    if f_lt (sMin s) score then
      {| lastTSBySignature := <[signature := seconds (clock_keep env)]> (lastTSBySignature s);
         sampledTraces := sampledTraces s ++ [trace];
         sMin := sMin s; theta := theta s; jitter := jitter s |}
    else s in
  first ← index trace 0;  (* trace[0].TraceID, for the debug line *)
  Ok s'.

(** [func (s *SignatureSampler) Flush() []model.Trace]: the traces
    returned and the sampler afterwards. *)
Definition Flush (s : SignatureSampler) : list Trace * SignatureSampler :=
  (sampledTraces s,
   {| lastTSBySignature := lastTSBySignature s;
      sampledTraces := [];
      sMin := sMin s; theta := theta s; jitter := jitter s |}).

(** A run of AddTrace calls. *)
Fixpoint AddTraces (s : SignatureSampler) (calls : list (Trace * Env))
  : res SignatureSampler :=
  match calls with
  | [] => Ok s
  | (trace, env) :: rest => s' ← AddTrace s trace env; AddTraces s' rest
  end.

(** The traces that a run of AddTrace calls keeps, in the order of the
    calls: those whose score at the time of the call is over [sMin]. *)
Fixpoint kept (s : SignatureSampler) (calls : list (Trace * Env)) : list Trace :=
  match calls with
  | [] => []
  | (trace, env) :: rest =>
      match ComputeSignature trace, AddTrace s trace env with
      | Ok signature, Ok s' =>
          (if f_lt (sMin s) (GetScore s signature (clock_score env) (draw env))
           then [trace] else []) ++ kept s' rest
      | _, _ => []
      end
  end.
End Sampler.
Arguments SignatureSampler F : clear implicits.
Arguments Env F : clear implicits.

End sampler.

(** * Inputs used in the statements below *)

Import quantile sampler.

(** Fifty observations of the value 1 (span ids and draws 1..50), then
    one observation of the value 2. *)
Definition stream_ones_then_two : list (Z * Z * Z) :=
  map (fun k => (1, Z.of_nat k, Z.of_nat k)) (seq 1 50) ++ [(2, 51, 0)].

(** The values 1..49 and then 49 once more: the largest value twice. *)
Definition stream_max_twice : list (Z * Z * Z) :=
  map (fun k => (Z.of_nat (Nat.min k 49), Z.of_nat k, Z.of_nat k)) (seq 1 50).

(** Thirty-one entries; the insert number [k] (from 0) draws
    [2^(k+1) - 1], the smallest draw that raises the height once more.
    The last draw is [2^31 - 1], the largest value of [rand.Int31]. *)
Definition thirty_one_entries : list Entry :=
  map (fun k => {| V := Z.of_nat k; G := 1; Delta := 0; Samples := [Z.of_nat k] |}) (seq 1 31).

(** The draw of insert number [k], counted from 0. *)
Definition rising_draw : nat -> Z := fun k => 2 ^ (Z.of_nat k + 1) - 1.

(** A summary made by hand with a count and no skiplist: [&Summary{N: 3}]. *)
Definition bare_summary : Summary := {| data := None; EncodedData := []; N := 3 |}.

(** The summary after [Insert(5, 1)] on a new summary (draw 0). *)
Definition summary_five : Summary :=
  Eval vm_compute in
    match insert_stream NewSummary [(5, 1, 0)] with
    | Ok s => s
    | _ => NewSummary
    end.

(** Every draw is 0: every node is of level 0. *)
Definition zero_draw : nat -> Z := fun _ => 0.

(** A codec that carries the logical payload as it is; [None] is the
    malformed payload and [tt] the decode error. *)
Definition plain_encode (d : list Entry) (n : Z) : option (list Entry * Z) := Some (d, n).
Definition plain_decode (b : option (list Entry * Z)) : list Entry * Z * option unit :=
  match b with
  | Some (d, n) => (d, n, None)
  | None => ([], 0, Some tt)
  end.

(** Two spans: a root and a child. *)
Definition span_web : Span := mkSpan 1 0 "web" "GET" "/home" 0.
Definition span_db : Span := mkSpan 2 7 "db" "query" "select" 1.

(** binary64: [sMin] as given, [theta = 60], [jitter = 0.5], nothing seen. *)
Definition sampler64 (smin : Z) : SignatureSampler F64.float64 :=
  {| lastTSBySignature := ∅; sampledTraces := [];
     sMin := F64.of_int smin; theta := F64.of_int 60; jitter := half |}.

(** The clock at 1 s, the draw 0.25. *)
Definition env64 : Env F64.float64 :=
  {| clock_score := 1000000000;
     draw := F64.div (F64.of_int 1) (F64.of_int 4);
     clock_keep := 1000000000 |}.

(** Three calls on binary64: the first trace is new and kept; the same
    trace again at the same clock scores 0 and is dropped; another trace
    is new and kept. *)
Definition three_calls : list (Trace * Env F64.float64) :=
  [([span_web], env64); ([span_web], env64); ([span_db; span_web], env64)].

(** binary64 at the edge: [jitter = 3 * 2^-55], the draw [1 - 2^-53], and
    [sMin = 5 - 2^-50], the float64 just under 5. *)
Definition edge_jitter : F64.float64 := S754_finite false 6755399441055744 (-106).
Definition edge_draw : F64.float64 := S754_finite false 9007199254740991 (-53).
Definition edge_sMin : F64.float64 := S754_finite false 5629499534213119 (-50).

(** A sampler and a call at that edge. *)
Definition edge_sampler : SignatureSampler F64.float64 :=
  {| lastTSBySignature := ∅; sampledTraces := [];
     sMin := edge_sMin; theta := F64.of_int 60; jitter := edge_jitter |}.

(** The clock at 1 s, the draw [1 - 2^-53]. *)
Definition edge_env : Env F64.float64 :=
  {| clock_score := 1000000000; draw := edge_draw; clock_keep := 1000000000 |}.

(** Fixed point, 10 binary digits: [sMin = 2], [theta = 60],
    [jitter = 1/2], the draw 1/3. *)
Definition samplerQ : SignatureSampler Q :=
  {| lastTSBySignature := ∅; sampledTraces := [];
     sMin := 2%Q; theta := 60%Q; jitter := (1 # 2)%Q |}.

(** The clock at 1 s, the draw 1/3. *)
Definition envQ : Env Q :=
  {| clock_score := 1000000000; draw := (1 # 3)%Q; clock_keep := 1000000000 |}.

(** The tuple of [Insert(5, 1)] and the skiplist of [summary_five]. *)
Definition entry_five : Entry := {| V := 5; G := 1; Delta := 0; Samples := [1] |}.

Definition skiplist_five : Skiplist :=
  Eval vm_compute in
    match data summary_five with
    | Some sl => sl
    | None => NewSkiplist
    end.

(** Three observations of three values, with the draws 0, 1 and 2. *)
Definition stream_three : list (Z * Z * Z) := [(5, 1, 0); (3, 2, 1); (9, 3, 2)].

(** The gob side of the codec that carries the payload as it is. *)
Definition plain_gob_encode (d : list Entry) (n : Z)
  : option (list Entry * Z) * option unit := (Some (d, n), None).

(** A root followed by a child, and the same with the child twice. *)
Definition trace_two : Trace := [span_web; span_db].
Definition trace_three : Trace := [span_db; span_web; span_db].

(** Fixed point: the signature of [[span_web]] seen at 1 s, [theta = 60]. *)
Definition seen_samplerQ : SignatureSampler Q :=
  {| lastTSBySignature := {[ 4096983264 := 1%Q ]}; sampledTraces := [];
     sMin := 2%Q; theta := 60%Q; jitter := (1 # 2)%Q |}.

(** binary64: the same with [theta = -60]. *)
Definition negative_theta_sampler : SignatureSampler F64.float64 :=
  {| lastTSBySignature := {[ 4096983264 := F64.of_int 1 ]}; sampledTraces := [];
     sMin := F64.of_int 2; theta := F64.of_int (-60); jitter := half |}.

(** * Abstract views

    What the properties below are stated with: the chains of a skiplist
    read as lists, its representation invariant, and the operations of
    the skiplist and of the summary on the sequence of tuples. *)

(** ** The skiplist as doubly linked chains *)

(** What the code can see of a node: its value and the lengths of its
    pointer slices, besides the pointers themselves ([get_next],
    [get_prev]). *)
Definition val (h : store) (a : nat) : option Entry := value <$> h !! a.
Definition nlen (h : store) (a : nat) : nat :=
  match h !! a with Some n => length (next n) | None => 0%nat end.
Definition plen (h : store) (a : nat) : nat :=
  match h !! a with Some n => length (prev n) | None => 0%nat end.

(** The value stored at a node, and its [V]. *)
Definition entry_at (h : store) (a : nat) : Entry := default zeroEntry (val h a).
Definition Vof (h : store) (a : nat) : Z := from_option V 0 (val h a).

(** Two stores that agree on the values, on the lengths of the pointer
    slices, and on the pointers of the levels in [keep]. *)
Record agree_on (keep : nat -> Prop) (h h' : store) : Prop := {
  ao_length : length h' = length h;
  ao_val : forall a, val h' a = val h a;
  ao_nlen : forall a, nlen h' a = nlen h a;
  ao_plen : forall a, plen h' a = plen h a;
  ao_next : forall a j, keep j -> get_next h' a j = get_next h a j;
  ao_prev : forall a j, keep j -> get_prev h' a j = get_prev h a j
}.

(** Two stores that differ at most in the pointers of level [j]. *)
Definition same_but (j : nat) : store -> store -> Prop :=
  agree_on (fun j' => j' <> j).

(** Two stores that differ at most in the pointers of the levels below [k]. *)
Definition agree_from (k : nat) : store -> store -> Prop :=
  agree_on (fun j => (k <= j)%nat).

(** A doubly linked segment at level [j]: from [p], through the nodes of
    [l], to the pointer [q] held by the last of them. *)
Fixpoint lseg (h : store) (j p : nat) (l : list nat) (q : ptr) : Prop :=
  match l with
  | [] => get_next h p j = Ok q
  | a :: l' => get_next h p j = Ok (Some a) /\ get_prev h a j = Ok (Some p) /\ lseg h j a l' q
  end.

(** The last node of [p :: l]. *)
Definition lastd (p : nat) (l : list nat) : nat := default p (last l).

(** The chain of level [j] of a skiplist whose data nodes are [L]: the
    nodes of [L] that have a level [j], doubly linked from the head. *)
Definition chain_at (h : store) (hd : nat) (L : list nat) (j : nat) (Cj : list nat) : Prop :=
  lseg h j hd Cj None /\ NoDup (hd :: Cj) /\
  forall a, a ∈ Cj <-> a ∈ L /\ (j < nlen h a)%nat.

(** Nodes in ascending order of value. *)
Definition ordered (h : store) (l : list nat) : Prop :=
  StronglySorted (fun a b => Vof h a <= Vof h b) l.

(** The representation invariant of a skiplist whose data nodes, in the
    order of level 0, are [L]: the height is below [maxHeight], the head
    has [maxHeight] forward pointers and the zero value, every level is a
    doubly linked chain of the data nodes that reach it, a data node has
    as many backward as forward pointers and no more than the height
    allows, and level 0 is in ascending order of value. *)
Record WF (sl : Skiplist) (L : list nat) : Prop := {
  wf_height : (height sl < maxHeight)%nat;
  wf_head : nlen (nodes sl) (head sl) = maxHeight;
  wf_level0 : chain_at (nodes sl) (head sl) L 0 L;
  wf_levels : forall j, (j < maxHeight)%nat ->
    exists Cj, chain_at (nodes sl) (head sl) L j Cj;
  wf_shape : forall a, a ∈ L ->
    plen (nodes sl) a = nlen (nodes sl) a /\ (nlen (nodes sl) a <= S (height sl))%nat;
  wf_ordered : ordered (nodes sl) L;
  wf_head_val : val (nodes sl) (head sl) = Some zeroEntry
}.

(** A skiplist that holds the tuples [es], in this order. *)
Definition represents (sl : Skiplist) (es : list Entry) : Prop :=
  exists L, WF sl L /\ es = map (entry_at (nodes sl)) L.

(** A summary whose skiplist holds the tuples [es]. *)
Definition holds (s : Summary) (es : list Entry) : Prop :=
  exists sl, data s = Some sl /\ represents sl es.

(** ** The operations on the sequence of tuples *)

Definition sorted_by_value (es : list Entry) : Prop :=
  StronglySorted (fun x y => V x <= V y) es.

(** Tuples of pairwise distinct values, in ascending order. *)
Definition ascending (es : list Entry) : Prop :=
  StronglySorted (fun x y => V x < V y) es.

(** Tuples of weight at least 1. *)
Definition weighted (es : list Entry) : Prop := Forall (fun x => 1 <= G x) es.

(** Skiplist.Insert: the tuple goes after the tuples whose value does not
    exceed its own. *)
Fixpoint place (e : Entry) (es : list Entry) : list Entry :=
  match es with
  | [] => [e]
  | x :: es' => if V x <=? V e then x :: place e es' else e :: es
  end.

(** The sweep of [compress]: [t] is the tuple the sweep stands on, [rest]
    the tuples after it. *)
Fixpoint compress_from (epsN missing : Z) (t : Entry) (rest : list Entry) : list Entry :=
  match rest with
  | [] => [t]
  | nt :: rest' =>
      if V t =? V nt then
        let missing' := int_add missing (G nt) in
        compress_from epsN missing'
          {| V := V nt; G := G t; Delta := int_add (Delta nt) missing';
             Samples := Samples nt ++ Samples t |} rest'
      else if int_add (int_add (int_add (G t) (G nt)) missing) (Delta nt) <? epsN then
        compress_from epsN 0
          {| V := V nt; G := int_add (G nt) (int_add (G t) missing);
             Delta := Delta nt; Samples := Samples nt ++ Samples t |} rest'
      else
        t :: compress_from epsN 0
               {| V := V nt; G := int_add (G nt) missing;
                  Delta := Delta nt; Samples := Samples nt |} rest'
  end.

Definition compress_list (epsN : Z) (es : list Entry) : list Entry :=
  match es with
  | [] => []
  | t :: rest => compress_from epsN 0 t rest
  end.

(** [e.Delta = d] *)
Definition stamp (d : Z) (e : Entry) : Entry :=
  {| V := V e; G := G e; Delta := d; Samples := Samples e |}.

(** Summary.Insert before the sweep: the new tuple placed by value; it
    gets [Delta = d] unless it comes first or last. *)
Fixpoint place_stamped (first : bool) (d : Z) (e : Entry) (es : list Entry) : list Entry :=
  match es with
  | [] => [e]
  | x :: es' =>
      if V x <=? V e then x :: place_stamped false d e es'
      else (if first then e else stamp d e) :: es
  end.

(** Summary.Insert of the value [v] with the span id [t], at the count [n]. *)
Definition Insert_tuples (n v t : Z) (es : list Entry) : list Entry :=
  let N1 := int_add n 1 in
  let es1 := place_stamped true (band N1) {| V := v; G := 1; Delta := 0; Samples := [t] |} es in
  if Z.rem N1 compress_period =? 0 then compress_list (band N1) es1 else es1.

(** A run of Summary.Insert, from the count [n]. *)
Fixpoint stream_tuples (n : Z) (es : list Entry) (l : list (Z * Z * Z)) : list Entry :=
  match l with
  | [] => es
  | (v, t, _) :: l' => stream_tuples (int_add n 1) (Insert_tuples n v t es) l'
  end.

(** BySlices; [start] is the value before. *)
Fixpoint slices (start : Z) (es : list Entry) : list SummarySlice :=
  match es with
  | [] => []
  | e :: es' =>
      {| Start := start; End_ := V e;
         Weight := int_sub (int_add (G e) (Delta e)) 1;
         SliceSamples := Samples e |} :: slices (V e) es'
  end.

(** ** The signature as a function of the trace *)

(** [ParentID == 0] *)
Definition is_root (sp : Span) : bool := ParentID sp =? 0.

(** A sorted list without its repetitions: [uniq_from last l] drops the
    elements equal to the one before, [last] before the first. *)
Fixpoint uniq_from (last : Z) (l : list Z) : list Z :=
  match l with
  | [] => []
  | x :: l' => if decide (x = last) then uniq_from last l' else x :: uniq_from x l'
  end.

Definition uniq (l : list Z) : list Z :=
  match l with
  | [] => []
  | x :: l' => x :: uniq_from x l'
  end.

(** The XOR of the hashes of a list into [h]. *)
Definition xor_into (h : Z) (l : list Z) : Z := fold_left (fun acc x => Z.lxor x acc) l h.

(** * Properties *)

(** Closes an equation between closed terms by evaluating both sides. *)
Ltac evaluate := vm_compute; reflexivity.

(** ** The skiplist *)

(** The level loop stops within its rounds with at most one level per
    round but the last. *)
Lemma trailing_ones_bound (fuel : nat) : forall n level drawn,
  trailing_ones fuel n level = Ok drawn -> (drawn < level + fuel)%nat.
Proof.
  induction fuel as [|fuel IH]; intros n level drawn Hrun; simpl in Hrun; [ discriminate | ].
  destruct (Z.land n 1 =? 1).
  - apply IH in Hrun. lia.
  - injection Hrun as <-. lia.
Qed.

(** The height goes up by at most one per insert and never passes 31,
    whatever is drawn. *)
Lemma Skiplist_Insert_height (s : Skiplist) (e : Entry) (n : Z) (a : nat) (s' : Skiplist) :
  Skiplist_Insert s e n = Ok (a, s') ->
  (height s <= 31)%nat ->
  (height s <= height s' <= S (height s))%nat /\ (height s' <= 31)%nat.
Proof.
  unfold Skiplist_Insert. intros Hins Hh.
  destruct (trailing_ones 32 n 0) as [drawn| |] eqn:Hdrawn; simpl in Hins; try discriminate.
  apply trailing_ones_bound in Hdrawn.
  destruct (decide (height s < drawn)%nat) as [Hlt|Hge];
    cbv beta iota zeta in Hins;
    match type of Hins with
    | (?m ≫= _) = _ => destruct m as [h'| |]; simpl in Hins; try discriminate
    end;
    injection Hins as _ <-; simpl; lia.
Qed.

(** ** The summary on concrete streams *)

(** C3 (fails on this stream): after the fifty insertions of 1..49, 49 the
    counter [N] is 50 while the [g] of the stored tuples add up to 49.  The
    sweep of [compress] ends on an equal-value merge, and the weight it
    has put aside in [missing] is dropped when the loop ends. *)
Theorem compress_drops_missing_weight :
  exists s sl es,
    insert_stream NewSummary stream_max_twice = Ok s /\
    data s = Some sl /\ entries sl = Ok es /\
    N s = 50 /\ sum_G es = 49.
Proof.
  eexists _, _, _.
  split; [ evaluate | ].
  split; [ reflexivity | ].
  split; [ evaluate | ].
  split; evaluate.
Qed.

(** C1 (fails on this stream): after fifty insertions of 1 and one of 2,
    [Quantile(0.5)] returns 2.  The only rank of 2 in the stream is 51, the
    target rank is 26, and the bound [ceil(0.01 * 51)] is 1. *)
Theorem Quantile_rank_error_exceeds_bound :
  exists s,
    insert_stream NewSummary stream_ones_then_two = Ok s /\
    N s = 51 /\
    Quantile s half = Ok (2, [51]) /\
    rank_distance (map (fun x => fst (fst x)) stream_ones_then_two) 2
      (target_rank (1#2) 51) = 25 /\
    rank_bound 51 = 1.
Proof.
  eexists.
  split; [ evaluate | ].
  repeat split; evaluate.
Qed.

(** C6 (fails on these draws): thirty inserts that each draw one more
    trailing one bit raise the height to 30; the next insert draws
    [2^31 - 1], raises the height to 31 and reads [head.next[31]], one past
    the 31 pointers of the head. *)
Theorem Skiplist_Insert_overruns_head :
  (exists sl, insert_all NewSkiplist (take 30 thirty_one_entries) rising_draw 0 = Ok sl /\
              height sl = 30%nat) /\
  insert_all NewSkiplist thirty_one_entries rising_draw 0 = Panic IndexOutOfRange.
Proof.
  split.
  - eexists. split; evaluate.
  - evaluate.
Qed.

(** ** Merge *)

(** The loop of Merge reads one node and inserts its value before it
    reads the next; when the chain read is a finite one, that is the same
    as inserting the values of the chain in order. *)
Lemma Merge_loop_walk fuel : forall sl h2 p draws k es,
  walk fuel h2 p = Ok es ->
  Merge_loop fuel sl h2 p draws k = insert_all sl es draws k.
Proof.
  induction fuel as [|fuel IH]; intros sl h2 p draws k es Hw; [ discriminate | ].
  destruct p as [a|]; simpl in Hw |- *.
  - destruct (load h2 a) as [n| |]; simpl in Hw |- *; try discriminate.
    destruct (index (next n) 0) as [nx| |]; simpl in Hw |- *; try discriminate.
    destruct (walk fuel h2 nx) as [rest| |] eqn:Hrest; simpl in Hw; try discriminate.
    injection Hw as <-. simpl.
    destruct (Skiplist_Insert sl (value n) (draws k)) as [[node sl']| |]; simpl; try reflexivity.
    now apply IH.
  - injection Hw as <-. reflexivity.
Qed.

(** Merge also returns at its guard when [other] has no skiplist
    ([s2.data == nil]), whatever [other.N]: on a summary made by hand with
    [N = 3] and no skiplist, [s.N] stays 0. *)
Lemma Merge_skips_summary_without_skiplist :
  N bare_summary <> 0 /\
  Merge NewSummary bare_summary zero_draw = Ok NewSummary /\
  Merge NewSummary bare_summary zero_draw <> Merge_specified NewSummary bare_summary zero_draw.
Proof.
  split; [ discriminate | ].
  split; [ reflexivity | ].
  vm_compute. discriminate.
Qed.

(** C4 (fails on this input): the summary made by [Insert(5, 1)] merged
    into a new summary.  [other.N] is 1 and [other]'s skiplist holds one
    Entry, but the walk of Merge starts at [s2.data.head], not at
    [s2.data.head.next[0]] where compress, Quantile and BySlices start:
    the zero Entry of the head node is inserted as well.  [s] ends with
    two tuples where inserting exactly the Entries held in [other]'s
    skiplist ([Merge_specified]) leaves one; BySlices has one slice more,
    of weight -1, and Quantile(0) is 0 instead of 5. *)
Theorem Merge_inserts_head_tuple :
  N summary_five = 1 /\
  data summary_five = Some skiplist_five /\
  entries skiplist_five = Ok [entry_five] /\
  exists s' sl' s'' sl'',
    Merge NewSummary summary_five zero_draw = Ok s' /\
    data s' = Some sl' /\ N s' = 1 /\
    entries sl' = Ok [zeroEntry; entry_five] /\
    BySlices s' =
      Ok [ {| Start := 0; End_ := 0; Weight := -1; SliceSamples := [] |};
           {| Start := 0; End_ := 5; Weight := 0; SliceSamples := [1] |} ] /\
    Quantile s' (F64.of_int 0) = Ok (0, []) /\
    Merge_specified NewSummary summary_five zero_draw = Ok s'' /\
    data s'' = Some sl'' /\ N s'' = 1 /\
    entries sl'' = Ok [entry_five] /\
    BySlices s'' =
      Ok [ {| Start := 0; End_ := 5; Weight := 0; SliceSamples := [1] |} ] /\
    Quantile s'' (F64.of_int 0) = Ok (5, [1]) /\
    observables s' <> observables s''.
Proof.
  split; [ reflexivity | ]. split; [ reflexivity | ]. split; [ evaluate | ].
  eexists _, _, _, _.
  split; [ evaluate | ]. split; [ reflexivity | ]. split; [ reflexivity | ].
  split; [ evaluate | ]. split; [ evaluate | ]. split; [ evaluate | ].
  split; [ evaluate | ]. split; [ reflexivity | ]. split; [ reflexivity | ].
  split; [ evaluate | ]. split; [ evaluate | ]. split; [ evaluate | ].
  vm_compute. discriminate.
Qed.

(** ** Serialisation *)

Section RoundTrip.
Context {payload error : Type}.
Variable json_Marshal : list Entry -> Z -> payload.
Variable json_Unmarshal : payload -> list Entry * Z * option error.
Hypothesis json_round_trip : forall d n, json_Unmarshal (json_Marshal d n) = (d, n, None).

(** C2 (fails on this summary): with a JSON library that gives back what
    it was given, decoding the encoding of the summary made by
    [Insert(5, 1)] yields a summary with one tuple more, the zero tuple
    of the head node, which MarshalJSON has written out with the data:
    [BySlices] has a slice more and [Quantile(0)] is 0 instead of 5. *)
Theorem json_round_trip_adds_head_tuple (receiver : Summary) :
  exists b s',
    insert_stream NewSummary [(5, 1, 0)] = Ok summary_five /\
    MarshalJSON (error := error) json_Marshal summary_five = Ok (b, None) /\
    UnmarshalJSON json_Unmarshal receiver b zero_draw = Ok (s', None) /\
    N s' = N summary_five /\
    BySlices summary_five =
      Ok [ {| Start := 0; End_ := 5; Weight := 0; SliceSamples := [1] |} ] /\
    BySlices s' =
      Ok [ {| Start := 0; End_ := 0; Weight := -1; SliceSamples := [] |};
           {| Start := 0; End_ := 5; Weight := 0; SliceSamples := [1] |} ] /\
    Quantile summary_five (F64.of_int 0) = Ok (5, [1]) /\
    Quantile s' (F64.of_int 0) = Ok (0, []) /\
    observables s' <> observables summary_five.
Proof.
  eexists _, _.
  split; [ evaluate | ].
  split; [ evaluate | ].
  split.
  { unfold UnmarshalJSON. rewrite json_round_trip. evaluate. }
  repeat (split; [ evaluate | ]).
  vm_compute. discriminate.
Qed.
End RoundTrip.

(** C2 with the codec that carries the payload as it is. *)
Lemma json_round_trip_adds_head_tuple_witness :
  exists b s',
    insert_stream NewSummary [(5, 1, 0)] = Ok summary_five /\
    MarshalJSON (error := unit) plain_encode summary_five = Ok (b, None) /\
    UnmarshalJSON plain_decode NewSummary b zero_draw = Ok (s', None) /\
    N s' = N summary_five /\
    BySlices summary_five =
      Ok [ {| Start := 0; End_ := 5; Weight := 0; SliceSamples := [1] |} ] /\
    BySlices s' =
      Ok [ {| Start := 0; End_ := 0; Weight := -1; SliceSamples := [] |};
           {| Start := 0; End_ := 5; Weight := 0; SliceSamples := [1] |} ] /\
    Quantile summary_five (F64.of_int 0) = Ok (5, [1]) /\
    Quantile s' (F64.of_int 0) = Ok (0, []) /\
    observables s' <> observables summary_five.
Proof.
  apply (json_round_trip_adds_head_tuple plain_encode plain_decode).
  intros d n. reflexivity.
Defined.

Section DecodeFailure.
Context {payload error : Type}.
Variable json_Unmarshal : payload -> list Entry * Z * option error.
Variable gob_Decode : payload -> list Entry * Z * option error.

(** C7: when the decoder reports an error on the payload [b], in the
    text format or in the binary one, the call returns that very error
    and the receiver is the summary it was before the call, whatever the
    decoder had filled in: [N], the skiplist, the quantiles and
    [BySlices] are those of before. *)
Theorem decode_failure_leaves_receiver (s : Summary) (b : payload) (draws : nat -> Z) :
  (forall enc n err, json_Unmarshal b = (enc, n, Some err) ->
     UnmarshalJSON json_Unmarshal s b draws = Ok (s, Some err)) /\
  (forall enc n err, gob_Decode b = (enc, n, Some err) ->
     GobDecode gob_Decode s b draws = Ok (s, Some err)).
Proof.
  split; intros enc n err Hdec.
  - unfold UnmarshalJSON. rewrite Hdec. reflexivity.
  - unfold GobDecode. rewrite Hdec. reflexivity.
Qed.
End DecodeFailure.

(** C7 on the malformed payload of the plain codec, for a receiver that
    holds a tuple. *)
Lemma decode_failure_leaves_receiver_witness :
  UnmarshalJSON plain_decode summary_five None zero_draw = Ok (summary_five, Some tt) /\
  GobDecode plain_decode summary_five None zero_draw = Ok (summary_five, Some tt).
Proof.
  destruct (decode_failure_leaves_receiver plain_decode plain_decode summary_five None zero_draw)
    as [Hjson Hgob].
  split.
  - apply (Hjson [] 0 tt). reflexivity.
  - apply (Hgob [] 0 tt). reflexivity.
Defined.

(** ** The sampler *)

Lemma index_in_range {A} (l : list A) (i : nat) :
  (i < length l)%nat -> exists x, index l i = Ok x.
Proof.
  intros Hi. unfold index.
  destruct (lookup_lt_is_Some_2 l i Hi) as [x ->]. now exists x.
Qed.

Lemma assign_in_range {A} (l : list A) (i : nat) (x : A) :
  (i < length l)%nat -> assign l i x = Ok (<[i:=x]> l).
Proof. intros Hi. unfold assign. now rewrite decide_True. Qed.

Lemma index_int_in_range {A} (l : list A) (z : Z) :
  0 <= z < Z.of_nat (length l) -> exists x, index_int l z = Ok x.
Proof.
  intros Hz. unfold index_int.
  destruct (Z.ltb_spec z 0); [ lia | ].
  apply index_in_range. lia.
Qed.

Lemma getRoot_loop_ok (trace : Trace) (k : nat) :
  (k <= length trace)%nat -> exists found, getRoot_loop k trace = Ok found.
Proof.
  induction k as [|k IH]; intros Hk; simpl getRoot_loop.
  - now exists None.
  - destruct (index_int_in_range trace
                (Z.of_nat (length trace) - 1 - (Z.of_nat (length trace) - Z.of_nat (S k))))
      as [sp ->]; [ lia | ].
    simpl. destruct (ParentID sp =? 0); [ now exists (Some sp) | apply IH; lia ].
Qed.

Lemma getRoot_ok (trace : Trace) : trace <> [] -> exists root, getRoot trace = Ok root.
Proof.
  intros Hne. unfold getRoot.
  destruct (getRoot_loop_ok trace (length trace)) as [found ->]; [ lia | ].
  simpl. destruct found as [sp|]; [ now exists sp | ].
  apply index_int_in_range. destruct trace; [ contradiction | simpl; lia ].
Qed.

Lemma SortHashes_length (hs : list Z) : length (SortHashes hs) = length hs.
Proof. unfold SortHashes. now rewrite merge_sort_Permutation. Qed.

(** The write index of the dedupe loop never passes the read index. *)
Lemma dedupe_ok (k : nat) : forall hs last idx i,
  (idx <= i)%nat -> (i + k = length hs)%nat ->
  exists hs' idx', dedupe k hs last idx i = Ok (hs', idx') /\
                   length hs' = length hs /\ (idx' <= length hs)%nat.
Proof.
  induction k as [|k IH]; intros hs last idx i Hidx Hlen; simpl dedupe.
  - exists hs, idx. repeat split; lia.
  - destruct (index_in_range hs i) as [x ->]; [ lia | ]. simpl.
    destruct (decide (x = last)).
    + apply IH; lia.
    + rewrite assign_in_range by lia. simpl.
      destruct (IH (<[idx:=x]> hs) x (S idx) (S i)) as (hs' & idx' & -> & Hl & Hi);
        [ lia | rewrite length_insert; lia | ].
      rewrite length_insert in Hl, Hi. exists hs', idx'. repeat split; lia.
Qed.

Lemma xor_all_ok (k : nat) : forall hs i h,
  (i + k <= length hs)%nat -> exists sig, xor_all k hs i h = Ok sig.
Proof.
  induction k as [|k IH]; intros hs i h Hlen; simpl xor_all.
  - now exists h.
  - destruct (index_in_range hs i) as [x ->]; [ lia | ]. simpl. apply IH. lia.
Qed.

Lemma ComputeSignature_ok (trace : Trace) :
  trace <> [] -> exists sig, ComputeSignature trace = Ok sig.
Proof.
  intros Hne. unfold ComputeSignature.
  destruct (getRoot_ok trace Hne) as [root ->]. simpl.
  set (hs := SortHashes _).
  assert (Hlen : (2 <= length hs)%nat).
  { subst hs. rewrite SortHashes_length, length_app, length_replicate, length_map.
    destruct trace; [ contradiction | simpl; lia ]. }
  destruct (index_in_range hs 0) as [last ->]; [ lia | ]. simpl.
  destruct (dedupe_ok (length hs - 1) hs last 1 1) as (hs' & idx & -> & Hl & Hi);
    [ lia | lia | ].
  simpl. apply xor_all_ok. lia.
Qed.

Lemma AddTrace_ok {F : Type} `{Float64 F}
    (s : SignatureSampler F) (trace : Trace) (env : Env F) :
  trace <> [] -> exists s', AddTrace s trace env = Ok s'.
Proof.
  intros Hne. unfold AddTrace.
  destruct (ComputeSignature_ok trace Hne) as [sig ->].
  destruct trace as [|sp rest]; [ contradiction | ].
  eexists. reflexivity.
Qed.

Lemma AddTraces_ok {F : Type} `{Float64 F} (calls : list (Trace * Env F)) :
  forall s : SignatureSampler F,
    Forall (fun call => fst call <> []) calls -> exists s1, AddTraces s calls = Ok s1.
Proof.
  induction calls as [|[trace env] rest IH]; intros s Hall; simpl.
  - now exists s.
  - inversion Hall as [|? ? Hne Hrest]; subst.
    destruct (AddTrace_ok s trace env Hne) as [s' ->]. simpl. now apply IH.
Qed.

(** C5 (fails on the empty trace): [getRoot] reads [trace[len(trace)-1]]
    and [ComputeSignature] reads [spanHashes[0]]; on the empty trace both
    are out of range, and so is AddTrace, which starts by computing the
    signature. *)
Lemma empty_trace_panics :
  getRoot [] = Panic IndexOutOfRange /\
  ComputeSignature [] = Panic IndexOutOfRange /\
  AddTrace (sampler64 1) [] env64 = Panic IndexOutOfRange /\
  ~ is_Ok (AddTrace (sampler64 1) [] env64).
Proof.
  repeat split. intros [s' Hs']. discriminate Hs'.
Qed.

(** C5, amended: on every trace that has at least one span, [getRoot],
    [ComputeSignature] and AddTrace return normally, whatever the sampler
    and whatever the clock and the draw; Flush is total. *)
Theorem sampler_total_on_nonempty_traces (trace : Trace) :
  trace <> [] ->
  is_Ok (getRoot trace) /\
  is_Ok (ComputeSignature trace) /\
  forall F `(Float64 F) (s : SignatureSampler F) (env : Env F),
    is_Ok (AddTrace s trace env) /\
    exists samples s', Flush s = (samples, s').
Proof.
  intros Hne. split; [ exact (getRoot_ok trace Hne) | ].
  split; [ exact (ComputeSignature_ok trace Hne) | ].
  intros F HF s env. split.
  - exact (AddTrace_ok s trace env Hne).
  - eexists _, _. reflexivity.
Qed.

(** C5, amended, on a trace of two spans. *)
Lemma sampler_total_on_nonempty_traces_witness :
  is_Ok (getRoot [span_db; span_web]) /\
  is_Ok (ComputeSignature [span_db; span_web]) /\
  forall F `(Float64 F) (s : SignatureSampler F) (env : Env F),
    is_Ok (AddTrace s [span_db; span_web] env) /\
    exists samples s', Flush s = (samples, s').
Proof.
  apply (sampler_total_on_nonempty_traces [span_db; span_web]). discriminate.
Defined.

(** *** Order on binary64 *)

Lemma SFcompare_antisym (x y : spec_float) :
  SFcompare y x = match SFcompare x y with
                  | Some c => Some (CompOpp c)
                  | None => None
                  end.
Proof.
  destruct x as [sx|sx| |sx mx ex], y as [sy|sy| |sy my ey]; simpl;
    try reflexivity; try (destruct sx; reflexivity); try (destruct sy; reflexivity);
    try (destruct sx, sy; reflexivity).
  destruct sx, sy; try reflexivity.
  - rewrite (Z.compare_antisym ey ex). destruct (ey ?= ex); simpl; try reflexivity.
    rewrite (ZC4 my mx). now rewrite CompOpp_involutive.
  - rewrite (Z.compare_antisym ey ex). destruct (ey ?= ex); simpl; try reflexivity.
    now rewrite (ZC4 my mx).
Qed.

#[global] Instance binary64_order : Float64Order F64.float64.
Proof.
  intros x y. simpl. unfold SFleb, SFltb. rewrite (SFcompare_antisym x y).
  destruct (SFcompare x y) as [[| |]|]; simpl; congruence.
Qed.

#[global] Instance rounded_order `{Rounding} : Float64Order Q.
Proof. intros x y. simpl. intros ->. reflexivity. Qed.

(** *** Rejected traces and Flush *)

Section SamplerFacts.
Context {F : Type} `{Float64Order F}.

(** C10: when the score of a trace is at most [sMin], AddTrace returns
    the sampler it was given: nothing is appended to the buffer and no
    last-seen time is written, so every later time score is what it
    would have been without the call. *)
Theorem rejected_trace_leaves_sampler
    (s : SignatureSampler F) (trace : Trace) (env : Env F) (sig : Signature) :
  ComputeSignature trace = Ok sig ->
  f_le (GetScore s sig (clock_score env) (draw env)) (sMin s) = true ->
  AddTrace s trace env = Ok s.
Proof.
  intros Hsig Hle. unfold AddTrace. rewrite Hsig. simpl.
  rewrite (f_le_not_gt _ _ Hle).
  destruct trace as [|sp rest]; [ discriminate Hsig | reflexivity ].
Qed.

(** The buffer after a run of calls is the buffer before it followed by
    the traces the run has kept. *)
Lemma AddTraces_buffer (calls : list (Trace * Env F)) : forall s s1,
  AddTraces s calls = Ok s1 ->
  sampledTraces s1 = sampledTraces s ++ kept s calls.
Proof.
  induction calls as [|[trace env] rest IH]; intros s s1 Hrun; simpl in Hrun |- *.
  - injection Hrun as <-. now rewrite app_nil_r.
  - destruct (AddTrace s trace env) as [s'| |] eqn:Hadd; simpl in Hrun; try discriminate.
    unfold AddTrace in Hadd.
    destruct (ComputeSignature trace) as [sig| |]; simpl in Hadd; try discriminate.
    destruct (index trace 0) as [first| |]; simpl in Hadd; try discriminate.
    injection Hadd as <-.
    rewrite (IH _ _ Hrun).
    destruct (f_lt (sMin s) (GetScore s sig (clock_score env) (draw env))); simpl.
    + now rewrite <- app_assoc.
    + reflexivity.
Qed.

(** C9: Flush returns the buffer and leaves it empty, with the
    last-seen map and the settings as they were; after a Flush, a run of
    AddTrace calls on traces that have a span completes, and the next
    Flush returns exactly the traces that the run has kept, in the order
    of the calls, again leaving the buffer empty and the map as it is. *)
Theorem Flush_returns_traces_since_last_Flush
    (s : SignatureSampler F) (calls : list (Trace * Env F)) :
  Forall (fun call => fst call <> []) calls ->
  fst (Flush s) = sampledTraces s /\
  sampledTraces (snd (Flush s)) = [] /\
  lastTSBySignature (snd (Flush s)) = lastTSBySignature s /\
  exists s1,
    AddTraces (snd (Flush s)) calls = Ok s1 /\
    fst (Flush s1) = kept (snd (Flush s)) calls /\
    sampledTraces (snd (Flush s1)) = [] /\
    lastTSBySignature (snd (Flush s1)) = lastTSBySignature s1.
Proof.
  intros Hne. repeat split.
  destruct (AddTraces_ok calls (snd (Flush s)) Hne) as [s1 Hrun].
  exists s1. repeat split; [ exact Hrun | ].
  simpl. now rewrite (AddTraces_buffer _ _ _ Hrun).
Qed.
End SamplerFacts.

(** C10 on binary64: with [sMin = 10] the new trace scores 6.25 and is
    dropped. *)
Lemma rejected_trace_leaves_sampler_witness :
  AddTrace (sampler64 10) [span_web] env64 = Ok (sampler64 10).
Proof.
  eapply rejected_trace_leaves_sampler.
  - evaluate.
  - evaluate.
Defined.

(** C9 on three calls: the two traces kept come back, in order. *)
Lemma Flush_returns_traces_since_last_Flush_witness :
  exists s1,
    AddTraces (snd (Flush (sampler64 1))) three_calls = Ok s1 /\
    fst (Flush s1) = [[span_web]; [span_db; span_web]] /\
    sampledTraces (snd (Flush s1)) = [] /\
    lastTSBySignature (snd (Flush s1)) = lastTSBySignature s1.
Proof.
  destruct (Flush_returns_traces_since_last_Flush (sampler64 1) three_calls)
    as (_ & _ & _ & s1 & Hrun & Hkept & Hempty & Hmap).
  - repeat constructor; discriminate.
  - exists s1. split; [ exact Hrun | ].
    split; [ | split; [ exact Hempty | exact Hmap ] ].
    rewrite Hkept. evaluate.
Defined.

(** *** The fixed-point rounding is a rounding *)

Lemma round_to_steps_nonneg (k : positive) (x : Q) :
  0 <= Qfloor (Qabs x * inject_Z (Zpos k) + (1 # 2))%Q.
Proof.
  change 0 with (Qfloor 0). apply Qfloor_resp_le.
  pose proof (Qabs_nonneg x) as Hx.
  assert (Hk : (0 < inject_Z (Z.pos k))%Q) by (unfold Qlt; simpl; lia).
  nra.
Qed.

Lemma Qmake_le (a b : Z) (k : positive) : a <= b -> (a # k <= b # k)%Q.
Proof. intros Hab. unfold Qle. simpl. nia. Qed.

Lemma round_to_mono (k : positive) (x y : Q) :
  (x <= y)%Q -> (round_to k x <= round_to k y)%Q.
Proof.
  intros Hxy. unfold round_to.
  assert (Hk : (0 < inject_Z (Z.pos k))%Q) by (unfold Qlt; simpl; lia).
  pose proof (round_to_steps_nonneg k x) as Hnx.
  pose proof (round_to_steps_nonneg k y) as Hny.
  destruct (Qle_bool 0 x) eqn:Hx, (Qle_bool 0 y) eqn:Hy.
  - apply Qle_bool_iff in Hx, Hy. apply Qmake_le, Qfloor_resp_le.
    rewrite (Qabs_pos x Hx), (Qabs_pos y Hy). nra.
  - apply Qle_bool_iff in Hx.
    assert (~ (0 <= y)%Q) by (rewrite <- Qle_bool_iff; congruence). lra.
  - apply Qle_trans with (0 # k)%Q; apply Qmake_le; lia.
  - assert (Hx' : ~ (0 <= x)%Q) by (rewrite <- Qle_bool_iff; congruence).
    assert (Hy' : ~ (0 <= y)%Q) by (rewrite <- Qle_bool_iff; congruence).
    apply Qmake_le. apply Z.opp_le_mono. rewrite !Z.opp_involutive.
    apply Qfloor_resp_le.
    rewrite (Qabs_neg x), (Qabs_neg y) by lra. nra.
Qed.

Lemma Qfloor_half (m : Z) : Qfloor (inject_Z m + (1 # 2))%Q = m.
Proof.
  pose proof (Qfloor_le (inject_Z m + (1 # 2))%Q) as Hlo.
  pose proof (Qlt_floor (inject_Z m + (1 # 2))%Q) as Hhi.
  remember (Qfloor (inject_Z m + (1 # 2))%Q) as f eqn:Hf. clear Hf.
  unfold Qle, Qlt in Hlo, Hhi. simpl in Hlo, Hhi. lia.
Qed.

Lemma round_to_int (k : positive) (n : Z) : (round_to k (inject_Z n) == inject_Z n)%Q.
Proof.
  unfold round_to.
  assert (Habs : (Qabs (inject_Z n) * inject_Z (Z.pos k) == inject_Z (Z.abs n * Z.pos k))%Q).
  { rewrite inject_Z_mult. unfold Qabs, inject_Z. simpl. reflexivity. }
  rewrite (Qfloor_comp _ _ (Qplus_comp _ _ Habs _ _ (Qeq_refl _))), Qfloor_half.
  destruct (Qle_bool 0 (inject_Z n)) eqn:Hn.
  - apply Qle_bool_iff in Hn. unfold Qle in Hn. simpl in Hn.
    unfold Qeq. simpl. nia.
  - assert (Hn' : ~ (0 <= inject_Z n)%Q) by (rewrite <- Qle_bool_iff; congruence).
    unfold Qle in Hn'. simpl in Hn'. unfold Qeq. simpl. nia.
Qed.

Lemma round_to_opp (k : positive) (x : Q) : (round_to k (- x) == - round_to k x)%Q.
Proof.
  unfold round_to.
  rewrite (Qfloor_comp _ _
             (Qplus_comp _ _ (Qmult_comp _ _ (Qabs_opp x) _ _ (Qeq_refl _)) _ _ (Qeq_refl _))).
  set (n := Qfloor _).
  destruct (Qle_bool 0 x) eqn:Hx, (Qle_bool 0 (- x)) eqn:Hox.
  - apply Qle_bool_iff in Hx, Hox.
    assert (Hx0 : (x == 0)%Q) by lra.
    assert (Hn : n = 0).
    { subst n. rewrite (Qfloor_comp _ (0 * inject_Z (Z.pos k) + (1 # 2))%Q).
      - reflexivity.
      - rewrite Hx0. reflexivity. }
    rewrite Hn. reflexivity.
  - reflexivity.
  - unfold Qeq. simpl. lia.
  - assert (~ (0 <= x)%Q) by (rewrite <- Qle_bool_iff; congruence).
    assert (~ (0 <= - x)%Q) by (rewrite <- Qle_bool_iff; congruence). lra.
Qed.

(** *** First observation of a signature *)

(** A signature that is not in the last-seen map scores exactly 5, on
    every float64. *)
Lemma GetTimeScore_unseen {F : Type} `{Float64 F}
    (s : SignatureSampler F) (sig : Signature) (now : Z) :
  lastTSBySignature s !! sig = None -> GetTimeScore s sig now = f_of_int 5.
Proof. intros Hnew. unfold GetTimeScore. now rewrite Hnew. Qed.

Section RoundingModel.
(** float64 arithmetic as exact arithmetic followed by a rounding
    [rnd] that is monotone, symmetric, and leaves small integers alone,
    as rounding to nearest does as long as nothing overflows; a
    rational [x] is a float64 when [rnd x == x]. *)
Context {R : Rounding}.
Hypothesis rnd_mono : forall x y, (x <= y)%Q -> (rnd x <= rnd y)%Q.
Hypothesis rnd_int : forall n : Z, Z.abs n <= 2^53 -> (rnd (inject_Z n) == inject_Z n)%Q.
Hypothesis rnd_opp : forall x, (rnd (- x) == - rnd x)%Q.

Lemma rnd_small (n : Z) : Z.abs n <= 5 -> (rnd (inject_Z n) == inject_Z n)%Q.
Proof. intros Hn. apply rnd_int. lia. Qed.

(** The jitter factor is smallest when the draw is largest. *)
Lemma score_lower_bound (j u : Q) :
  (rnd j == j)%Q -> (0 <= j)%Q -> (u < 1)%Q ->
  (rnd (rnd 5 * rnd (rnd 1 - j)) <=
   rnd (rnd 5 * rnd (rnd 1 + rnd (j * rnd (rnd 1 - rnd (rnd 2 * u))))))%Q.
Proof.
  intros Hj Hj0 Hu.
  pose proof (rnd_small 1 ltac:(lia)) as H1.
  pose proof (rnd_small 2 ltac:(lia)) as H2.
  pose proof (rnd_small 5 ltac:(lia)) as H5.
  pose proof (rnd_small (-1) ltac:(lia)) as Hm1.
  change (inject_Z 1) with 1%Q in H1. change (inject_Z 2) with 2%Q in H2.
  change (inject_Z 5) with 5%Q in H5. change (inject_Z (-1)) with (-1)%Q in Hm1.
  assert (Ha : (rnd (rnd 2 * u) <= rnd 2)%Q) by (apply rnd_mono; nra).
  assert (Hb : (rnd (-1) <= rnd (rnd 1 - rnd (rnd 2 * u)))%Q) by (apply rnd_mono; lra).
  assert (Hc : (rnd (- j) <= rnd (j * rnd (rnd 1 - rnd (rnd 2 * u))))%Q)
    by (apply rnd_mono; nra).
  pose proof (rnd_opp j) as Hoj.
  assert (Hd : (rnd (rnd 1 - j) <= rnd (rnd 1 + rnd (j * rnd (rnd 1 - rnd (rnd 2 * u)))))%Q)
    by (apply rnd_mono; lra).
  apply rnd_mono. nra.
Qed.

(** C8, amended: a signature that is not in the last-seen map has time
    score exactly 5; with a float64 [jitter] in [0, 1], a draw in [0, 1)
    and [sMin] under [5 * (1 - jitter)], that bound computed in float64 as
    the score is, the score [5 * (1 + jitter * (1 - 2*u))] is over [sMin],
    and AddTrace keeps the trace and records its signature. *)
Theorem first_seen_is_sampled
    (s : SignatureSampler Q) (trace : Trace) (env : Env Q) (sig : Signature) :
  ComputeSignature trace = Ok sig ->
  lastTSBySignature s !! sig = None ->
  (rnd (jitter s) == jitter s)%Q ->
  (0 <= jitter s)%Q -> (jitter s <= 1)%Q ->
  (0 <= draw env)%Q -> (draw env < 1)%Q ->
  (sMin s < f_mul (f_of_int 5) (f_sub (f_of_int 1) (jitter s)))%Q ->
  GetTimeScore s sig (clock_score env) = f_of_int 5 /\
  (sMin s < GetScore s sig (clock_score env) (draw env))%Q /\
  exists s', AddTrace s trace env = Ok s' /\
             sampledTraces s' = sampledTraces s ++ [trace] /\
             lastTSBySignature s' !! sig = Some (seconds (clock_keep env)).
Proof.
  intros Hsig Hnew Hfl Hj0 Hj1 Hu0 Hu1 Hmin.
  assert (Hscore : (sMin s < GetScore s sig (clock_score env) (draw env))%Q).
  { unfold GetScore. rewrite (GetTimeScore_unseen s sig _ Hnew).
    eapply Qlt_le_trans; [ exact Hmin | ].
    exact (score_lower_bound (jitter s) (draw env) Hfl Hj0 Hu1). }
  split; [ exact (GetTimeScore_unseen s sig _ Hnew) | ].
  split; [ exact Hscore | ].
  destruct trace as [|sp rest]; [ discriminate Hsig | ].
  unfold AddTrace. rewrite Hsig.
  change (Ok sig ≫= ?f) with (f sig). cbv beta.
  assert (Hgt : f_lt (sMin s) (GetScore s sig (clock_score env) (draw env)) = true).
  { change (negb (Qle_bool (GetScore s sig (clock_score env) (draw env)) (sMin s)) = true).
    apply negb_true_iff, not_true_is_false. rewrite Qle_bool_iff. now apply Qlt_not_le. }
  rewrite Hgt.
  eexists. split; [ reflexivity | ]. split; [ reflexivity | ].
  simpl. apply lookup_insert_eq.
Qed.
End RoundingModel.

(** C8, amended, in fixed-point arithmetic with 10 binary digits: a new
    trace is kept by a sampler with [sMin = 2] and [jitter = 1/2]. *)
Lemma first_seen_is_sampled_witness :
  exists s', AddTrace (H := @rounded (fixed_point 1024)) samplerQ [span_web] envQ = Ok s' /\
             sampledTraces s' = [[span_web]].
Proof.
  destruct (first_seen_is_sampled (R := fixed_point 1024)
              (round_to_mono 1024) (fun n _ => round_to_int 1024 n) (round_to_opp 1024)
              samplerQ [span_web] envQ 4096983264)
    as (_ & _ & s' & Hadd & Hbuf & _).
  - evaluate.
  - reflexivity.
  - evaluate.
  - vm_compute. discriminate.
  - vm_compute. discriminate.
  - vm_compute. discriminate.
  - evaluate.
  - evaluate.
  - exists s'. split; [ exact Hadd | exact Hbuf ].
Defined.

(** C8 (fails on this input, by one rounding): on bit-exact binary64 take
    [jitter = 3 * 2^-55], the draw [1 - 2^-53] and [sMin = 5 - 2^-50].
    Jitter and draw are in range and [sMin < 5 * (1 - jitter)] holds in
    exact arithmetic, but the score of a new signature, computed in
    float64, is [5 - 2^-50] itself, which is also what [5 * (1 - jitter)]
    is in float64: the score is not over [sMin] and AddTrace leaves the
    sampler as it was. *)
Lemma first_seen_dropped_at_rounding_edge :
  (0 <= F64.to_Q edge_jitter <= 1)%Q /\
  (0 <= F64.to_Q edge_draw < 1)%Q /\
  (F64.to_Q edge_sMin < 5 * (1 - F64.to_Q edge_jitter))%Q /\
  ComputeSignature [span_web] = Ok 4096983264 /\
  lastTSBySignature edge_sampler !! 4096983264 = None /\
  GetTimeScore edge_sampler 4096983264 1000000000 = F64.of_int 5 /\
  GetScore edge_sampler 4096983264 1000000000 edge_draw = edge_sMin /\
  f_mul (f_of_int 5) (f_sub (f_of_int 1) edge_jitter) = edge_sMin /\
  f_lt (sMin edge_sampler) (GetScore edge_sampler 4096983264 1000000000 edge_draw) = false /\
  AddTrace edge_sampler [span_web] edge_env = Ok edge_sampler.
Proof.
  split; [ split; vm_compute; discriminate | ].
  split; [ split; [ vm_compute; discriminate | evaluate ] | ].
  split; [ evaluate | ].
  repeat split; evaluate.
Qed.

(** * More properties

    ** The level loop of Insert *)

(** The level loop on a draw under [2^f - 1] ends within [f + 1] rounds,
    below level [f]. *)
Lemma trailing_ones_total (f : nat) : forall n level,
  0 <= n < 2 ^ Z.of_nat f - 1 ->
  exists drawn, trailing_ones (S f) n level = Ok drawn /\ (level <= drawn < level + f)%nat.
Proof.
  induction f as [|f IH]; intros n level Hn.
  - simpl in Hn. lia.
  - cbn [trailing_ones].
    destruct (Z.eqb_spec (Z.land n 1) 1) as [Hodd|Heven].
    + destruct (IH (Z.shiftr n 1) (S level)) as (d & Hd & Hb).
      * rewrite Z.shiftr_div_pow2 by lia. change (2 ^ 1) with 2.
        assert (Hbit : n mod 2 = 1).
        { change 1 with (Z.ones 1) in Hodd at 1. rewrite Z.land_ones in Hodd by lia. exact Hodd. }
        rewrite Nat2Z.inj_succ, Z.pow_succ_r in Hn by lia.
        pose proof (Z.div_mod n 2 ltac:(lia)) as Hdm.
        split; [ apply Z.div_pos; lia | ]. lia.
      * exists d. split; [ exact Hd | lia ].
    + exists level. split; [ reflexivity | lia ].
Qed.

(** What the loop returns is the number of trailing one bits. *)
Lemma trailing_ones_bits (fuel : nat) : forall n level drawn,
  trailing_ones fuel n level = Ok drawn ->
  (level <= drawn)%nat /\
  Z.testbit n (Z.of_nat (drawn - level)) = false /\
  forall i, (i < drawn - level)%nat -> Z.testbit n (Z.of_nat i) = true.
Proof.
  induction fuel as [|fuel IH]; intros n level drawn Hrun; cbn [trailing_ones] in Hrun;
    [ discriminate | ].
  destruct (Z.eqb_spec (Z.land n 1) 1) as [Hodd|Heven].
  - apply IH in Hrun. destruct Hrun as (Hle & Hstop & Hones).
    assert (Hb0 : Z.testbit n 0 = true).
    { rewrite Z.bit0_odd. change 1 with (Z.ones 1) in Hodd at 1.
      rewrite Z.land_ones in Hodd by lia. rewrite Zodd_mod. apply Z.eqb_eq. exact Hodd. }
    split; [ lia | ]. split.
    + rewrite Z.shiftr_spec in Hstop by lia.
      replace (Z.of_nat (drawn - level)) with (Z.of_nat (drawn - S level) + 1) by lia. exact Hstop.
    + intros i Hi. destruct i as [|i]; [ exact Hb0 | ].
      specialize (Hones i ltac:(lia)). rewrite Z.shiftr_spec in Hones by lia.
      replace (Z.of_nat (S i)) with (Z.of_nat i + 1) by lia. exact Hones.
  - injection Hrun as <-. replace (level - level)%nat with 0%nat by lia.
    split; [ lia | ]. split; [ | intros i Hi; lia ].
    rewrite Z.bit0_odd. change 1 with (Z.ones 1) in Heven at 1.
    rewrite Z.land_ones in Heven by lia. rewrite Zodd_mod.
    apply Z.eqb_neq. exact Heven.
Qed.

(** ** The skiplist: one assignment *)

Lemma same_but_refl j h : same_but j h h.
Proof. split; auto. Qed.

Lemma same_but_trans j h1 h2 h3 : same_but j h1 h2 -> same_but j h2 h3 -> same_but j h1 h3.
Proof.
  intros H1 H2. split; intros.
  - rewrite (ao_length _ _ _ H2). apply (ao_length _ _ _ H1).
  - rewrite (ao_val _ _ _ H2). apply (ao_val _ _ _ H1).
  - rewrite (ao_nlen _ _ _ H2). apply (ao_nlen _ _ _ H1).
  - rewrite (ao_plen _ _ _ H2). apply (ao_plen _ _ _ H1).
  - rewrite (ao_next _ _ _ H2) by assumption. now apply (ao_next _ _ _ H1).
  - rewrite (ao_prev _ _ _ H2) by assumption. now apply (ao_prev _ _ _ H1).
Qed.

Lemma get_next_Ok h a j : (j < nlen h a)%nat <-> exists p, get_next h a j = Ok p.
Proof.
  unfold nlen, get_next, load. destruct (h !! a) as [n|]; cbn [mbind res_bind].
  - unfold index. split.
    + intros Hj. destruct (lookup_lt_is_Some_2 _ _ Hj) as [p ->]. eauto.
    + intros [p Hp]. destruct (next n !! j) eqn:E; [ | discriminate ].
      apply lookup_lt_Some in E. exact E.
  - split; [ lia | intros [p Hp]; discriminate ].
Qed.

Lemma get_prev_Ok h a j : (j < plen h a)%nat <-> exists p, get_prev h a j = Ok p.
Proof.
  unfold plen, get_prev, load. destruct (h !! a) as [n|]; cbn [mbind res_bind].
  - unfold index. split.
    + intros Hj. destruct (lookup_lt_is_Some_2 _ _ Hj) as [p ->]. eauto.
    + intros [p Hp]. destruct (prev n !! j) eqn:E; [ | discriminate ].
      apply lookup_lt_Some in E. exact E.
  - split; [ lia | intros [p Hp]; discriminate ].
Qed.

Lemma nlen_valid h a : (0 < nlen h a)%nat -> (a < length h)%nat.
Proof.
  unfold nlen. destruct (h !! a) eqn:E; [ intros _; now apply lookup_lt_Some in E | lia ].
Qed.

Lemma index_insert {A} (l : list A) (i i' : nat) (x : A) :
  (i < length l)%nat ->
  index (<[i:=x]> l) i' = if decide (i' = i) then Ok x else index l i'.
Proof.
  intros Hi. unfold index. destruct (decide (i' = i)) as [->|Hne].
  - now rewrite list_lookup_insert_eq.
  - now rewrite list_lookup_insert_ne.
Qed.

Ltac obs := unfold val, nlen, plen, get_next, get_prev, load in *; unfold store in *.

Lemma store_lookup_insert (h : list SkiplistNode) (a a' : nat) (n : SkiplistNode) :
  (a < length h)%nat ->
  <[a:=n]> h !! a' = if decide (a' = a) then Some n else h !! a'.
Proof.
  intros Hlt. destruct (decide (a' = a)) as [->|Hne];
    [ now rewrite list_lookup_insert_eq | now rewrite list_lookup_insert_ne ].
Qed.

(** [a.next[j] = p] *)
Lemma set_next_spec h a j p :
  (j < nlen h a)%nat ->
  exists h', set_next h a j p = Ok h' /\ same_but j h h' /\
    get_next h' a j = Ok p /\
    (forall a', a' <> a -> get_next h' a' j = get_next h a' j) /\
    (forall a', get_prev h' a' j = get_prev h a' j).
Proof.
  intros Hj. unfold set_next. obs.
  destruct (h !! a) as [n|] eqn:Ha; [ | lia ]. cbn [mbind res_bind].
  unfold assign. rewrite decide_True by exact Hj. cbn [mbind res_bind].
  pose proof (lookup_lt_Some _ _ _ Ha) as Hlt.
  eexists. split; [ reflexivity | ].
  split; [ split | split; [ | split ] ]; obs; intros;
    rewrite ?store_lookup_insert by exact Hlt;
    try (apply length_insert);
    try (match goal with |- context [decide (?x = a)] =>
           destruct (decide (x = a)) as [->|]; [ rewrite Ha | reflexivity ] end);
    rewrite ?decide_True by reflexivity; rewrite ?decide_False by assumption;
    cbn [mbind res_bind next prev value fmap option_fmap option_map];
    rewrite ?index_insert by exact Hj;
    rewrite ?decide_True by reflexivity; rewrite ?decide_False by assumption;
    rewrite ?length_insert; try reflexivity; try congruence.
Qed.

(** [a.prev[j] = p] *)
Lemma set_prev_spec h a j p :
  (j < plen h a)%nat ->
  exists h', set_prev h a j p = Ok h' /\ same_but j h h' /\
    get_prev h' a j = Ok p /\
    (forall a', a' <> a -> get_prev h' a' j = get_prev h a' j) /\
    (forall a', get_next h' a' j = get_next h a' j).
Proof.
  intros Hj. unfold set_prev. obs.
  destruct (h !! a) as [n|] eqn:Ha; [ | lia ]. cbn [mbind res_bind].
  unfold assign. rewrite decide_True by exact Hj. cbn [mbind res_bind].
  pose proof (lookup_lt_Some _ _ _ Ha) as Hlt.
  eexists. split; [ reflexivity | ].
  split; [ split | split; [ | split ] ]; obs; intros;
    rewrite ?store_lookup_insert by exact Hlt;
    try (apply length_insert);
    try (match goal with |- context [decide (?x = a)] =>
           destruct (decide (x = a)) as [->|]; [ rewrite Ha | reflexivity ] end);
    rewrite ?decide_True by reflexivity; rewrite ?decide_False by assumption;
    cbn [mbind res_bind next prev value fmap option_fmap option_map];
    rewrite ?index_insert by exact Hj;
    rewrite ?decide_True by reflexivity; rewrite ?decide_False by assumption;
    rewrite ?length_insert; try reflexivity; try congruence.
Qed.

(** [a.value = e] changes no pointer. *)
Lemma set_value_spec h a e :
  (a < length h)%nat ->
  exists h', set_value h a e = Ok h' /\
    length h' = length h /\
    val h' a = Some e /\
    (forall a', a' <> a -> val h' a' = val h a') /\
    (forall a', nlen h' a' = nlen h a') /\
    (forall a', plen h' a' = plen h a') /\
    (forall a' j, get_next h' a' j = get_next h a' j) /\
    (forall a' j, get_prev h' a' j = get_prev h a' j).
Proof.
  intros Hlt. unfold set_value. obs.
  destruct (lookup_lt_is_Some_2 _ _ Hlt) as [n Ha]. rewrite Ha. cbn [mbind res_bind].
  eexists. split; [ reflexivity | ].
  repeat split; obs; intros;
    rewrite ?store_lookup_insert by exact Hlt;
    try (apply length_insert);
    try (match goal with |- context [decide (?x = a)] =>
           destruct (decide (x = a)) as [->|]; [ rewrite Ha | reflexivity ] end);
    rewrite ?decide_True by reflexivity; rewrite ?decide_False by assumption;
    try reflexivity; try congruence.
Qed.

(** ** Chains as lists *)

Lemma lastd_cons p a l : lastd p (a :: l) = lastd a l.
Proof.
  unfold lastd. destruct l as [|b l]; [ reflexivity | ].
  rewrite last_cons_cons. revert b. induction l as [|c l IH]; intros b; [ reflexivity | ].
  rewrite last_cons_cons. apply IH.
Qed.

Lemma lastd_app p l a : lastd p (l ++ [a]) = a.
Proof. unfold lastd. now rewrite last_snoc. Qed.

Lemma lastd_in p l : lastd p l = p \/ lastd p l ∈ l.
Proof.
  revert p. induction l as [|a l IH]; intros p; [ now left | ].
  rewrite lastd_cons. right. destruct (IH a) as [->|Hin]; [ left | now right ].
Qed.

Lemma lseg_frame h h' j l : forall p q,
  (forall a, a ∈ p :: l -> get_next h' a j = get_next h a j) ->
  (forall a, a ∈ l -> get_prev h' a j = get_prev h a j) ->
  lseg h j p l q -> lseg h' j p l q.
Proof.
  induction l as [|a l IH]; intros p q Hn Hp; cbn [lseg].
  - rewrite Hn by (now left). auto.
  - intros (H1 & H2 & H3). rewrite Hn by (now left). rewrite Hp by (now left).
    split; [ exact H1 | ]. split; [ exact H2 | ].
    apply IH; [ | | exact H3 ].
    + intros b Hb. apply Hn. now right.
    + intros b Hb. apply Hp. now right.
Qed.

Lemma lseg_suffix h j l1 l2 : forall p q,
  lseg h j p (l1 ++ l2) q -> lseg h j (lastd p l1) l2 q.
Proof.
  induction l1 as [|a l1 IH]; intros p q; cbn [app lseg].
  - auto.
  - intros (_ & _ & H3). rewrite lastd_cons. now apply IH.
Qed.

Lemma lseg_levels h j l : forall p q,
  lseg h j p l q ->
  (forall a, a ∈ p :: l -> (j < nlen h a)%nat) /\ (forall a, a ∈ l -> (j < plen h a)%nat).
Proof.
  induction l as [|a l IH]; intros p q; cbn [lseg].
  - intros Hq. split.
    + intros b Hb. apply list_elem_of_singleton in Hb as ->. apply get_next_Ok. eauto.
    + intros b Hb. inversion Hb.
  - intros (H1 & H2 & H3). destruct (IH _ _ H3) as [Hn Hp]. split.
    + intros b Hb. apply elem_of_cons in Hb as [->|Hb]; [ apply get_next_Ok; eauto | auto ].
    + intros b Hb. apply elem_of_cons in Hb as [->|Hb]; [ apply get_prev_Ok; eauto | auto ].
Qed.

(** The pointers around a node of a segment. *)
Lemma lseg_at h j l1 a l2 : forall p q,
  lseg h j p (l1 ++ a :: l2) q ->
  get_prev h a j = Ok (Some (lastd p l1)) /\
  get_next h a j = Ok (match l2 with b :: _ => Some b | [] => q end).
Proof.
  induction l1 as [|c l1 IH]; intros p q; cbn [app lseg].
  - intros (_ & H2 & H3). split; [ exact H2 | ].
    destruct l2 as [|b l2]; cbn [lseg] in H3; [ exact H3 | apply H3 ].
  - intros (_ & _ & H3). rewrite lastd_cons. now apply IH.
Qed.

(** Linking [node] after the last node of [p :: l1]. *)
Lemma lseg_insert h h' j node l1 l2 : forall p q,
  lseg h j p (l1 ++ l2) q ->
  NoDup (p :: l1 ++ l2) -> node ∉ p :: l1 ++ l2 ->
  get_next h' node j = Ok (match l2 with b :: _ => Some b | [] => q end) ->
  get_prev h' node j = Ok (Some (lastd p l1)) ->
  get_next h' (lastd p l1) j = Ok (Some node) ->
  (forall b l2', l2 = b :: l2' -> get_prev h' b j = Ok (Some node)) ->
  (forall a, a <> lastd p l1 -> a <> node -> get_next h' a j = get_next h a j) ->
  (forall a, a <> node -> (forall l2', l2 <> a :: l2') -> get_prev h' a j = get_prev h a j) ->
  lseg h' j p (l1 ++ node :: l2) q.
Proof.
  induction l1 as [|a l1 IH]; intros p q Hseg Hnd Hfresh F1 F2 F3 F4 F5 F6.
  - cbn [app] in *. unfold lastd in F2, F3, F5. cbn in F2, F3, F5.
    cbn [lseg]. split; [ exact F3 | ]. split; [ exact F2 | ].
    destruct l2 as [|b l2]; cbn [lseg] in Hseg |- *; [ exact F1 | ].
    destruct Hseg as (H1 & H2 & H3).
    split; [ exact F1 | ]. split; [ now apply (F4 b l2) | ].
    apply NoDup_cons in Hnd as [Hp Hnd]. apply NoDup_cons in Hnd as [Hb Hnd].
    apply (lseg_frame h); [ | | exact H3 ].
    + intros c Hc. apply F5.
      * intros ->. apply Hp. now right.
      * intros ->. apply Hfresh. now right.
    + intros c Hc. apply F6.
      * intros ->. apply Hfresh. right. now right.
      * intros l2' [= -> _]. contradiction.
  - cbn [app] in *. rewrite lastd_cons in F2, F3, F5. cbn [lseg] in Hseg |- *.
    destruct Hseg as (H1 & H2 & H3).
    pose proof Hnd as Hnd0.
    apply NoDup_cons in Hnd as [Hp Hnd].
    assert (Hpl : p <> lastd a l1).
    { intros ->. apply Hp. destruct (lastd_in a l1) as [->|Hin]; [ now left | ].
      right. apply elem_of_app. now left. }
    assert (Hpn : p <> node) by (intros ->; apply Hfresh; now left).
    rewrite (F5 p Hpl Hpn). split; [ exact H1 | ].
    rewrite F6.
    + split; [ exact H2 | ].
      apply IH; auto.
      intros Hin. apply Hfresh. now right.
    + intros ->. apply Hfresh. right. now left.
    + intros l2' ->.
      apply NoDup_cons in Hnd as [Ha _]. apply Ha. apply elem_of_app. right. now left.
Qed.

(** Unlinking the node [a]. *)
Lemma lseg_remove h h' j a l1 l2 : forall p q,
  lseg h j p (l1 ++ a :: l2) q ->
  NoDup (p :: l1 ++ a :: l2) ->
  get_next h' (lastd p l1) j = Ok (match l2 with b :: _ => Some b | [] => q end) ->
  (forall b l2', l2 = b :: l2' -> get_prev h' b j = Ok (Some (lastd p l1))) ->
  (forall c, c <> lastd p l1 -> c <> a -> get_next h' c j = get_next h c j) ->
  (forall c, c <> a -> (forall l2', l2 <> c :: l2') -> get_prev h' c j = get_prev h c j) ->
  lseg h' j p (l1 ++ l2) q.
Proof.
  induction l1 as [|c l1 IH]; intros p q Hseg Hnd F1 F2 F3 F4.
  - cbn [app] in *. unfold lastd in F1, F2, F3. cbn in F1, F2, F3.
    cbn [lseg] in Hseg. destruct Hseg as (H1 & H2 & H3).
    apply NoDup_cons in Hnd as [Hp Hnd]. apply NoDup_cons in Hnd as [Ha Hnd].
    destruct l2 as [|b l2]; cbn [lseg] in H3 |- *; [ exact F1 | ].
    destruct H3 as (H4 & H5 & H6).
    split; [ exact F1 | ]. split; [ now apply (F2 b l2) | ].
    apply NoDup_cons in Hnd as [Hb Hnd].
    apply (lseg_frame h); [ | | exact H6 ].
    + intros d Hd. apply F3.
      * intros ->. apply Hp. right. exact Hd.
      * intros ->. apply Ha. exact Hd.
    + intros d Hd. apply F4.
      * intros ->. apply Ha. now right.
      * intros l2' [= -> _]. contradiction.
  - cbn [app] in *. rewrite lastd_cons in F1, F2, F3. cbn [lseg] in Hseg |- *.
    destruct Hseg as (H1 & H2 & H3).
    apply NoDup_cons in Hnd as [Hp Hnd].
    assert (Hpl : p <> lastd c l1).
    { intros ->. apply Hp. destruct (lastd_in c l1) as [->|Hin]; [ now left | ].
      right. apply elem_of_app. now left. }
    assert (Hpa : p <> a).
    { intros ->. apply Hp. right. apply elem_of_app. right. now left. }
    rewrite (F3 p Hpl Hpa). split; [ exact H1 | ].
    pose proof Hnd as Hnd'. apply NoDup_cons in Hnd' as [Hc _].
    rewrite F4.
    + split; [ exact H2 | ]. apply IH; auto.
    + intros ->. apply Hc. apply elem_of_app. right. now left.
    + intros l2' ->.
      apply Hc. apply elem_of_app. right. right. now left.
Qed.

(** ** Linking and unlinking a node at one level *)

Ltac bind_ok H := rewrite H; change (Ok ?x ≫= ?f) with (f x); cbv beta.

(** The four assignments of Insert at one level. *)
Lemma link_spec h j node curr nxp :
  get_next h curr j = Ok nxp ->
  (j < nlen h node)%nat -> (j < plen h node)%nat ->
  node <> curr ->
  (forall b, nxp = Some b -> b <> node /\ exists c, get_prev h b j = Ok (Some c)) ->
  exists h', link h j node curr = Ok h' /\ same_but j h h' /\
    get_next h' node j = Ok nxp /\
    get_prev h' node j = Ok (Some curr) /\
    get_next h' curr j = Ok (Some node) /\
    (forall b, nxp = Some b -> get_prev h' b j = Ok (Some node)) /\
    (forall a, a <> curr -> a <> node -> get_next h' a j = get_next h a j) /\
    (forall a, a <> node -> nxp <> Some a -> get_prev h' a j = get_prev h a j).
Proof.
  intros Hcur Hn Hp Hne Hb.
  destruct (set_next_spec h node j nxp Hn) as (h1 & E1 & S1 & N1 & N1' & P1).
  assert (exists h2, match nxp with
                     | None => Ok h1
                     | Some a => pv ← get_prev h1 a j;
                                 match pv with None => Ok h1 | Some _ => set_prev h1 a j (Some node) end
                     end = Ok h2 /\ same_but j h1 h2 /\
            (forall b, nxp = Some b -> get_prev h2 b j = Ok (Some node)) /\
            (forall a, nxp <> Some a -> get_prev h2 a j = get_prev h1 a j) /\
            (forall a, get_next h2 a j = get_next h1 a j)) as (h2 & E2 & S2 & P2 & P2' & N2).
  { destruct nxp as [b|].
    - destruct (Hb b eq_refl) as (Hbn & c & Hc).
      assert (Hpl : (j < plen h1 b)%nat).
      { rewrite (ao_plen _ _ _ S1). apply get_prev_Ok. eauto. }
      destruct (set_prev_spec h1 b j (Some node) Hpl) as (h2 & E2 & S2 & P2 & P2' & N2).
      exists h2. rewrite P1, Hc. change (Ok ?x ≫= ?f) with (f x). cbv beta iota.
      split; [ exact E2 | ]. split; [ exact S2 | ]. split; [ | split ].
      + intros b' [= <-]. exact P2.
      + intros a Ha. apply P2'. congruence.
      + exact N2.
    - exists h1. split; [ reflexivity | ]. split; [ apply same_but_refl | ].
      split; [ discriminate | ]. split; reflexivity. }
  assert (Hn3 : (j < nlen h2 curr)%nat).
  { rewrite (ao_nlen _ _ _ S2), (ao_nlen _ _ _ S1). apply get_next_Ok. eauto. }
  destruct (set_next_spec h2 curr j (Some node) Hn3) as (h3 & E3 & S3 & N3 & N3' & P3).
  assert (Hp4 : (j < plen h3 node)%nat).
  { now rewrite (ao_plen _ _ _ S3), (ao_plen _ _ _ S2), (ao_plen _ _ _ S1). }
  destruct (set_prev_spec h3 node j (Some curr) Hp4) as (h4 & E4 & S4 & P4 & P4' & N4).
  exists h4. unfold link. bind_ok Hcur. bind_ok E1. bind_ok E2. bind_ok E3.
  split; [ exact E4 | ].
  split; [ eauto using same_but_trans | ].
  split; [ now rewrite N4, N3', N2 by assumption | ].
  split; [ exact P4 | ].
  split; [ now rewrite N4 | ].
  split; [ | split ].
  - intros b ->. destruct (Hb b eq_refl) as (Hbn & _).
    rewrite P4', P3 by assumption. now apply P2.
  - intros a Hac Han. now rewrite N4, N3', N2, N1' by assumption.
  - intros a Han Hab. now rewrite P4', P3, P2', P1 by assumption.
Qed.

(** One round of Remove, for a node that has a predecessor at level [j]. *)
Lemma unlink_spec h j a c nxp :
  get_prev h a j = Ok (Some c) ->
  get_next h a j = Ok nxp ->
  (j < nlen h c)%nat ->
  (forall b, nxp = Some b -> (j < plen h b)%nat) ->
  c <> a -> nxp <> Some a ->
  exists h', unlink h a j = Ok h' /\ same_but j h h' /\
    get_next h' c j = Ok nxp /\
    (forall b, nxp = Some b -> get_prev h' b j = Ok (Some c)) /\
    get_next h' a j = Ok None /\
    get_prev h' a j = Ok None /\
    (forall d, d <> c -> d <> a -> get_next h' d j = get_next h d j) /\
    (forall d, d <> a -> nxp <> Some d -> get_prev h' d j = get_prev h d j).
Proof.
  intros Hpv Hnx Hc Hb Hca Hba.
  destruct (set_next_spec h c j nxp Hc) as (h1 & E1 & S1 & N1 & N1' & P1).
  assert (exists h2, match nxp with
                     | Some b => set_prev h1 b j (Some c)
                     | None => Ok h1
                     end = Ok h2 /\ same_but j h1 h2 /\
            (forall b, nxp = Some b -> get_prev h2 b j = Ok (Some c)) /\
            (forall d, nxp <> Some d -> get_prev h2 d j = get_prev h1 d j) /\
            (forall d, get_next h2 d j = get_next h1 d j)) as (h2 & E2 & S2 & P2 & P2' & N2).
  { destruct nxp as [b|].
    - assert (Hpl : (j < plen h1 b)%nat) by (rewrite (ao_plen _ _ _ S1); auto).
      destruct (set_prev_spec h1 b j (Some c) Hpl) as (h2 & E2 & S2 & P2 & P2' & N2).
      exists h2. split; [ exact E2 | ]. split; [ exact S2 | ]. split; [ | split ].
      + intros b' [= <-]. exact P2.
      + intros d Hd. apply P2'. congruence.
      + exact N2.
    - exists h1. split; [ reflexivity | ]. split; [ apply same_but_refl | ].
      split; [ discriminate | ]. split; reflexivity. }
  assert (Hn3 : (j < nlen h2 a)%nat).
  { rewrite (ao_nlen _ _ _ S2), (ao_nlen _ _ _ S1). apply get_next_Ok. eauto. }
  destruct (set_next_spec h2 a j None Hn3) as (h3 & E3 & S3 & N3 & N3' & P3).
  assert (Hp4 : (j < plen h3 a)%nat).
  { rewrite (ao_plen _ _ _ S3), (ao_plen _ _ _ S2), (ao_plen _ _ _ S1). apply get_prev_Ok. eauto. }
  destruct (set_prev_spec h3 a j None Hp4) as (h4 & E4 & S4 & P4 & P4' & N4).
  exists h4. unfold unlink. bind_ok Hpv. bind_ok Hnx. cbv iota. bind_ok E1. bind_ok E2. bind_ok E3.
  split; [ exact E4 | ].
  split; [ eauto using same_but_trans | ].
  split; [ now rewrite N4, N3', N2 by assumption | ].
  split; [ | split; [ now rewrite N4 | split; [ exact P4 | split ] ] ].
  - intros b ->. rewrite P4', P3 by congruence. now apply P2.
  - intros d Hdc Hda. now rewrite N4, N3', N2, N1' by assumption.
  - intros d Hda Hdb. now rewrite P4', P3, P2', P1 by assumption.
Qed.

(** ** The walk of Insert at one level *)

Lemma lastd_app_gen l1 : forall p l2, lastd p (l1 ++ l2) = lastd (lastd p l1) l2.
Proof.
  induction l1 as [|a l1 IH]; intros p l2; [ reflexivity | ].
  cbn [app]. rewrite !lastd_cons. apply IH.
Qed.

Lemma load_Vof h a n : load h a = Ok n -> Vof h a = V (value n).
Proof.
  unfold load, Vof, val. destruct (h !! a) as [m|]; [ | discriminate ].
  intros [= ->]. reflexivity.
Qed.

Lemma plen_valid h a : (0 < plen h a)%nat -> (a < length h)%nat.
Proof.
  unfold plen. destruct (h !! a) eqn:E; [ intros _; now apply lookup_lt_Some in E | lia ].
Qed.

Lemma load_valid h a : (a < length h)%nat -> exists n, load h a = Ok n.
Proof.
  intros Hlt. unfold load. destruct (lookup_lt_is_Some_2 _ _ Hlt) as [n Hn].
  unfold store in *. rewrite Hn. eauto.
Qed.

(** The loop of Insert at one level walks the longest run of nodes whose
    value does not exceed [v]. *)
Lemma advance_spec h v j : forall rest curr fuel,
  lseg h j curr rest None ->
  (length rest < fuel)%nat ->
  exists l1 l2, rest = l1 ++ l2 /\ advance fuel h v j curr = Ok (lastd curr l1) /\
    Forall (fun a => Vof h a <= v) l1 /\
    match l2 with b :: _ => v < Vof h b | [] => True end.
Proof.
  induction rest as [|a rest IH]; intros curr fuel Hseg Hfuel;
    (destruct fuel as [|fuel]; [ cbn in Hfuel; lia | ]); cbn [lseg] in Hseg; cbn [advance].
  - exists [], []. bind_ok Hseg. repeat split; auto.
  - destruct Hseg as (H1 & H2 & H3). bind_ok H1.
    assert (Ha : (a < length h)%nat).
    { apply plen_valid. assert (j < plen h a)%nat by (apply get_prev_Ok; eauto). lia. }
    destruct (load_valid _ _ Ha) as [n Hn]. bind_ok Hn.
    rewrite <- (load_Vof _ _ _ Hn).
    destruct (v >=? Vof h a) eqn:Hcmp.
    + destruct (IH a fuel H3) as (l1 & l2 & -> & Hadv & Hall & Hl2); [ cbn in Hfuel; lia | ].
      exists (a :: l1), l2. rewrite lastd_cons.
      split; [ reflexivity | ]. split; [ exact Hadv | ]. split; [ | exact Hl2 ].
      constructor; [ lia | exact Hall ].
    + exists [], (a :: rest). repeat split; auto. lia.
Qed.

Lemma lseg_valid h j l p q : lseg h j p l q -> forall a, a ∈ p :: l -> (a < length h)%nat.
Proof.
  intros Hseg a Ha. destruct (lseg_levels _ _ _ _ _ Hseg) as [Hn _].
  apply nlen_valid. specialize (Hn a Ha). lia.
Qed.

Lemma NoDup_bounded (l : list nat) (n : nat) :
  NoDup l -> (forall a, a ∈ l -> (a < n)%nat) -> (length l <= n)%nat.
Proof.
  intros Hnd Hb.
  assert (Hsub : l ⊆+ seq 0 n).
  { apply NoDup_submseteq; [ exact Hnd | ].
    intros a Ha. apply elem_of_seq. specialize (Hb a Ha). lia. }
  apply submseteq_length in Hsub. now rewrite length_seq in Hsub.
Qed.

(** ** One level of Insert *)

Lemma Vof_val h h' a : val h' a = val h a -> Vof h' a = Vof h a.
Proof. unfold Vof. now intros ->. Qed.

Lemma sorted_split h l1 a l2 :
  ordered h (l1 ++ a :: l2) ->
  Forall (fun x => Vof h x <= Vof h a) l1 /\ Forall (fun x => Vof h a <= Vof h x) l2.
Proof.
  unfold ordered. induction l1 as [|b l1 IH]; cbn [app]; intros Hs.
  - split; [ constructor | ]. now apply StronglySorted_inv in Hs as [_ Hall].
  - apply StronglySorted_inv in Hs as [Hs Hall]. destruct (IH Hs) as [H1 H2].
    split; [ | exact H2 ]. constructor; [ | exact H1 ].
    apply Forall_app in Hall as [_ Hall]. now apply Forall_cons in Hall as [Hall _].
Qed.

Lemma sorted_suffix h l1 l2 : ordered h (l1 ++ l2) -> ordered h l2.
Proof.
  unfold ordered. induction l1 as [|b l1 IH]; cbn [app]; intros Hs; [ exact Hs | ].
  apply StronglySorted_inv in Hs as [Hs _]. auto.
Qed.

Lemma sorted_above h v l :
  ordered h l ->
  match l with b :: _ => v < Vof h b | [] => True end ->
  Forall (fun a => v < Vof h a) l.
Proof.
  unfold ordered. destruct l as [|b l]; [ constructor | ]. intros Hs Hb.
  apply StronglySorted_inv in Hs as [_ Hall].
  constructor; [ exact Hb | ]. eapply Forall_impl; [ exact Hall | ]. cbn. intros. lia.
Qed.

Lemma chain_length h hd L j Cj : chain_at h hd L j Cj -> (length Cj <= length h)%nat.
Proof.
  intros (Hseg & Hnd & _). apply NoDup_bounded.
  - now apply NoDup_cons in Hnd as [_ Hnd].
  - intros a Ha. apply (lseg_valid _ _ _ _ _ Hseg). now right.
Qed.

(** The walk of Insert at level [j], started at the head or at a node of
    the chain. *)
Lemma level_advance h hd L j Cj v curr :
  chain_at h hd L j Cj ->
  curr = hd \/ curr ∈ Cj ->
  exists l1 l2, Cj = l1 ++ l2 /\
    advance (S (length h)) h v j curr = Ok (lastd hd l1) /\
    (lastd hd l1 = curr \/ (lastd hd l1 ∈ Cj /\ Vof h (lastd hd l1) <= v)) /\
    (ordered h Cj -> curr = hd \/ Vof h curr <= v ->
       Forall (fun a => Vof h a <= v) l1 /\ Forall (fun a => v < Vof h a) l2).
Proof.
  intros Hch Hcurr. pose proof (chain_length _ _ _ _ _ Hch) as Hlen.
  destruct Hch as (Hseg & Hnd & Hmem).
  assert (Hcase : exists pre post, Cj = pre ++ post /\ lastd hd pre = curr /\
            (curr = hd /\ pre = [] \/ exists pre', pre = pre' ++ [curr])).
  { destruct (decide (curr ∈ Cj)) as [Hin|Hnin].
    - apply list_elem_of_split in Hin as (pre' & post & ->).
      exists (pre' ++ [curr]), post. rewrite <- app_assoc. split; [ reflexivity | ].
      split; [ apply lastd_app | right; eauto ].
    - destruct Hcurr as [->|]; [ | contradiction ].
      exists [], Cj. split; [ reflexivity | ]. split; [ reflexivity | left; auto ]. }
  destruct Hcase as (pre & post & -> & Hlast & Hpre).
  apply lseg_suffix in Hseg as Hsuf. rewrite Hlast in Hsuf.
  destruct (advance_spec h v j post curr (S (length h)) Hsuf) as (l1 & l2 & -> & Hadv & Hall & Hl2).
  { rewrite length_app in Hlen. lia. }
  exists (pre ++ l1), l2. rewrite app_assoc. split; [ reflexivity | ].
  rewrite lastd_app_gen, Hlast. split; [ exact Hadv | ]. split.
  - destruct (lastd_in curr l1) as [Heq|Hin]; [ now left | right ]. split.
    + rewrite <- app_assoc. apply elem_of_app. right. apply elem_of_app. now left.
    + eapply Forall_forall in Hall; eauto.
  - intros Hs Hv. split.
    + apply Forall_app. split; [ | exact Hall ].
      destruct Hpre as [[_ ->]|[pre' ->]]; [ constructor | ].
      destruct Hv as [->|Hv].
      { exfalso. apply NoDup_cons in Hnd as [Hhd _]. apply Hhd.
        rewrite !elem_of_app, list_elem_of_singleton. auto. }
      rewrite <- !app_assoc in Hs. cbn [app] in Hs. apply sorted_split in Hs as [Hs _].
      apply Forall_app. split.
      * eapply Forall_impl; [ exact Hs | ]. cbn. intros. lia.
      * constructor; [ exact Hv | constructor ].
    + apply sorted_above; [ | exact Hl2 ].
      rewrite <- app_assoc in Hs. apply sorted_suffix in Hs. now apply sorted_suffix in Hs.
Qed.

(** The four assignments at level [j] put the new node in the chain. *)
Lemma level_link h hd L j l1 l2 node :
  chain_at h hd L j (l1 ++ l2) ->
  node ∉ hd :: L -> (j < nlen h node)%nat -> (j < plen h node)%nat ->
  exists h', link h j node (lastd hd l1) = Ok h' /\ same_but j h h' /\
    lseg h' j hd (l1 ++ node :: l2) None /\ NoDup (hd :: l1 ++ node :: l2).
Proof.
  intros (Hseg & Hnd & Hmem) Hfresh Hn Hp.
  assert (Hfresh' : node ∉ hd :: l1 ++ l2).
  { intros Hin. apply Hfresh. apply elem_of_cons in Hin as [->|Hin]; [ now left | right ].
    now apply Hmem in Hin as [Hin _]. }
  pose proof (lseg_suffix _ _ _ _ _ _ Hseg) as Hsuf.
  set (nxp := match l2 with b :: _ => Some b | [] => None end).
  assert (Hnx : get_next h (lastd hd l1) j = Ok nxp).
  { subst nxp. destruct l2 as [|b l2]; cbn [lseg] in Hsuf; [ exact Hsuf | apply Hsuf ]. }
  destruct (link_spec h j node (lastd hd l1) nxp Hnx Hn Hp) as
    (h' & E & S & F1 & F2 & F3 & F4 & F5 & F6).
  - intros ->. apply Hfresh'. destruct (lastd_in hd l1) as [->|Hin]; [ now left | right ].
    apply elem_of_app. now left.
  - intros b Hb. subst nxp. destruct l2 as [|b' l2]; [ discriminate | ]. injection Hb as ->.
    cbn [lseg] in Hsuf. split; [ | exists (lastd hd l1); apply Hsuf ].
    intros ->. apply Hfresh'. right. apply elem_of_app. right. now left.
  - exists h'. split; [ exact E | ]. split; [ exact S | ]. split.
    + apply (lseg_insert h); auto.
      * intros b l2' ->. now apply F4.
      * intros a Ha Hhd. apply F6; [ exact Ha | ]. subst nxp.
        destruct l2 as [|b l2]; [ discriminate | ]. intros [= ->]. now apply (Hhd l2).
    + apply NoDup_cons in Hnd as [Hhd Hnd]. apply NoDup_cons. split.
      * intros Hin. apply Hhd. apply elem_of_app in Hin as [Hin|Hin]; apply elem_of_app; [ now left | ].
        apply elem_of_cons in Hin as [->|Hin]; [ | now right ].
        exfalso. apply Hfresh. now left.
      * apply NoDup_app in Hnd as (N1 & N2 & N3). apply NoDup_app. split; [ exact N1 | ]. split.
        -- intros a Ha Hin. apply elem_of_cons in Hin as [->|Hin]; [ | now apply (N2 a) ].
           apply Hfresh'. right. apply elem_of_app. now left.
        -- apply NoDup_cons. split; [ | exact N3 ].
           intros Hin. apply Hfresh'. right. apply elem_of_app. now right.
Qed.

(** ** The descent of Insert *)

Lemma agree_from_refl k h : agree_from k h h.
Proof. split; auto. Qed.

Lemma agree_from_weaken k k' h h' : (k <= k')%nat -> agree_from k h h' -> agree_from k' h h'.
Proof.
  intros Hk [H1 H2 H3 H4 H5 H6]. split; auto.
  - intros a j Hj. apply H5. lia.
  - intros a j Hj. apply H6. lia.
Qed.

Lemma agree_from_step i h h1 h' :
  same_but i h h1 -> agree_from i h1 h' -> agree_from (S i) h h'.
Proof.
  intros S A. split; intros.
  - rewrite (ao_length _ _ _ A). apply (ao_length _ _ _ S).
  - rewrite (ao_val _ _ _ A). apply (ao_val _ _ _ S).
  - rewrite (ao_nlen _ _ _ A). apply (ao_nlen _ _ _ S).
  - rewrite (ao_plen _ _ _ A). apply (ao_plen _ _ _ S).
  - rewrite (ao_next _ _ _ A) by lia. apply (ao_next _ _ _ S). lia.
  - rewrite (ao_prev _ _ _ A) by lia. apply (ao_prev _ _ _ S). lia.
Qed.

Lemma chain_at_frame h h' hd L L' j Cj :
  (forall a, a ∈ hd :: Cj -> get_next h' a j = get_next h a j) ->
  (forall a, a ∈ Cj -> get_prev h' a j = get_prev h a j) ->
  (forall a, a ∈ L' /\ (j < nlen h' a)%nat <-> a ∈ L /\ (j < nlen h a)%nat) ->
  chain_at h hd L j Cj -> chain_at h' hd L' j Cj.
Proof.
  intros Hn Hp Hm (Hseg & Hnd & Hmem). split; [ | split; [ exact Hnd | ] ].
  - apply (lseg_frame h); auto.
  - intros a. rewrite Hm. apply Hmem.
Qed.

Lemma ordered_frame h h' l : (forall a, val h' a = val h a) -> ordered h l -> ordered h' l.
Proof.
  intros Hv. unfold ordered. induction 1 as [|a l Hs IH Hall]; constructor; auto.
  eapply Forall_impl; [ exact Hall | ]. cbn. intros b Hb.
  now rewrite !(Vof_val h h') by apply Hv.
Qed.

(** The loop [for i := s.height; i >= 0; i--] of Insert, entered with
    [k] levels left: the levels from [k] up are left alone, the new node
    joins the chain of each level below [k] that it has, and at level 0 it
    comes after every node whose value does not exceed its own. *)
Lemma descend_spec hd L v level node : forall k h curr,
  (forall j, (j < k)%nat -> exists Cj, chain_at h hd L j Cj) ->
  ((0 < k)%nat -> chain_at h hd L 0 L) ->
  ordered h L ->
  node ∉ hd :: L -> nlen h node = S level -> plen h node = S level ->
  curr = hd \/ (curr ∈ L /\ (k <= nlen h curr)%nat /\ Vof h curr <= v) ->
  exists h', descend k h v level node curr = Ok h' /\
    agree_from k h h' /\
    (forall j, (j < k)%nat -> exists Cj, chain_at h' hd (node :: L) j Cj) /\
    ((0 < k)%nat -> exists l1 l2, L = l1 ++ l2 /\
       chain_at h' hd (node :: L) 0 (l1 ++ node :: l2) /\
       Forall (fun a => Vof h a <= v) l1 /\ Forall (fun a => v < Vof h a) l2).
Proof.
  induction k as [|i IH]; intros h curr Hlev Hlev0 Hord Hfresh Hnl Hpl Hinv.
  { exists h. split; [ reflexivity | ]. split; [ apply agree_from_refl | ].
    split; intros; lia. }
  assert (HCi : exists Ci, chain_at h hd L i Ci /\ (i = 0%nat -> Ci = L)).
  { destruct i as [|i].
    - exists L. split; [ apply Hlev0; lia | auto ].
    - destruct (Hlev (S i)) as [Ci HCi]; [ lia | ]. exists Ci. split; [ exact HCi | lia ]. }
  destruct HCi as (Ci & HCi & Hi0).
  assert (Hin : curr = hd \/ curr ∈ Ci).
  { destruct Hinv as [->|(H1 & H2 & _)]; [ now left | right ].
    apply HCi. split; [ exact H1 | lia ]. }
  destruct (level_advance h hd L i Ci v curr HCi Hin) as (l1 & l2 & -> & Hadv & Hc' & Hsplit).
  cbn [descend]. bind_ok Hadv.
  assert (Hinv' : lastd hd l1 = hd \/
            (lastd hd l1 ∈ L /\ (i <= nlen h (lastd hd l1))%nat /\ Vof h (lastd hd l1) <= v)).
  { destruct Hc' as [->|[Hc1 Hc2]].
    - destruct Hinv as [->|(H1 & H2 & H3)]; [ now left | right ]. repeat split; auto. lia.
    - right. apply HCi in Hc1 as [Hc1 Hc3]. repeat split; auto. lia. }
  assert (Hnodemem : forall Cj j, chain_at h hd L j Cj -> node ∉ Cj).
  { intros Cj j (_ & _ & Hm) Hn. apply Hm in Hn as [Hn _]. apply Hfresh. now right. }
  destruct (decide (level < i)%nat) as [Hlt|Hge].
  - destruct (IH h (lastd hd l1)) as (h' & E & A & Hlev' & Hlev0');
      [ intros j Hj; apply Hlev; lia | intros Hi; apply Hlev0; lia
      | exact Hord | exact Hfresh | exact Hnl | exact Hpl | exact Hinv' | ].
    exists h'. split; [ exact E | ]. split; [ eapply agree_from_weaken; [ | exact A ]; lia | ].
    split.
    + intros j Hj. destruct (decide (j = i)) as [->|Hne]; [ | apply Hlev'; lia ].
      exists (l1 ++ l2). eapply chain_at_frame; [ | | | exact HCi ].
      * intros a _. now apply (ao_next _ _ _ A).
      * intros a _. now apply (ao_prev _ _ _ A).
      * intros a. rewrite (ao_nlen _ _ _ A), elem_of_cons. split; [ | tauto ].
        intros [[->|Ha] Hl]; [ lia | tauto ].
    + intros _. destruct i as [|i]; [ lia | ]. apply Hlev0'. lia.
  - destruct (level_link h hd L i l1 l2 node HCi Hfresh) as (h1 & E1 & S1 & Hseg1 & Hnd1); [ lia | lia | ].
    bind_ok E1.
    destruct (IH h1 (lastd hd l1)) as (h' & E & A & Hlev' & Hlev0').
    { intros j Hj. destruct (Hlev j) as [Cj HCj]; [ lia | ]. exists Cj.
      eapply chain_at_frame; [ | | | exact HCj ].
      - intros a _. apply (ao_next _ _ _ S1). lia.
      - intros a _. apply (ao_prev _ _ _ S1). lia.
      - intros a. now rewrite (ao_nlen _ _ _ S1). }
    { intros Hi. eapply chain_at_frame; [ | | | apply Hlev0; lia ].
      - intros a _. apply (ao_next _ _ _ S1). lia.
      - intros a _. apply (ao_prev _ _ _ S1). lia.
      - intros a. now rewrite (ao_nlen _ _ _ S1). }
    { eapply ordered_frame; [ | exact Hord ]. apply (ao_val _ _ _ S1). }
    { exact Hfresh. }
    { now rewrite (ao_nlen _ _ _ S1). }
    { now rewrite (ao_plen _ _ _ S1). }
    { rewrite (ao_nlen _ _ _ S1), (Vof_val h h1) by apply (ao_val _ _ _ S1). exact Hinv'. }
    exists h'. split; [ exact E | ]. split; [ eapply agree_from_step; eauto | ].
    assert (Hnew : chain_at h' hd (node :: L) i (l1 ++ node :: l2)).
    { split; [ | split; [ exact Hnd1 | ] ].
      - eapply lseg_frame; [ | | exact Hseg1 ].
        + intros a _. now apply (ao_next _ _ _ A).
        + intros a _. now apply (ao_prev _ _ _ A).
      - intros a. rewrite (ao_nlen _ _ _ A), (ao_nlen _ _ _ S1).
        destruct HCi as (_ & _ & Hm). specialize (Hm a).
        rewrite elem_of_app in Hm. rewrite elem_of_app, !elem_of_cons.
        split.
        + intros [H|[->|H]]; [ | split; [ now left | lia ] | ].
          * destruct Hm as [Hm _]. destruct Hm as [Hm1 Hm2]; auto.
          * destruct Hm as [Hm _]. destruct Hm as [Hm1 Hm2]; auto.
        + intros [[->|H] Hl]; [ auto | ].
          destruct Hm as [_ Hm]. destruct Hm as [Hm|Hm]; auto. }
    split.
    + intros j Hj. destruct (decide (j = i)) as [->|Hne]; [ | apply Hlev'; lia ].
      eauto.
    + intros _. destruct i as [|i].
      * exists l1, l2. split; [ symmetry; now apply Hi0 | ]. split; [ exact Hnew | ].
        apply Hsplit.
        -- now rewrite Hi0.
        -- destruct Hinv as [->|(_ & _ & Hv)]; auto.
      * destruct Hlev0' as (m1 & m2 & -> & Hch & F1 & F2); [ lia | ].
        exists m1, m2. split; [ reflexivity | ]. split; [ exact Hch | ].
        split; (eapply Forall_impl; [ eassumption | ]); cbn; intros a;
          now rewrite (Vof_val h h1) by apply (ao_val _ _ _ S1).
Qed.

(** ** Insert keeps the invariant *)

Lemma Vof_entry_at h a : Vof h a = V (entry_at h a).
Proof. unfold Vof, entry_at. now destruct (val h a). Qed.

(** Allocation: the store with one more node. *)
Lemma alloc_old (h : store) (x : SkiplistNode) (a : nat) :
  (a < length h)%nat ->
  val (h ++ [x]) a = val h a /\ nlen (h ++ [x]) a = nlen h a /\ plen (h ++ [x]) a = plen h a /\
  (forall j, get_next (h ++ [x]) a j = get_next h a j) /\
  (forall j, get_prev (h ++ [x]) a j = get_prev h a j).
Proof.
  intros Ha. obs. rewrite lookup_app_l by exact Ha. auto.
Qed.

Lemma alloc_new (h : store) (x : SkiplistNode) :
  val (h ++ [x]) (length h) = Some (value x) /\
  nlen (h ++ [x]) (length h) = length (next x) /\
  plen (h ++ [x]) (length h) = length (prev x).
Proof.
  obs. rewrite lookup_app_r by lia. rewrite Nat.sub_diag. cbn. auto.
Qed.

Lemma chain_valid h hd L j Cj a : chain_at h hd L j Cj -> a ∈ hd :: Cj -> (a < length h)%nat.
Proof. intros (Hseg & _) Ha. eapply lseg_valid; eauto. Qed.

Lemma ordered_insert h l1 l2 node v :
  ordered h (l1 ++ l2) -> Vof h node = v ->
  Forall (fun a => Vof h a <= v) l1 -> Forall (fun a => v < Vof h a) l2 ->
  ordered h (l1 ++ node :: l2).
Proof.
  unfold ordered. intros Hs Hv F1 F2.
  induction l1 as [|b l1 IH]; cbn [app] in *.
  - constructor; [ exact Hs | ]. eapply Forall_impl; [ exact F2 | ]. cbn. intros. lia.
  - apply StronglySorted_inv in Hs as [Hs Hall]. apply Forall_cons in F1 as [Hb F1].
    constructor; [ auto | ].
    apply Forall_app in Hall as [H1 H2]. apply Forall_app. split; [ exact H1 | ].
    constructor; [ lia | exact H2 ].
Qed.

Lemma ordered_ext h h' l :
  (forall a, a ∈ l -> Vof h' a = Vof h a) -> ordered h l -> ordered h' l.
Proof.
  unfold ordered. intros Hv Ho. induction Ho as [|a l Hs IH Hall]; constructor.
  - apply IH. intros b Hb. apply Hv. now right.
  - rewrite (Hv a) by now left. apply Forall_forall. intros b Hb.
    rewrite (Hv b) by now right. eapply Forall_forall in Hall; eauto.
Qed.

(** Insert on a well-formed skiplist, for a draw other than [2^31 - 1]:
    the call returns, the new node is the next free address, it holds [e],
    every other node keeps its value, and at level 0 the node comes after
    the nodes whose value does not exceed [e.V] and before the others. *)
Lemma Skiplist_Insert_WF sl L e n :
  WF sl L -> 0 <= n < 2 ^ 31 - 1 ->
  exists sl' l1 l2, L = l1 ++ l2 /\
    Skiplist_Insert sl e n = Ok (length (nodes sl), sl') /\
    WF sl' (l1 ++ length (nodes sl) :: l2) /\
    val (nodes sl') (length (nodes sl)) = Some e /\
    (forall a, (a < length (nodes sl))%nat -> val (nodes sl') a = val (nodes sl) a) /\
    length (nodes sl') = S (length (nodes sl)) /\
    head sl' = head sl /\
    Forall (fun a => Vof (nodes sl) a <= V e) l1 /\
    Forall (fun a => V e < Vof (nodes sl) a) l2.
Proof.
  intros W Hn. unfold Skiplist_Insert.
  destruct (trailing_ones_total 31 n 0%nat) as (drawn & Hdraw & Hd); [ exact Hn | ].
  bind_ok Hdraw.
  set (p := if decide (height sl < drawn)%nat then (S (height sl), S (height sl))
            else (height sl, drawn)).
  assert (Hp : (p.2 <= p.1)%nat /\ (p.1 < maxHeight)%nat /\ (height sl <= p.1)%nat).
  { pose proof (wf_height _ _ W). unfold maxHeight in *. subst p.
    destruct (decide (height sl < drawn)%nat); cbn; lia. }
  destruct p as [hgt level]. cbn [fst snd] in Hp. destruct Hp as (Hlev & Hhgt & Hgrow).
  set (h := nodes sl) in *. set (hd := head sl) in *. set (node := length h).
  set (x := {| value := e; next := replicate (S level) None; prev := replicate (S level) None |}).
  set (h0 := h ++ [x]).
  destruct (alloc_new h x) as (Nv & Nn & Np). fold h0 node in Nv, Nn, Np.
  unfold x in Nv, Nn, Np. cbn [value next prev] in Nv, Nn, Np.
  rewrite length_replicate in Nn, Np.
  assert (Hvalid : forall j Cj a, chain_at h hd L j Cj -> a ∈ hd :: Cj -> (a < length h)%nat).
  { intros j Cj a HC Ha. eapply chain_valid; eauto. }
  assert (HLvalid : forall a, a ∈ hd :: L -> (a < length h)%nat).
  { intros a Ha. eapply Hvalid; [ apply (wf_level0 _ _ W) | exact Ha ]. }
  assert (Hfresh : node ∉ hd :: L).
  { intros Hin. apply HLvalid in Hin. subst node. lia. }
  assert (Hlift : forall j Cj, chain_at h hd L j Cj -> chain_at h0 hd L j Cj).
  { intros j Cj HC. eapply chain_at_frame; [ | | | exact HC ].
    - intros a Ha. apply alloc_old. eapply Hvalid; eauto.
    - intros a Ha. apply alloc_old. eapply Hvalid; eauto. now right.
    - intros a. split; intros [Ha Hl]; (split; [ exact Ha | ]);
        destruct (alloc_old h x a) as (_ & E & _); try (apply HLvalid; now right);
        fold h0 in E; lia. }
  assert (Hval0 : forall a, (a < length h)%nat -> val h0 a = val h a).
  { intros a Ha. now apply alloc_old. }
  destruct (descend_spec hd L (V e) level node (S hgt) h0 hd) as (h' & E & A & Hlev' & Hlev0').
  { intros j Hj. destruct (wf_levels _ _ W j) as [Cj HCj]; [ lia | ]. eauto. }
  { intros _. apply Hlift. apply (wf_level0 _ _ W). }
  { eapply ordered_ext; [ | apply (wf_ordered _ _ W) ].
    intros a Ha. apply Vof_val, Hval0, HLvalid. now right. }
  { exact Hfresh. }
  { exact Nn. }
  { exact Np. }
  { now left. }
  bind_ok E.
  destruct Hlev0' as (l1 & l2 & HL & Hch0 & F1 & F2); [ lia | ].
  assert (Hmem' : forall a, a ∈ l1 ++ node :: l2 <-> a ∈ node :: L).
  { intros a. rewrite HL, !elem_of_app, !elem_of_cons, elem_of_app. tauto. }
  assert (Hconv : forall j Cj, chain_at h' hd (node :: L) j Cj ->
                               chain_at h' hd (l1 ++ node :: l2) j Cj).
  { intros j Cj HC. eapply chain_at_frame; [ | | | exact HC ]; auto.
    intros a. now rewrite Hmem'. }
  assert (Hobs : forall a, (a < length h)%nat ->
            val h' a = val h a /\ nlen h' a = nlen h a /\ plen h' a = plen h a /\
            forall j, (S hgt <= j)%nat ->
              get_next h' a j = get_next h a j /\ get_prev h' a j = get_prev h a j).
  { intros a Ha. destruct (alloc_old h x a Ha) as (O1 & O2 & O3 & O4 & O5). fold h0 in O1, O2, O3, O4, O5.
    rewrite (ao_val _ _ _ A), (ao_nlen _ _ _ A), (ao_plen _ _ _ A).
    repeat split; auto.
    - now rewrite (ao_next _ _ _ A).
    - now rewrite (ao_prev _ _ _ A). }
  assert (HV0 : forall a, a ∈ L -> Vof h0 a = Vof h a).
  { intros a Ha. apply Vof_val, Hval0, HLvalid. now right. }
  assert (HV' : forall a, a ∈ L -> Vof h' a = Vof h a).
  { intros a Ha. apply Vof_val. apply Hobs, HLvalid. now right. }
  assert (G1 : Forall (fun a => Vof h a <= V e) l1).
  { apply Forall_forall. intros a Ha. rewrite <- HV0 by (rewrite HL, elem_of_app; auto).
    eapply Forall_forall in F1; eauto. }
  assert (G2 : Forall (fun a => V e < Vof h a) l2).
  { apply Forall_forall. intros a Ha. rewrite <- HV0 by (rewrite HL, elem_of_app; auto).
    eapply Forall_forall in F2; eauto. }
  exists {| height := hgt; head := hd; nodes := h' |}, l1, l2.
  split; [ exact HL | ]. split; [ reflexivity | ]. cbn [nodes].
  split; [ | split; [ | split; [ | split; [ | split; [ reflexivity | split ] ] ] ] ].
  - split; cbn [height head nodes].
    + exact Hhgt.
    + destruct (Hobs hd) as (_ & -> & _); [ apply HLvalid; now left | ]. apply (wf_head _ _ W).
    + apply Hconv, Hch0.
    + intros j Hj. destruct (decide (j <= hgt)%nat) as [Hle|Hgt].
      * destruct (Hlev' j) as [Cj HCj]; [ lia | ]. exists Cj. now apply Hconv.
      * destruct (wf_levels _ _ W j Hj) as [Cj HCj]. fold h hd in HCj. exists Cj.
        eapply chain_at_frame; [ | | | exact HCj ].
        -- intros a Ha. apply Hobs; [ eapply Hvalid; eauto | lia ].
        -- intros a Ha. apply Hobs; [ eapply Hvalid; eauto; now right | lia ].
        -- intros a. rewrite Hmem', elem_of_cons. split.
           ++ intros [[->|Ha] Hl].
              ** rewrite (ao_nlen _ _ _ A), Nn in Hl. lia.
              ** destruct (Hobs a) as (_ & O & _); [ apply HLvalid; now right | ].
                 rewrite O in Hl. auto.
           ++ intros [Ha Hl]. destruct (Hobs a) as (_ & O & _); [ apply HLvalid; now right | ].
              rewrite O. auto.
    + intros a Ha. apply Hmem' in Ha. apply elem_of_cons in Ha as [->|Ha].
      * rewrite (ao_nlen _ _ _ A), (ao_plen _ _ _ A), Nn, Np. split; [ reflexivity | lia ].
      * destruct (Hobs a) as (_ & O1 & O2 & _); [ apply HLvalid; now right | ].
        rewrite O1, O2. destruct (wf_shape _ _ W a Ha) as [S1 S2]. fold h in S1, S2.
        split; [ exact S1 | lia ].
    + apply ordered_insert with (v := V e).
      * rewrite <- HL. eapply ordered_ext; [ | apply (wf_ordered _ _ W) ]. exact HV'.
      * unfold Vof. now rewrite (ao_val _ _ _ A), Nv.
      * apply Forall_forall. intros a Ha. rewrite HV' by (rewrite HL, elem_of_app; auto).
        eapply Forall_forall in G1; eauto.
      * apply Forall_forall. intros a Ha. rewrite HV' by (rewrite HL, elem_of_app; auto).
        eapply Forall_forall in G2; eauto.
    + destruct (Hobs hd) as (-> & _); [ apply HLvalid; now left | ]. apply (wf_head_val _ _ W).
  - now rewrite (ao_val _ _ _ A).
  - intros a Ha. now apply Hobs.
  - rewrite (ao_length _ _ _ A). subst h0. rewrite length_app. cbn. lia.
  - exact G1.
  - exact G2.
Qed.

(** ** Insert on the sequence of tuples *)

Lemma place_split e es1 es2 :
  Forall (fun x => V x <= V e) es1 -> Forall (fun x => V e < V x) es2 ->
  place e (es1 ++ es2) = es1 ++ e :: es2.
Proof.
  intros F1 F2. induction F1 as [|x es1 Hx F1 IH]; cbn [app place].
  - destruct F2 as [|y es2 Hy F2]; [ reflexivity | ]. cbn [place].
    destruct (Z.leb_spec (V y) (V e)); [ lia | reflexivity ].
  - destruct (Z.leb_spec (V x) (V e)); [ now rewrite IH | lia ].
Qed.

Lemma NewSkiplist_WF : WF NewSkiplist [].
Proof.
  assert (Hn : forall j, (j < maxHeight)%nat -> get_next (nodes NewSkiplist) 0 j = Ok None).
  { intros j Hj. unfold get_next, load, NewSkiplist. cbn [nodes lookup list_lookup mbind res_bind next].
    unfold index. now rewrite lookup_replicate_2. }
  assert (Hc : forall j, (j < maxHeight)%nat -> chain_at (nodes NewSkiplist) (head NewSkiplist) [] j []).
  { intros j Hj. split; [ cbn [lseg]; now apply Hn | ]. split.
    - apply NoDup_singleton.
    - intros a. split; [ intros H; inversion H | intros [H _]; inversion H ]. }
  split.
  - cbn. unfold maxHeight. lia.
  - reflexivity.
  - apply Hc. unfold maxHeight. lia.
  - intros j Hj. exists []. now apply Hc.
  - intros a Ha. inversion Ha.
  - constructor.
  - reflexivity.
Qed.

Lemma NewSkiplist_represents : represents NewSkiplist [].
Proof. exists []. split; [ apply NewSkiplist_WF | reflexivity ]. Qed.

Lemma get_next_load h a j q :
  get_next h a j = Ok q ->
  exists n, load h a = Ok n /\ index (next n) j = Ok q /\ entry_at h a = value n.
Proof.
  unfold get_next, entry_at, val, load. destruct (h !! a) as [n|]; [ | discriminate ].
  cbn. intros H. exists n. auto.
Qed.

(** The walk along level 0 reads the values of the chain. *)
Lemma walk_lseg h : forall l p fuel,
  lseg h 0 p l None -> (S (length l) < fuel)%nat ->
  walk fuel h (Some p) = Ok (entry_at h p :: map (entry_at h) l).
Proof.
  induction l as [|a l IH]; intros p fuel Hseg Hfuel;
    (destruct fuel as [|fuel]; [ cbn in Hfuel; lia | ]); cbn [lseg] in Hseg; cbn [walk].
  - apply get_next_load in Hseg as (n & Hl & Hi & Hv). bind_ok Hl. bind_ok Hi.
    destruct fuel as [|fuel]; [ cbn in Hfuel; lia | ]. cbn [walk].
    change (Ok ?x ≫= ?f) with (f x); cbv beta. now rewrite Hv.
  - destruct Hseg as (H1 & _ & H3).
    apply get_next_load in H1 as (n & Hl & Hi & Hv). bind_ok Hl. bind_ok Hi.
    rewrite (IH a fuel H3) by (cbn in Hfuel; lia).
    change (Ok ?x ≫= ?f) with (f x); cbv beta. now rewrite Hv.
Qed.

Lemma WF_length sl L : WF sl L -> (S (length L) <= length (nodes sl))%nat.
Proof.
  intros W. destruct (wf_level0 _ _ W) as (Hseg & Hnd & _).
  change (S (length L)) with (length (head sl :: L)). apply NoDup_bounded; [ exact Hnd | ].
  intros a Ha. eapply lseg_valid; eauto.
Qed.

(** [flatten] yields the head's value, then the tuples. *)
Lemma flatten_WF sl L :
  WF sl L ->
  flatten sl = Ok (zeroEntry :: map (entry_at (nodes sl)) L).
Proof.
  intros W. unfold flatten.
  replace zeroEntry with (entry_at (nodes sl) (head sl))
    by (unfold entry_at; now rewrite (wf_head_val _ _ W)).
  apply walk_lseg; [ apply (wf_level0 _ _ W) | ].
  pose proof (WF_length _ _ W). lia.
Qed.

Lemma entries_WF sl L : WF sl L -> entries sl = Ok (map (entry_at (nodes sl)) L).
Proof.
  intros W. pose proof (WF_length _ _ W) as Hlen.
  destruct (wf_level0 _ _ W) as (Hseg & _ & _). unfold entries.
  destruct L as [|a L]; cbn [lseg] in Hseg.
  - bind_ok Hseg. cbn [length] in Hlen. destruct (length (nodes sl)); [ lia | reflexivity ].
  - destruct Hseg as (H1 & _ & H3). bind_ok H1. cbn [map].
    apply walk_lseg; [ exact H3 | ]. cbn [length] in Hlen. lia.
Qed.

Lemma entries_represents sl es : represents sl es -> entries sl = Ok es.
Proof. intros (L & W & ->). now apply entries_WF. Qed.

Lemma Forall_map_entry (P : Entry -> Prop) h (l : list nat) :
  Forall (fun a => P (entry_at h a)) l -> Forall P (map (entry_at h) l).
Proof. induction 1; constructor; auto. Qed.

Lemma map_entry_ext h h' (l : list nat) :
  (forall a, a ∈ l -> val h' a = val h a) -> map (entry_at h') l = map (entry_at h) l.
Proof.
  intros Hv. induction l as [|a l IH]; [ reflexivity | ]. cbn [map].
  unfold entry_at at 1 3. rewrite Hv by now left. f_equal. apply IH.
  intros b Hb. apply Hv. now right.
Qed.

(** Insert, on the sequence of tuples: the new tuple goes after the
    tuples whose value does not exceed its own. *)
Lemma Insert_places sl es e n :
  represents sl es -> 0 <= n < 2 ^ 31 - 1 ->
  exists node sl', Skiplist_Insert sl e n = Ok (node, sl') /\
    represents sl' (place e es).
Proof.
  intros (L & W & ->) Hn.
  destruct (Skiplist_Insert_WF sl L e n W Hn) as
    (sl' & l1 & l2 & -> & E & W' & Hv & Hold & _ & _ & F1 & F2).
  exists (length (nodes sl)), sl'. split; [ exact E | ].
  exists (l1 ++ length (nodes sl) :: l2). split; [ exact W' | ].
  assert (Hvalid : forall a, a ∈ l1 ++ l2 -> (a < length (nodes sl))%nat).
  { intros a Ha. destruct (wf_level0 _ _ W) as (Hseg & _ & _).
    eapply lseg_valid; eauto. now right. }
  assert (Hen : entry_at (nodes sl') (length (nodes sl)) = e).
  { unfold entry_at. now rewrite Hv. }
  rewrite !map_app. cbn [map]. rewrite place_split.
  - rewrite Hen.
    rewrite <- (map_entry_ext (nodes sl) (nodes sl') l1), <- (map_entry_ext (nodes sl) (nodes sl') l2);
      [ reflexivity | | ]; intros a Ha; apply Hold, Hvalid, elem_of_app; auto.
  - apply Forall_map_entry. eapply Forall_impl; [ exact F1 | ]. cbn. intros a.
    now rewrite Vof_entry_at.
  - apply Forall_map_entry. eapply Forall_impl; [ exact F2 | ]. cbn. intros a.
    now rewrite Vof_entry_at.
Qed.

(** A run of Inserts sorts: the tuples end up as if placed one by one. *)
Lemma insert_all_places (draws : nat -> Z) :
  (forall k, 0 <= draws k < 2 ^ 31 - 1) ->
  forall es sl es0 k, represents sl es0 ->
  exists sl', insert_all sl es draws k = Ok sl' /\
    represents sl' (fold_left (fun acc e => place e acc) es es0).
Proof.
  intros Hd. induction es as [|e es IH]; intros sl es0 k R; cbn [insert_all fold_left].
  - eauto.
  - destruct (Insert_places sl es0 e (draws k) R (Hd k)) as (node & sl1 & E & R1).
    bind_ok E. cbv iota. now apply IH.
Qed.

(** ** Remove *)

Lemma agree_on_refl keep h : agree_on keep h h.
Proof. split; auto. Qed.

Lemma agree_on_step (keep : nat -> Prop) i h h1 h' :
  same_but i h h1 -> agree_on keep h1 h' -> (forall j, keep j -> j <> i) ->
  agree_on keep h h'.
Proof.
  intros S A Hk. split; intros.
  - rewrite (ao_length _ _ _ A). apply (ao_length _ _ _ S).
  - rewrite (ao_val _ _ _ A). apply (ao_val _ _ _ S).
  - rewrite (ao_nlen _ _ _ A). apply (ao_nlen _ _ _ S).
  - rewrite (ao_plen _ _ _ A). apply (ao_plen _ _ _ S).
  - rewrite (ao_next _ _ _ A) by assumption. apply (ao_next _ _ _ S). auto.
  - rewrite (ao_prev _ _ _ A) by assumption. apply (ao_prev _ _ _ S). auto.
Qed.

Lemma agree_on_weaken (keep keep' : nat -> Prop) h h' :
  (forall j, keep' j -> keep j) -> agree_on keep h h' -> agree_on keep' h h'.
Proof. intros Hk [H1 H2 H3 H4 H5 H6]. split; auto. Qed.

Lemma lseg_unique h j : forall l l' p,
  lseg h j p l None -> lseg h j p l' None -> l = l'.
Proof.
  induction l as [|a l IH]; intros [|a' l'] p; cbn [lseg]; intros H1 H2.
  - reflexivity.
  - destruct H2 as (H2 & _). congruence.
  - destruct H1 as (H1 & _). congruence.
  - destruct H1 as (H1 & _ & H1'). destruct H2 as (H2 & _ & H2').
    assert (a = a') as <- by congruence. f_equal. eauto.
Qed.

Lemma NoDup_split_unique (a : nat) : forall c1 c2 d1 d2,
  NoDup (c1 ++ a :: c2) -> c1 ++ a :: c2 = d1 ++ a :: d2 -> c1 = d1 /\ c2 = d2.
Proof.
  induction c1 as [|x c1 IH]; intros c2 d1 d2 Hnd Heq.
  - destruct d1 as [|y d1]; cbn [app] in *.
    + injection Heq as ->. auto.
    + injection Heq as <- ->. apply NoDup_cons in Hnd as [Hnd _].
      exfalso. apply Hnd. apply elem_of_app. right. now left.
  - destruct d1 as [|y d1]; cbn [app] in *.
    + injection Heq as -> <-. apply NoDup_cons in Hnd as [Hnd _].
      exfalso. apply Hnd. apply elem_of_app. right. now left.
    + injection Heq as <- Heq. apply NoDup_cons in Hnd as [_ Hnd].
      destruct (IH _ _ _ Hnd Heq) as [-> ->]. auto.
Qed.

(** One round of Remove takes the node out of the chain of its level. *)
Lemma level_unlink h hd L L' j c1 a c2 :
  chain_at h hd L j (c1 ++ a :: c2) ->
  (forall b, b ∈ L' <-> b ∈ L /\ b <> a) ->
  exists h', unlink h a j = Ok h' /\ same_but j h h' /\ chain_at h' hd L' j (c1 ++ c2).
Proof.
  intros (Hseg & Hnd & Hmem) HL'.
  destruct (lseg_at _ _ _ _ _ _ _ Hseg) as [Hpv Hnx].
  destruct (lseg_levels _ _ _ _ _ Hseg) as [Lv1 Lv2].
  set (nxp := match c2 with b :: _ => Some b | [] => None end) in *.
  pose proof Hnd as Hnd0.
  apply NoDup_cons in Hnd as [Hhd Hnd]. apply NoDup_app in Hnd as (N1 & N2 & N3).
  apply NoDup_cons in N3 as [Ha N3].
  assert (Hca : lastd hd c1 <> a).
  { intros E. destruct (lastd_in hd c1) as [E'|Hin].
    - apply Hhd. rewrite <- E, E'. rewrite E' in E. rewrite E. apply elem_of_app. right. now left.
    - rewrite E in Hin. apply (N2 a Hin). now left. }
  destruct (unlink_spec h j a (lastd hd c1) nxp Hpv Hnx) as
    (h' & E & S & F1 & F2 & F3 & F4 & F5 & F6).
  - apply Lv1. destruct (lastd_in hd c1) as [->|Hin]; [ now left | right ].
    apply elem_of_app. now left.
  - intros b Hb. subst nxp. destruct c2 as [|b' c2]; [ discriminate | ]. injection Hb as ->.
    apply Lv2. apply elem_of_app. right. right. now left.
  - exact Hca.
  - subst nxp. destruct c2 as [|b c2]; [ discriminate | ]. intros [= ->]. apply Ha. now left.
  - exists h'. split; [ exact E | ]. split; [ exact S | ]. split; [ | split ].
    + apply (lseg_remove h h' j a); auto.
      * intros b l2' ->. now apply F2.
      * intros c Hc Hhd'. apply F6; [ exact Hc | ]. subst nxp.
        destruct c2 as [|b c2]; [ discriminate | ]. intros [= ->]. now apply (Hhd' c2).
    + apply NoDup_cons. split.
      * intros Hin. apply Hhd. rewrite elem_of_app in *. rewrite elem_of_cons. tauto.
      * apply NoDup_app. split; [ exact N1 | ]. split; [ | exact N3 ].
        intros b Hb Hb'. apply (N2 b Hb). now right.
    + intros b. rewrite HL', (ao_nlen _ _ _ S). specialize (Hmem b).
      rewrite elem_of_app, elem_of_cons in Hmem. rewrite elem_of_app. split.
      * intros Hb. assert (Hne : b <> a).
        { intros ->. destruct Hb as [Hb|Hb]; [ apply (N2 a Hb); now left | contradiction ]. }
        destruct Hmem as [Hm _]. destruct Hm as [Hm1 Hm2]; [ tauto | ]. auto.
      * intros [[Hb Hne] Hl]. destruct Hmem as [_ Hm]. destruct Hm as [Hm|[Hm|Hm]]; auto.
        contradiction.
Qed.

(** The loop [for i := range node.next] of Remove, with [k] rounds left. *)
Lemma unlink_from_spec hd L L' a :
  (forall b, b ∈ L' <-> b ∈ L /\ b <> a) ->
  forall k i h,
  (forall j, (i <= j < i + k)%nat -> exists c1 c2, chain_at h hd L j (c1 ++ a :: c2)) ->
  exists h', unlink_from k h a i = Ok h' /\
    agree_on (fun j => (j < i)%nat \/ (i + k <= j)%nat) h h' /\
    forall j c1 c2, (i <= j < i + k)%nat ->
      chain_at h hd L j (c1 ++ a :: c2) -> chain_at h' hd L' j (c1 ++ c2).
Proof.
  intros HL'. induction k as [|k IH]; intros i h Hch; cbn [unlink_from].
  - exists h. split; [ reflexivity | ]. split; [ apply agree_on_refl | ]. intros; lia.
  - destruct (Hch i) as (c1 & c2 & Hci); [ lia | ].
    destruct (level_unlink h hd L L' i c1 a c2 Hci HL') as (h1 & E1 & S1 & Hci').
    bind_ok E1.
    assert (Hlift : forall j Cj, j <> i -> chain_at h hd L j Cj -> chain_at h1 hd L j Cj).
    { intros j Cj Hj HC. eapply chain_at_frame; [ | | | exact HC ].
      - intros b _. now apply (ao_next _ _ _ S1).
      - intros b _. now apply (ao_prev _ _ _ S1).
      - intros b. now rewrite (ao_nlen _ _ _ S1). }
    destruct (IH (S i) h1) as (h' & E & A & Hrest).
    { intros j Hj. destruct (Hch j) as (d1 & d2 & Hd); [ lia | ]. exists d1, d2.
      apply Hlift; [ lia | exact Hd ]. }
    exists h'. split; [ exact E | ]. split.
    + eapply agree_on_step; [ exact S1 | | ].
      * eapply agree_on_weaken; [ | exact A ]. cbn. intros j Hj. lia.
      * cbn. intros j Hj. lia.
    + intros j d1 d2 Hj Hd. destruct (decide (j = i)) as [->|Hne].
      * assert (Heq : d1 = c1 /\ d2 = c2).
        { destruct Hd as (Hs1 & Hn1 & _). destruct Hci as (Hs2 & _ & _).
          apply NoDup_cons in Hn1 as [_ Hn1].
          apply (NoDup_split_unique a); [ exact Hn1 | ].
          eapply lseg_unique; eauto. }
        destruct Heq as [-> ->].
        eapply chain_at_frame; [ | | | exact Hci' ].
        -- intros b _. apply (ao_next _ _ _ A). cbn. lia.
        -- intros b _. apply (ao_prev _ _ _ A). cbn. lia.
        -- intros b. now rewrite (ao_nlen _ _ _ A).
      * apply (Hrest j d1 d2); [ lia | ]. apply Hlift; [ exact Hne | exact Hd ].
Qed.

(** Remove on a data node of a well-formed skiplist: the call returns,
    the node leaves every chain, and no value changes. *)
Lemma Skiplist_Remove_WF sl l1 a l2 :
  WF sl (l1 ++ a :: l2) ->
  exists sl', Skiplist_Remove sl a = Ok sl' /\ WF sl' (l1 ++ l2) /\
    height sl' = height sl /\ head sl' = head sl /\
    length (nodes sl') = length (nodes sl) /\
    (forall b, val (nodes sl') b = val (nodes sl) b).
Proof.
  intros W. set (L := l1 ++ a :: l2) in *. set (h := nodes sl). set (hd := head sl).
  destruct (wf_level0 _ _ W) as (Hseg0 & Hnd0 & Hmem0). fold h hd in Hseg0, Hnd0, Hmem0.
  assert (HaL : a ∈ L) by (subst L; apply elem_of_app; right; now left).
  assert (Hav : (a < length h)%nat) by (eapply lseg_valid; eauto; now right).
  destruct (load_valid _ _ Hav) as [n Hn].
  assert (Hnl : length (next n) = nlen h a).
  { unfold nlen. unfold load in Hn. destruct (h !! a); [ | discriminate ]. now injection Hn as ->. }
  assert (HL' : forall b, b ∈ l1 ++ l2 <-> b ∈ L /\ b <> a).
  { intros b. subst L. apply NoDup_cons in Hnd0 as [_ Hnd].
    apply NoDup_app in Hnd as (N1 & N2 & N3). apply NoDup_cons in N3 as [Ha N3].
    rewrite !elem_of_app, elem_of_cons. split.
    - intros [Hb|Hb]; (split; [ tauto | ]); intros ->; [ apply (N2 a Hb); now left | contradiction ].
    - intros [[Hb|[Hb|Hb]] Hne]; auto. contradiction. }
  destruct (unlink_from_spec hd L (l1 ++ l2) a HL' (nlen h a) 0 h) as (h' & E & A & Hch).
  { intros j Hj. destruct (wf_levels _ _ W j) as [Cj HCj].
    - destruct (wf_shape _ _ W a HaL) as [_ Hs]. pose proof (wf_height _ _ W). fold h in Hs. lia.
    - fold h hd in HCj. assert (Hin : a ∈ Cj) by (apply HCj; split; [ exact HaL | lia ]).
      apply list_elem_of_split in Hin as (c1 & c2 & ->). eauto. }
  unfold Skiplist_Remove. fold h. bind_ok Hn. rewrite Hnl. bind_ok E.
  eexists. split; [ reflexivity | ]. cbn [height head nodes].
  split; [ | split; [ reflexivity | split; [ reflexivity | split ] ] ].
  - split; cbn [height head nodes].
    + apply (wf_height _ _ W).
    + rewrite (ao_nlen _ _ _ A). apply (wf_head _ _ W).
    + apply (Hch 0%nat l1 l2).
      * destruct (wf_shape _ _ W a HaL) as [Hs _].
        destruct (lseg_levels _ _ _ _ _ Hseg0) as [Lv _]. specialize (Lv a). fold h in Hs.
        assert (0 < nlen h a)%nat by (apply Lv; now right). lia.
      * apply (wf_level0 _ _ W).
    + intros j Hj. destruct (wf_levels _ _ W j Hj) as [Cj HCj]. fold h hd in HCj.
      destruct (decide (j < nlen h a)%nat) as [Hlt|Hge].
      * assert (Hin : a ∈ Cj) by (apply HCj; split; [ exact HaL | lia ]).
        apply list_elem_of_split in Hin as (c1 & c2 & ->). exists (c1 ++ c2).
        apply Hch; [ lia | exact HCj ].
      * exists Cj. eapply chain_at_frame; [ | | | exact HCj ].
        -- intros b _. apply (ao_next _ _ _ A). cbn. lia.
        -- intros b _. apply (ao_prev _ _ _ A). cbn. lia.
        -- intros b. rewrite HL', (ao_nlen _ _ _ A). split; [ tauto | ].
           intros [Hb Hl]. split; [ | exact Hl ]. split; [ exact Hb | ]. intros ->. lia.
    + intros b Hb. apply HL' in Hb as [Hb _].
      rewrite (ao_nlen _ _ _ A), (ao_plen _ _ _ A). apply (wf_shape _ _ W b Hb).
    + eapply ordered_ext.
      * intros b _. apply Vof_val, (ao_val _ _ _ A).
      * pose proof (wf_ordered _ _ W) as Ho. fold h L in Ho. subst L. unfold ordered in *.
        apply StronglySorted_app in Ho as (O3 & O1 & O2).
        apply StronglySorted_inv in O2 as [O2 O4].
        apply StronglySorted_app_2; [ | exact O1 | exact O2 ].
        intros x y Hx Hy. apply O3; [ exact Hx | now right ].
    + rewrite (ao_val _ _ _ A). apply (wf_head_val _ _ W).
  - apply (ao_length _ _ _ A).
  - apply (ao_val _ _ _ A).
Qed.

(** ** compress *)

Lemma load_entry_at h a n : load h a = Ok n -> entry_at h a = value n.
Proof.
  unfold load, entry_at, val. destruct (h !! a); [ | discriminate ]. now intros [= ->].
Qed.

Lemma WF_valid sl L a : WF sl L -> a ∈ head sl :: L -> (a < length (nodes sl))%nat.
Proof.
  intros W Ha. destruct (wf_level0 _ _ W) as (Hseg & _ & _). eapply lseg_valid; eauto.
Qed.

(** Writing a value with the same [V] into a data node. *)
Lemma WF_set_value sl L a e :
  WF sl L -> a ∈ L -> V e = Vof (nodes sl) a ->
  exists h', set_value (nodes sl) a e = Ok h' /\ WF (with_nodes sl h') L /\
    entry_at h' a = e /\
    (forall b, b <> a -> val h' b = val (nodes sl) b) /\
    length h' = length (nodes sl).
Proof.
  intros W Ha HV.
  assert (Hav : (a < length (nodes sl))%nat) by (eapply WF_valid; eauto; now right).
  destruct (set_value_spec (nodes sl) a e Hav) as (h' & E & Hl & Hv & Hvo & Hn & Hp & Hnx & Hpv).
  exists h'. split; [ exact E | ].
  assert (Hch : forall j Cj, chain_at (nodes sl) (head sl) L j Cj -> chain_at h' (head sl) L j Cj).
  { intros j Cj HC. eapply chain_at_frame; [ | | | exact HC ]; auto.
    intros b. now rewrite Hn. }
  assert (Hhd : head sl <> a).
  { intros <-. destruct (wf_level0 _ _ W) as (_ & Hnd & _).
    apply NoDup_cons in Hnd as [Hnd _]. contradiction. }
  split; [ | split; [ unfold entry_at; now rewrite Hv | split; [ exact Hvo | exact Hl ] ] ].
  split; cbn [with_nodes height head nodes].
  - apply (wf_height _ _ W).
  - rewrite Hn. apply (wf_head _ _ W).
  - apply Hch, (wf_level0 _ _ W).
  - intros j Hj. destruct (wf_levels _ _ W j Hj) as [Cj HCj]. eauto.
  - intros b Hb. rewrite Hn, Hp. apply (wf_shape _ _ W b Hb).
  - eapply ordered_ext; [ | apply (wf_ordered _ _ W) ].
    intros b _. destruct (decide (b = a)) as [->|Hne].
    + unfold Vof at 1. rewrite Hv. cbn. exact HV.
    + apply Vof_val. now apply Hvo.
  - rewrite Hvo by exact Hhd. apply (wf_head_val _ _ W).
Qed.

(** One round of the sweep. *)
Lemma compress_step_spec sl done a b rest epsN missing :
  WF sl (done ++ a :: b :: rest) ->
  exists sl' done' missing' t',
    compress_step sl epsN missing a b = Ok (sl', missing') /\
    WF sl' (done' ++ b :: rest) /\
    entry_at (nodes sl') b = t' /\
    (forall c, c <> b -> val (nodes sl') c = val (nodes sl) c) /\
    (forall R, map (entry_at (nodes sl)) done' ++ compress_from epsN missing' t' R =
               map (entry_at (nodes sl)) done ++
               compress_from epsN missing (entry_at (nodes sl) a) (entry_at (nodes sl) b :: R)).
Proof.
  intros W. set (L := done ++ a :: b :: rest) in *.
  assert (HaL : a ∈ L) by (subst L; rewrite elem_of_app, elem_of_cons; auto).
  assert (HbL : b ∈ L) by (subst L; rewrite elem_of_app, !elem_of_cons; auto).
  destruct (load_valid (nodes sl) a) as [en Hen]; [ eapply WF_valid; eauto; now right | ].
  destruct (load_valid (nodes sl) b) as [nn Hnn]; [ eapply WF_valid; eauto; now right | ].
  pose proof (load_entry_at _ _ _ Hen) as Ea. pose proof (load_entry_at _ _ _ Hnn) as Eb.
  unfold compress_step. bind_ok Hen. bind_ok Hnn. rewrite <- Ea, <- Eb.
  set (t := entry_at (nodes sl) a). set (nt := entry_at (nodes sl) b).
  assert (HVb : Vof (nodes sl) b = V nt) by apply Vof_entry_at.
  assert (Hrm : forall e, V e = V nt ->
            exists h1 sl', set_value (nodes sl) b e = Ok h1 /\
              Skiplist_Remove (with_nodes sl h1) a = Ok sl' /\
              WF sl' (done ++ b :: rest) /\ entry_at (nodes sl') b = e /\
              (forall c, c <> b -> val (nodes sl') c = val (nodes sl) c)).
  { intros e He. destruct (WF_set_value sl L b e W HbL) as (h1 & E1 & W1 & Ev & Hvo & _); [ congruence | ].
    destruct (Skiplist_Remove_WF (with_nodes sl h1) done a (b :: rest) W1)
      as (sl' & E2 & W2 & _ & _ & _ & Hv2).
    exists h1, sl'. split; [ exact E1 | ]. split; [ exact E2 | ]. split; [ exact W2 | ].
    split.
    - unfold entry_at. rewrite Hv2. exact Ev.
    - intros c Hc. rewrite Hv2. now apply Hvo. }
  cbn [compress_from]. fold t nt.
  destruct (V t =? V nt).
  - set (e := {| V := V nt; G := G t; Delta := int_add (Delta nt) (int_add missing (G nt));
                 Samples := Samples nt ++ Samples t |}).
    destruct (Hrm e eq_refl) as (h1 & sl' & E1 & E2 & W' & Ev & Hvo).
    bind_ok E1. bind_ok E2.
    exists sl', done, (int_add missing (G nt)), e. (split; [ reflexivity | ]); (split; [ exact W' | ]);
      (split; [ exact Ev | ]); (split; [ exact Hvo | ]); intros R; reflexivity.
  - destruct (int_add (int_add (int_add (G t) (G nt)) missing) (Delta nt) <? epsN).
    + set (e := {| V := V nt; G := int_add (G nt) (int_add (G t) missing);
                   Delta := Delta nt; Samples := Samples nt ++ Samples t |}).
      destruct (Hrm e eq_refl) as (h1 & sl' & E1 & E2 & W' & Ev & Hvo).
      bind_ok E1. bind_ok E2.
      exists sl', done, 0, e. (split; [ reflexivity | ]); (split; [ exact W' | ]);
      (split; [ exact Ev | ]); (split; [ exact Hvo | ]); intros R; reflexivity.
    + set (e := {| V := V nt; G := int_add (G nt) missing; Delta := Delta nt; Samples := Samples nt |}).
      destruct (WF_set_value sl L b e W HbL) as (h1 & E1 & W1 & Ev & Hvo & _); [ cbn; congruence | ].
      bind_ok E1. exists (with_nodes sl h1), (done ++ [a]), 0, e.
      split; [ reflexivity | ]. split; [ now rewrite <- app_assoc | ].
      split; [ exact Ev | ]. split; [ exact Hvo | ].
      intros R. rewrite map_app, <- app_assoc. reflexivity.
Qed.

(** The sweep from the node [a] on. *)
Lemma compress_loop_spec epsN : forall rest sl done a missing fuel,
  WF sl (done ++ a :: rest) -> (length rest < fuel)%nat ->
  exists sl' L', compress_loop fuel sl epsN missing (Some a) = Ok sl' /\
    WF sl' L' /\
    map (entry_at (nodes sl')) L' =
      map (entry_at (nodes sl)) done ++
      compress_from epsN missing (entry_at (nodes sl) a) (map (entry_at (nodes sl)) rest).
Proof.
  induction rest as [|b rest IH]; intros sl done a missing fuel W Hfuel;
    (destruct fuel as [|fuel]; [ cbn in Hfuel; lia | ]); cbn [compress_loop].
  - destruct (wf_level0 _ _ W) as (Hseg & _ & _).
    destruct (lseg_at _ _ _ _ _ _ _ Hseg) as [_ Hnx]. bind_ok Hnx.
    exists sl, (done ++ [a]). split; [ reflexivity | ]. split; [ exact W | ].
    now rewrite map_app.
  - destruct (wf_level0 _ _ W) as (Hseg & Hnd & _).
    destruct (lseg_at _ _ _ _ _ _ _ Hseg) as [_ Hnx]. bind_ok Hnx.
    destruct (compress_step_spec sl done a b rest epsN missing W)
      as (sl1 & done' & missing' & t' & E & W1 & Ev & Hvo & HR).
    bind_ok E. cbv iota.
    destruct (IH sl1 done' b missing' fuel W1) as (sl' & L' & E' & W' & HL'); [ cbn in Hfuel; lia | ].
    exists sl', L'. split; [ exact E' | ]. split; [ exact W' | ].
    rewrite HL', Ev. cbn [map].
    destruct (wf_level0 _ _ W1) as (_ & Hnd1 & _).
    apply NoDup_cons in Hnd1 as [_ Hnd1]. apply NoDup_app in Hnd1 as (_ & Hd & Hr).
    apply NoDup_cons in Hr as [Hr _].
    rewrite (map_entry_ext (nodes sl) (nodes sl1) done'), (map_entry_ext (nodes sl) (nodes sl1) rest).
    + apply HR.
    + intros c Hc. apply Hvo. intros ->. contradiction.
    + intros c Hc. apply Hvo. intros ->. apply (Hd b Hc). now left.
Qed.

(** [compress] is the sweep on the sequence of tuples. *)
Lemma compress_holds s es :
  holds s es ->
  exists s', compress s = Ok s' /\ N s' = N s /\ EncodedData s' = EncodedData s /\
    holds s' (compress_list (band (N s)) es).
Proof.
  intros (sl & Hd & L & W & ->). unfold compress, the_data. rewrite Hd.
  change (Ok ?x ≫= ?f) with (f x). cbv beta.
  destruct (wf_level0 _ _ W) as (Hseg & _ & _). pose proof (WF_length _ _ W) as Hlen.
  destruct L as [|a rest]; cbn [lseg] in Hseg.
  - bind_ok Hseg. cbn [compress_loop]. change (Ok ?x ≫= ?f) with (f x). cbv beta.
    eexists. split; [ reflexivity | ]. split; [ reflexivity | ]. split; [ reflexivity | ].
    exists sl. split; [ reflexivity | ]. exists []. split; [ exact W | reflexivity ].
  - destruct Hseg as (H1 & _). bind_ok H1.
    destruct (compress_loop_spec (band (N s)) rest sl [] a 0 (S (length (nodes sl))) W)
      as (sl' & L' & E & W' & HL'); [ cbn [length] in Hlen; lia | ].
    bind_ok E. eexists. split; [ reflexivity | ]. split; [ reflexivity | ]. split; [ reflexivity | ].
    exists sl'. split; [ reflexivity | ]. exists L'. split; [ exact W' | ].
    cbn [map compress_list]. now rewrite HL'.
Qed.

(** ** Summary.Insert *)

Lemma place_stamped_split d e es1 es2 : forall first,
  Forall (fun x => V x <= V e) es1 -> Forall (fun x => V e < V x) es2 ->
  place_stamped first d e (es1 ++ es2) =
    es1 ++ (match es1, es2, first with
            | [], _, true => e
            | _, [], _ => e
            | _, _, _ => stamp d e
            end) :: es2.
Proof.
  intros first F1 F2. revert first. induction F1 as [|x es1 Hx F1 IH]; intros first; cbn [app place_stamped].
  - destruct F2 as [|y es2 Hy F2]; [ now destruct first | ]. cbn [place_stamped].
    destruct (Z.leb_spec (V y) (V e)); [ lia | ]. now destruct first.
  - destruct (Z.leb_spec (V x) (V e)); [ | lia ]. rewrite IH. f_equal. f_equal.
    destruct es1, es2; reflexivity.
Qed.

Lemma lastd_head hd l : NoDup (hd :: l) -> (lastd hd l = hd <-> l = []).
Proof.
  intros Hnd. split; [ | now intros -> ].
  intros E. destruct l as [|a l]; [ reflexivity | ]. exfalso.
  apply NoDup_cons in Hnd as [Hnd _]. apply Hnd.
  rewrite lastd_cons in E. rewrite <- E.
  destruct (lastd_in a l) as [->|Hin]; [ now left | now right ].
Qed.

(** Insert, on the sequence of tuples. *)
Lemma Summary_Insert_tuples s es v t n :
  holds s es -> 0 <= n < 2 ^ 31 - 1 ->
  exists s', Summary_Insert s v t n = Ok s' /\
    N s' = int_add (N s) 1 /\ EncodedData s' = EncodedData s /\
    holds s' (Insert_tuples (N s) v t es).
Proof.
  intros (sl & Hd & L & W & ->) Hn. unfold Summary_Insert, the_data. rewrite Hd.
  change (Ok ?x ≫= ?f) with (f x). cbv beta.
  set (e := {| V := v; G := 1; Delta := 0; Samples := [t] |}).
  destruct (Skiplist_Insert_WF sl L e n W Hn) as
    (sl1 & l1 & l2 & -> & E & W1 & Hv & Hold & _ & Hhd & F1 & F2).
  bind_ok E. cbv iota. set (node := length (nodes sl)) in *.
  destruct (wf_level0 _ _ W1) as (Hseg & Hnd & _).
  destruct (lseg_at _ _ _ _ _ _ _ Hseg) as [Hpv Hnx].
  assert (Hvalid : forall a, a ∈ l1 ++ l2 -> (a < length (nodes sl))%nat).
  { intros a Ha. eapply WF_valid; eauto. now right. }
  assert (Hmap : forall l, (forall a, a ∈ l -> a ∈ l1 ++ l2) ->
            map (entry_at (nodes sl1)) l = map (entry_at (nodes sl)) l).
  { intros l Hl. apply map_entry_ext. intros a Ha. apply Hold, Hvalid, Hl, Ha. }
  assert (Hen : entry_at (nodes sl1) node = e) by (unfold entry_at; now rewrite Hv).
  set (d := band (int_add (N s) 1)).
  set (e' := match l1, l2 with [], _ => e | _, [] => e | _, _ => stamp d e end).
  assert (Hstep : exists h,
            (interior ← is_interior sl1 node;
             if interior : bool then set_Delta (nodes sl1) node d else Ok (nodes sl1)) = Ok h /\
            WF (with_nodes sl1 h) (l1 ++ node :: l2) /\
            map (entry_at h) (l1 ++ node :: l2) =
              place_stamped true d e (map (entry_at (nodes sl)) (l1 ++ l2))).
  { assert (Hplace : place_stamped true d e (map (entry_at (nodes sl)) (l1 ++ l2)) =
              map (entry_at (nodes sl)) l1 ++ e' :: map (entry_at (nodes sl)) l2).
    { rewrite map_app, place_stamped_split.
      - subst e'. destruct l1, l2; reflexivity.
      - apply Forall_map_entry. eapply Forall_impl; [ exact F1 | ]. cbn. intros a.
        now rewrite Vof_entry_at.
      - apply Forall_map_entry. eapply Forall_impl; [ exact F2 | ]. cbn. intros a.
        now rewrite Vof_entry_at. }
    rewrite Hplace. unfold is_interior. bind_ok Hpv.
    assert (Hkeep : e' = e ->
              map (entry_at (nodes sl1)) (l1 ++ node :: l2) =
              map (entry_at (nodes sl)) l1 ++ e' :: map (entry_at (nodes sl)) l2).
    { intros ->. rewrite map_app. cbn [map]. rewrite Hen, !Hmap; [ reflexivity | | ];
        intros a Ha; apply elem_of_app; auto. }
    destruct (decide (Some (lastd (head sl1) l1) = Some (head sl1))) as [Heq|Hne].
    - change (Ok ?x ≫= ?f) with (f x). cbv beta iota.
      exists (nodes sl1). split; [ reflexivity | ]. split; [ now destruct sl1 | ].
      apply Hkeep. injection Heq as Heq. apply lastd_head in Heq.
      + subst l1. reflexivity.
      + apply NoDup_cons in Hnd as [Hh Hnd]. apply NoDup_cons. split.
        * intros Hin. apply Hh. apply elem_of_app. now left.
        * now apply NoDup_app in Hnd as (Hnd & _).
    - bind_ok Hnx. destruct l2 as [|b l2].
      + rewrite bool_decide_false by auto.
        exists (nodes sl1). split; [ reflexivity | ]. split; [ now destruct sl1 | ].
        apply Hkeep. subst e'. now destruct l1.
      + rewrite bool_decide_true by discriminate.
        assert (Hl1 : l1 <> []) by (intros ->; now apply Hne).
        unfold set_Delta.
        destruct (load_valid (nodes sl1) node) as [nn Hnn].
        { eapply WF_valid; eauto. right. apply elem_of_app. right. now left. }
        rewrite Hnn. repeat (change (Ok ?x ≫= ?f) with (f x); cbv beta iota).
        pose proof (load_entry_at _ _ _ Hnn) as En. rewrite <- En, Hen.
        destruct (WF_set_value sl1 (l1 ++ node :: b :: l2) node (stamp d e) W1)
          as (h & Eh & Wh & Ev & Hvo & _).
        { apply elem_of_app. right. now left. }
        { rewrite Vof_entry_at, Hen. reflexivity. }
        exists h. split; [ exact Eh | ]. split; [ exact Wh | ].
        apply NoDup_cons in Hnd as [_ Hnd]. apply NoDup_app in Hnd as (_ & Hd1 & Hd2).
        apply NoDup_cons in Hd2 as [Hd2 _].
        rewrite map_app, (map_cons _ node), Ev.
        rewrite (map_entry_ext (nodes sl1) h l1), (map_entry_ext (nodes sl1) h (b :: l2)).
        * rewrite !Hmap; [ | intros a Ha; apply elem_of_app; auto
                            | intros a Ha; apply elem_of_app; auto ].
          subst e'. destruct l1; [ contradiction | reflexivity ].
        * intros a Ha. apply Hvo. intros ->. contradiction.
        * intros a Ha. apply Hvo. intros ->. apply (Hd1 node Ha). now left. }
  destruct Hstep as (h & Eh & Wh & Hes).
  destruct (is_interior sl1 node) as [interior| |] eqn:Ei; try discriminate.
  change (Ok ?x ≫= ?f) with (f x) in Eh |- *. cbv beta in Eh |- *. bind_ok Eh.
  set (s1 := {| data := Some (with_nodes sl1 h); EncodedData := EncodedData s; N := int_add (N s) 1 |}).
  assert (H1 : holds s1 (place_stamped true d e (map (entry_at (nodes sl)) (l1 ++ l2)))).
  { exists (with_nodes sl1 h). split; [ reflexivity | ].
    exists (l1 ++ node :: l2). split; [ exact Wh | ]. now rewrite <- Hes. }
  unfold Insert_tuples. fold e d.
  destruct (Z.rem (int_add (N s) 1) compress_period =? 0).
  - destruct (compress_holds s1 _ H1) as (s' & E' & HN & HE & H').
    exists s'. split; [ exact E' | ]. split; [ exact HN | ]. split; [ exact HE | exact H' ].
  - exists s1. split; [ reflexivity | ]. split; [ reflexivity | ]. split; [ reflexivity | exact H1 ].
Qed.

(** ** Runs of Insert, BySlices, Quantile *)

Lemma NewSummary_holds : holds NewSummary [].
Proof. exists NewSkiplist. split; [ reflexivity | apply NewSkiplist_represents ]. Qed.

(** Any run of Insert returns, whatever the values, and is the run on
    the sequence of tuples. *)
Lemma insert_stream_tuples l : forall s es,
  holds s es -> Forall (fun x => 0 <= x.2 < 2 ^ 31 - 1) l ->
  exists s', insert_stream s l = Ok s' /\
    N s' = Nat.iter (length l) (fun x => int_add x 1) (N s) /\
    EncodedData s' = EncodedData s /\
    holds s' (stream_tuples (N s) es l).
Proof.
  induction l as [|[[v t] n] l IH]; intros s es H Hd; cbn [insert_stream stream_tuples length].
  - exists s. auto.
  - apply Forall_cons in Hd as [Hn Hd]. cbn [snd] in Hn.
    destruct (Summary_Insert_tuples s es v t n H Hn) as (s1 & E & HN & HE & H1).
    bind_ok E. destruct (IH s1 _ H1 Hd) as (s' & E' & HN' & HE' & H').
    exists s'. split; [ exact E' | ]. split; [ | split ].
    + rewrite HN', HN. now rewrite Nat.iter_succ_r.
    + congruence.
    + now rewrite <- HN.
Qed.

(** BySlices gives one slice per tuple, each starting where the one
    before ends, the first at 0. *)
Theorem BySlices_tuples s es : holds s es -> BySlices s = Ok (slices 0 es).
Proof.
  intros (sl & Hd & L & W & ->). unfold BySlices, the_data. rewrite Hd.
  change (Ok ?x ≫= ?f) with (f x). cbv beta.
  pose proof (WF_length _ _ W) as Hlen.
  destruct (wf_level0 _ _ W) as (Hseg & _ & _).
  assert (Hloop : forall l last fuel, lseg (nodes sl) 0 last l None ->
            (last < length (nodes sl))%nat -> (length l < fuel)%nat ->
            exists q, get_next (nodes sl) last 0 = Ok q /\
              BySlices_loop fuel (nodes sl) last q =
                Ok (slices (V (entry_at (nodes sl) last)) (map (entry_at (nodes sl)) l))).
  { induction l as [|c l IH]; intros last fuel Hs Hlast Hfuel;
      (destruct fuel as [|fuel]; [ cbn in Hfuel; lia | ]); cbn [lseg] in Hs.
    - exists None. split; [ exact Hs | reflexivity ].
    - destruct Hs as (H1 & H2 & H3). exists (Some c). split; [ exact H1 | ].
      cbn [BySlices_loop].
      destruct (load_valid _ _ Hlast) as [ln Hln]. bind_ok Hln.
      assert (Hc : (c < length (nodes sl))%nat).
      { apply plen_valid. assert (0 < plen (nodes sl) c)%nat by (apply get_prev_Ok; eauto). lia. }
      destruct (load_valid _ _ Hc) as [cn Hcn]. bind_ok Hcn.
      destruct (IH c fuel H3 Hc) as (q & Hq & Hrec); [ cbn in Hfuel; lia | ].
      apply get_next_load in Hq as (cn' & Hcn' & Hi & _).
      assert (cn' = cn) as -> by congruence. bind_ok Hi. bind_ok Hrec.
      cbn [map slices]. rewrite (load_entry_at _ _ _ Hln), (load_entry_at _ _ _ Hcn). reflexivity. }
  destruct (Hloop L (head sl) (S (length (nodes sl))) Hseg) as (q & Hq & Hrun).
  - eapply WF_valid; eauto. now left.
  - lia.
  - bind_ok Hq. rewrite Hrun. unfold entry_at. now rewrite (wf_head_val _ _ W).
Qed.

(** Quantile on an empty summary panics. *)
Theorem Quantile_empty s q : holds s [] -> Quantile s q = Panic NotReached.
Proof.
  intros (sl & Hd & L & W & HL). destruct L; [ | discriminate ].
  unfold Quantile, the_data. rewrite Hd. change (Ok ?x ≫= ?f) with (f x). cbv beta.
  destruct (wf_level0 _ _ W) as (Hseg & _ & _). cbn [lseg] in Hseg. bind_ok Hseg. reflexivity.
Qed.

(** Quantile on a summary that holds a tuple returns the value and the
    samples of one of its tuples. *)
Lemma Quantile_returns_tuple s es q :
  holds s es -> es <> [] ->
  exists t, t ∈ es /\ Quantile s q = Ok (V t, Samples t).
Proof.
  intros (sl & Hd & L & W & ->) Hne. unfold Quantile, the_data. rewrite Hd.
  change (Ok ?x ≫= ?f) with (f x). cbv beta.
  pose proof (WF_length _ _ W) as Hlen.
  destruct (wf_level0 _ _ W) as (Hseg & _ & _).
  destruct L as [|a L]; [ contradiction | ]. cbn [lseg] in Hseg. destruct Hseg as (H1 & _ & H3).
  bind_ok H1.
  generalize (F64.to_int (F64.add (F64.mul q (F64.of_int (N s))) half)) as r.
  generalize (F64.to_int (F64.mul EPSILON (F64.of_int (N s)))) as epsN.
  intros epsN r.
  assert (Hloop : forall l a rmin fuel, lseg (nodes sl) 0 a l None ->
            (length l < fuel)%nat ->
            exists t, t ∈ map (entry_at (nodes sl)) (a :: l) /\
              Quantile_loop fuel (nodes sl) r epsN rmin (Some a) = Ok (V t, Samples t)).
  { induction l as [|b l IH]; intros c rmin fuel Hs Hfuel;
      (destruct fuel as [|fuel]; [ cbn in Hfuel; lia | ]); cbn [lseg] in Hs; cbn [Quantile_loop].
    - apply get_next_load in Hs as (n & Hl & Hi & Hv). bind_ok Hl. bind_ok Hi.
      exists (entry_at (nodes sl) c). split; [ now left | now rewrite Hv ].
    - destruct Hs as (Hn & Hp & Hs).
      apply get_next_load in Hn as (n & Hl & Hi & Hv). bind_ok Hl. bind_ok Hi.
      assert (Hb : (b < length (nodes sl))%nat).
      { apply plen_valid. assert (0 < plen (nodes sl) b)%nat by (apply get_prev_Ok; eauto). lia. }
      destruct (load_valid _ _ Hb) as [nn Hnn]. bind_ok Hnn.
      pose proof (load_entry_at _ _ _ Hnn) as Hvb.
      destruct (_ <? _).
      + destruct (_ <? _).
        * exists (entry_at (nodes sl) c). split; [ now left | now rewrite Hv ].
        * exists (entry_at (nodes sl) b). split; [ right; now left | now rewrite Hvb ].
      + destruct (IH b (int_add rmin (G (value n))) fuel Hs) as (t & Ht & Hrun); [ cbn in Hfuel; lia | ].
        exists t. split; [ now right | exact Hrun ]. }
  apply Hloop; [ exact H3 | cbn [length] in Hlen; lia ].
Qed.

(** ** Weights *)

Lemma wrap64_small z : - 2 ^ 63 <= z < 2 ^ 63 -> wrap64 z = z.
Proof.
  intros Hz. unfold wrap64. rewrite Z.mod_small; lia.
Qed.

Lemma int_add_small a b : - 2 ^ 63 <= a + b < 2 ^ 63 -> int_add a b = a + b.
Proof. apply wrap64_small. Qed.

(** The count after [k] increments. *)
Lemma count_small k : forall n,
  0 <= n -> n + Z.of_nat k < 2 ^ 63 ->
  Nat.iter k (fun x => int_add x 1) n = n + Z.of_nat k.
Proof.
  induction k as [|k IH]; intros n Hn Hk.
  - cbn. lia.
  - rewrite Nat.iter_succ_r, int_add_small by lia. rewrite IH by lia. lia.
Qed.

Lemma elem_of_Lmap {A B} (f : A -> B) (l : list A) (y : B) :
  y ∈ map f l <-> exists x, f x = y /\ x ∈ l.
Proof.
  induction l as [|a l IH]; cbn [map].
  - split; [ intros H; inversion H | intros (x & _ & H); inversion H ].
  - rewrite elem_of_cons, IH. split.
    + intros [->|(x & Hx & Hin)]; [ exists a; split; [ reflexivity | now left ] | ].
      exists x. split; [ exact Hx | now right ].
    + intros (x & Hx & Hin). apply elem_of_cons in Hin as [->|Hin]; [ now left | right; eauto ].
Qed.

Lemma sum_G_cons e es : sum_G (e :: es) = G e + sum_G es.
Proof. reflexivity. Qed.

Lemma sum_G_app es1 es2 : sum_G (es1 ++ es2) = sum_G es1 + sum_G es2.
Proof.
  induction es1 as [|e es1 IH]; [ reflexivity | ].
  cbn [app]. rewrite !sum_G_cons, IH. lia.
Qed.

Lemma weighted_sum_nonneg es : weighted es -> 0 <= sum_G es.
Proof.
  induction 1 as [|e es He _ IH]; [ cbn; lia | ]. rewrite sum_G_cons. lia.
Qed.

(** Where [place_stamped] puts the tuple: the weights and the values are
    those of [e] and of [es]. *)
Lemma place_stamped_facts d e : forall es first,
  exists es1 es2 e', es = es1 ++ es2 /\ place_stamped first d e es = es1 ++ e' :: es2 /\
    V e' = V e /\ G e' = G e /\ Samples e' = Samples e /\
    Forall (fun x => V x <= V e) es1 /\
    match es2 with x :: _ => V e < V x | [] => True end.
Proof.
  induction es as [|x es IH]; intros first; cbn [place_stamped].
  - exists [], [], e. repeat split; auto.
  - destruct (Z.leb_spec (V x) (V e)) as [Hle|Hgt].
    + destruct (IH false) as (es1 & es2 & e' & -> & -> & H1 & H2 & H3 & H4 & H5).
      exists (x :: es1), es2, e'. repeat split; auto.
    + exists [], (x :: es), (if first then e else stamp d e).
      repeat split; auto; now destruct first.
Qed.

Lemma ascending_place d e es first :
  ascending es -> V e ∉ map V es ->
  ascending (place_stamped first d e es).
Proof.
  intros Ha Hnew.
  destruct (place_stamped_facts d e es first) as (es1 & es2 & e' & -> & -> & HV & _ & _ & H1 & H2).
  unfold ascending in *. apply StronglySorted_app in Ha as (H12 & Hs1 & Hs2).
  assert (Hlt1 : Forall (fun x => V x < V e) es1).
  { apply Forall_forall. intros x Hx. eapply Forall_forall in H1; [ | exact Hx ].
    cbn in H1. destruct (Z.eq_dec (V x) (V e)) as [Heq|Hne]; [ | lia ].
    exfalso. apply Hnew. apply elem_of_Lmap. exists x. split; [ exact Heq | ].
    apply elem_of_app. now left. }
  assert (Hlt2 : Forall (fun x => V e < V x) es2).
  { destruct es2 as [|y es2]; [ constructor | ].
    apply StronglySorted_inv in Hs2 as [_ Hall]. constructor; [ exact H2 | ].
    eapply Forall_impl; [ exact Hall | ]. cbn. intros. lia. }
  apply StronglySorted_app_2; [ | exact Hs1 | ].
  - intros x y Hx Hy. apply elem_of_cons in Hy as [->|Hy]; [ | now apply H12 ].
    rewrite HV. eapply Forall_forall in Hlt1; eauto.
  - constructor; [ exact Hs2 | ]. rewrite HV. exact Hlt2.
Qed.

(** On tuples of pairwise distinct values the sweep only moves weight
    from a tuple to the next: the weights keep their sum. *)
Lemma compress_from_distinct epsN : forall rest t,
  ascending (t :: rest) -> weighted (t :: rest) -> G t + sum_G rest < 2 ^ 63 ->
  let es' := compress_from epsN 0 t rest in
  sum_G es' = G t + sum_G rest /\ weighted es' /\ ascending es' /\
  forall x, x ∈ es' -> V x ∈ map V (t :: rest).
Proof.
  induction rest as [|nt rest IH]; intros t Ha Hw Hsum; cbn [compress_from].
  - cbn zeta. split; [ rewrite !sum_G_cons; reflexivity | ].
    split; [ exact Hw | ]. split; [ exact Ha | ].
    intros x Hx. apply list_elem_of_singleton in Hx as ->. now left.
  - unfold ascending in Ha. apply StronglySorted_inv in Ha as [Ha Hall].
    pose proof Hall as Hall'. apply Forall_cons in Hall' as [Hlt Hall'].
    destruct (Z.eqb_spec (V t) (V nt)) as [Heq|_]; [ lia | ].
    unfold weighted in Hw. apply Forall_cons in Hw as [Ht Hw].
    pose proof Hw as Hw'. apply Forall_cons in Hw' as [Hnt Hw'].
    pose proof (weighted_sum_nonneg _ Hw') as Hpos.
    rewrite sum_G_cons in Hsum.
    destruct (_ <? epsN).
    + rewrite (int_add_small (G t) 0), Z.add_0_r, int_add_small by lia.
      set (t' := {| V := V nt; G := G nt + G t; Delta := Delta nt;
                    Samples := Samples nt ++ Samples t |}).
      destruct (IH t') as (I1 & I2 & I3 & I4).
      * apply StronglySorted_inv in Ha as [Ha Hall2]. constructor; [ exact Ha | exact Hall2 ].
      * constructor; [ cbn; lia | exact Hw' ].
      * cbn. lia.
      * cbn zeta. split; [ rewrite I1, sum_G_cons; cbn; lia | ].
        split; [ exact I2 | ]. split; [ exact I3 | ].
        intros x Hx. apply I4 in Hx. cbn [map] in Hx |- *. now right.
    + rewrite (int_add_small (G nt) 0), Z.add_0_r by lia.
      set (t' := {| V := V nt; G := G nt; Delta := Delta nt; Samples := Samples nt |}).
      destruct (IH t') as (I1 & I2 & I3 & I4).
      * apply StronglySorted_inv in Ha as [Ha Hall2]. constructor; [ exact Ha | exact Hall2 ].
      * constructor; [ cbn; lia | exact Hw' ].
      * cbn. lia.
      * cbn zeta. split; [ rewrite sum_G_cons, I1, sum_G_cons; cbn; lia | ].
        split; [ constructor; [ exact Ht | exact I2 ] | ]. split.
        -- constructor; [ exact I3 | ]. apply Forall_forall. intros x Hx.
           apply I4 in Hx. cbn [map] in Hx.
           assert (Hin : V x ∈ map V (nt :: rest)) by exact Hx.
           apply elem_of_Lmap in Hin as (y & <- & Hy).
           eapply Forall_forall in Hall; eauto.
        -- intros x Hx. apply elem_of_cons in Hx as [->|Hx]; [ now left | ].
           apply I4 in Hx. cbn [map] in Hx |- *. now right.
Qed.

Lemma Insert_tuples_distinct n v t es :
  ascending es -> weighted es -> sum_G es = n -> 0 <= n -> n + 1 < 2 ^ 63 ->
  v ∉ map V es ->
  let es' := Insert_tuples n v t es in
  ascending es' /\ weighted es' /\ sum_G es' = n + 1 /\
  forall x, x ∈ es' -> V x = v \/ V x ∈ map V es.
Proof.
  intros Ha Hw Hs Hn Hb Hnew. unfold Insert_tuples.
  rewrite (int_add_small n 1) by lia.
  set (e := {| V := v; G := 1; Delta := 0; Samples := [t] |}).
  set (es1 := place_stamped true (band (n + 1)) e es).
  assert (A1 : ascending es1) by (apply ascending_place; auto).
  destruct (place_stamped_facts (band (n + 1)) e es true)
    as (l1 & l2 & e' & Hes & Hes1 & HV & HG & _ & _ & _).
  fold es1 in Hes1.
  assert (W1 : weighted es1).
  { rewrite Hes1. rewrite Hes in Hw. unfold weighted in *.
    apply Forall_app in Hw as [W1 W2]. apply Forall_app. split; [ exact W1 | ].
    constructor; [ rewrite HG; cbn; lia | exact W2 ]. }
  assert (S1 : sum_G es1 = n + 1).
  { rewrite Hes1, sum_G_app, sum_G_cons, HG. rewrite Hes, sum_G_app in Hs. cbn [G e]. lia. }
  assert (V1 : forall x, x ∈ es1 -> V x = v \/ V x ∈ map V es).
  { intros x Hx. rewrite Hes1 in Hx. rewrite Hes.
    rewrite elem_of_app, elem_of_cons in Hx. rewrite map_app, elem_of_app, !elem_of_Lmap.
    destruct Hx as [Hx|[->|Hx]]; [ right; left; eauto | left; exact HV | right; right; eauto ]. }
  cbv zeta. destruct (Z.rem (n + 1) compress_period =? 0); [ | auto ].
  unfold compress_list. destruct es1 as [|t1 rest]; [ auto | ].
  destruct (compress_from_distinct (band (n + 1)) rest t1 A1 W1) as (I1 & I2 & I3 & I4).
  { rewrite sum_G_cons in S1. lia. }
  split; [ exact I3 | ]. split; [ exact I2 | ]. split; [ now rewrite I1, <- sum_G_cons | ].
  intros x Hx. apply I4, elem_of_Lmap in Hx as (y & Hy & Hin). rewrite <- Hy. now apply V1.
Qed.

Lemma stream_tuples_distinct l : forall n es,
  ascending es -> weighted es -> sum_G es = n -> 0 <= n ->
  n + Z.of_nat (length l) < 2 ^ 63 ->
  NoDup (map (fun x => x.1.1) l) ->
  (forall x, x ∈ es -> V x ∉ map (fun x => x.1.1) l) ->
  sum_G (stream_tuples n es l) = n + Z.of_nat (length l) /\
  ascending (stream_tuples n es l).
Proof.
  induction l as [|[[v t] d] l IH]; intros n es Ha Hw Hs Hn Hb Hnd Hfresh;
    cbn [stream_tuples length map fst] in *.
  - split; [ lia | exact Ha ].
  - apply NoDup_cons in Hnd as [Hv Hnd].
    destruct (Insert_tuples_distinct n v t es Ha Hw Hs Hn) as (A1 & W1 & S1 & V1); [ lia | | ].
    { intros Hin. apply elem_of_Lmap in Hin as (x & Hx & Hin).
      apply (Hfresh x Hin). rewrite Hx. now left. }
    rewrite (int_add_small n 1) by lia.
    destruct (IH (n + 1) (Insert_tuples n v t es) A1 W1 S1) as [I1 I2]; [ lia | lia | exact Hnd | | ].
    + intros x Hx Hin. destruct (V1 x Hx) as [Heq|Hold]; [ rewrite Heq in Hin; contradiction | ].
      apply elem_of_Lmap in Hold as (y & Hy & Hyin).
      apply (Hfresh y Hyin). rewrite Hy. now right.
    + split; [ rewrite I1; lia | exact I2 ].
Qed.

(** The count of a summary is the number of Inserts, and when the
    inserted values are pairwise distinct the weights of the tuples add
    up to it. *)
Theorem distinct_values_keep_weight (l : list (Z * Z * Z)) :
  Forall (fun x => 0 <= x.2 < 2 ^ 31 - 1) l ->
  Z.of_nat (length l) < 2 ^ 63 ->
  NoDup (map (fun x => x.1.1) l) ->
  exists s' sl es, insert_stream NewSummary l = Ok s' /\
    data s' = Some sl /\ entries sl = Ok es /\
    N s' = Z.of_nat (length l) /\ sum_G es = N s'.
Proof.
  intros Hd Hlen Hnd.
  destruct (insert_stream_tuples l NewSummary [] NewSummary_holds Hd) as (s' & E & HN & _ & H).
  destruct H as (sl & Hdata & R). exists s', sl, (stream_tuples 0 [] l).
  split; [ exact E | ]. split; [ exact Hdata | ]. split; [ now apply entries_represents | ].
  cbn [N NewSummary] in HN. rewrite count_small in HN by lia.
  split; [ rewrite HN; lia | ].
  destruct (stream_tuples_distinct l 0 []) as [S _];
    [ constructor | constructor | reflexivity | lia | lia | exact Hnd
    | intros x Hx; inversion Hx | ].
  rewrite HN. exact S.
Qed.

(** ** Values *)

(** The tuples of a skiplist are in ascending order of value. *)
Lemma represents_sorted sl es :
  represents sl es -> StronglySorted (fun x y => V x <= V y) es.
Proof.
  intros (L & W & ->). pose proof (wf_ordered _ _ W) as Ho. unfold ordered in Ho.
  clear W. induction Ho as [|a l Hs IH Hall]; cbn [map]; [ constructor | ].
  constructor; [ exact IH | ]. apply Forall_map_entry. eapply Forall_impl; [ exact Hall | ].
  cbn. intros b. now rewrite !Vof_entry_at.
Qed.

(** The sweep invents no value and never ends on nothing. *)
Lemma compress_from_values epsN : forall rest missing t x,
  x ∈ compress_from epsN missing t rest -> V x ∈ map V (t :: rest).
Proof.
  induction rest as [|nt rest IH]; intros missing t x; cbn [compress_from].
  - intros Hx. apply list_elem_of_singleton in Hx as ->. now left.
  - destruct (V t =? V nt); [ | destruct (_ <? epsN) ]; intros Hx.
    + apply IH in Hx. cbn [map V] in Hx |- *. now right.
    + apply IH in Hx. cbn [map V] in Hx |- *. now right.
    + apply elem_of_cons in Hx as [->|Hx]; [ now left | ].
      apply IH in Hx. cbn [map V] in Hx |- *. now right.
Qed.

Lemma compress_from_nonempty epsN : forall rest missing t, compress_from epsN missing t rest <> [].
Proof.
  induction rest as [|nt rest IH]; intros missing t; cbn [compress_from]; [ discriminate | ].
  destruct (V t =? V nt); [ apply IH | ]. destruct (_ <? epsN); [ apply IH | discriminate ].
Qed.

Lemma Insert_tuples_values n v t es x :
  x ∈ Insert_tuples n v t es -> V x = v \/ V x ∈ map V es.
Proof.
  unfold Insert_tuples.
  set (e := {| V := v; G := 1; Delta := 0; Samples := [t] |}).
  destruct (place_stamped_facts (band (int_add n 1)) e es true)
    as (l1 & l2 & e' & Hes & -> & HV & _).
  assert (V1 : forall y, y ∈ l1 ++ e' :: l2 -> V y = v \/ V y ∈ map V es).
  { intros y Hy. rewrite Hes, map_app, elem_of_app, !elem_of_Lmap.
    rewrite elem_of_app, elem_of_cons in Hy.
    destruct Hy as [Hy|[->|Hy]]; [ right; left; eauto | left; exact HV | right; right; eauto ]. }
  destruct (Z.rem _ _ =? 0); [ | apply V1 ].
  unfold compress_list. destruct (l1 ++ e' :: l2) as [|t1 rest]; [ intros H; inversion H | ].
  intros Hx. apply compress_from_values, elem_of_Lmap in Hx as (y & <- & Hy). now apply V1.
Qed.

Lemma Insert_tuples_nonempty n v t es : Insert_tuples n v t es <> [].
Proof.
  unfold Insert_tuples.
  set (e := {| V := v; G := 1; Delta := 0; Samples := [t] |}).
  destruct (place_stamped_facts (band (int_add n 1)) e es true)
    as (l1 & l2 & e' & Hes & -> & _).
  destruct (Z.rem _ _ =? 0).
  - unfold compress_list. destruct (l1 ++ e' :: l2) as [|t1 rest] eqn:E.
    + now destruct l1.
    + apply compress_from_nonempty.
  - now destruct l1.
Qed.

Lemma stream_tuples_values l : forall n es x,
  x ∈ stream_tuples n es l -> V x ∈ map V es \/ V x ∈ map (fun y => y.1.1) l.
Proof.
  induction l as [|[[v t] d] l IH]; intros n es x; cbn [stream_tuples map fst].
  - intros Hx. left. apply elem_of_Lmap. eauto.
  - intros Hx. apply IH in Hx as [Hx|Hx]; [ | right; now right ].
    apply elem_of_Lmap in Hx as (y & <- & Hy).
    apply Insert_tuples_values in Hy as [->|Hy]; [ right; now left | now left ].
Qed.

Lemma stream_tuples_nonempty l : forall n es, l <> [] -> stream_tuples n es l <> [].
Proof.
  induction l as [|[[v t] d] l IH]; intros n es Hl; [ contradiction | ].
  cbn [stream_tuples]. destruct l as [|c l]; [ apply Insert_tuples_nonempty | ].
  apply IH. discriminate.
Qed.

(** After any run of Insert the tuples are in ascending order of value
    and hold inserted values only. *)
Theorem tuples_sorted_inserted (l : list (Z * Z * Z)) :
  Forall (fun x => 0 <= x.2 < 2 ^ 31 - 1) l ->
  exists s' sl es, insert_stream NewSummary l = Ok s' /\
    data s' = Some sl /\ entries sl = Ok es /\
    StronglySorted (fun x y => V x <= V y) es /\
    forall x, x ∈ es -> V x ∈ map (fun y => y.1.1) l.
Proof.
  intros Hd.
  destruct (insert_stream_tuples l NewSummary [] NewSummary_holds Hd) as (s' & E & _ & _ & H).
  destruct H as (sl & Hdata & R). exists s', sl, (stream_tuples 0 [] l).
  split; [ exact E | ]. split; [ exact Hdata | ]. split; [ now apply entries_represents | ].
  split; [ now apply (represents_sorted sl) | ].
  intros x Hx. apply stream_tuples_values in Hx as [Hx|Hx]; [ inversion Hx | exact Hx ].
Qed.

(** After at least one Insert, Quantile returns, and what it returns is
    one of the inserted values. *)
Theorem Quantile_returns_inserted (l : list (Z * Z * Z)) (q : F64.float64) :
  Forall (fun x => 0 <= x.2 < 2 ^ 31 - 1) l -> l <> [] ->
  exists s' v samples, insert_stream NewSummary l = Ok s' /\
    Quantile s' q = Ok (v, samples) /\ v ∈ map (fun y => y.1.1) l.
Proof.
  intros Hd Hl.
  destruct (insert_stream_tuples l NewSummary [] NewSummary_holds Hd) as (s' & E & _ & _ & H).
  destruct (Quantile_returns_tuple s' _ q H (stream_tuples_nonempty l 0 [] Hl)) as (t & Ht & Hq).
  exists s', (V t), (Samples t). split; [ exact E | ]. split; [ exact Hq | ].
  apply stream_tuples_values in Ht as [Ht|Ht]; [ inversion Ht | exact Ht ].
Qed.

(** ** Decoding and merging *)

(** Tuples in ascending order inserted one by one after the tuple [z]:
    those below [z] end up before it, in their order, the others after. *)
Lemma place_run_after z : forall es,
  StronglySorted (fun x y => V x <= V y) es ->
  exists es1 es2, es = es1 ++ es2 /\
    fold_left (fun acc e => place e acc) es [z] = es1 ++ z :: es2 /\
    Forall (fun x => V x < V z) es1 /\ Forall (fun x => V z <= V x) es2.
Proof.
  induction es as [|e es IH] using rev_ind; intros Hs.
  - exists [], []. repeat split; constructor.
  - apply StronglySorted_app in Hs as (Hle & Hs & _).
    destruct (IH Hs) as (a1 & a2 & -> & Hf & F1 & F2).
    rewrite fold_left_app. cbn [fold_left]. rewrite Hf.
    assert (Hall : Forall (fun x => V x <= V e) (a1 ++ a2)).
    { apply Forall_forall. intros x Hx. apply Hle; [ exact Hx | now left ]. }
    apply Forall_app in Hall as [H1 H2].
    destruct (Z.lt_ge_cases (V e) (V z)) as [Hlt|Hge].
    + assert (a2 = []) as ->.
      { destruct a2 as [|x a2]; [ reflexivity | ].
        apply Forall_cons in F2 as [F2 _]. apply Forall_cons in H2 as [H2 _]. lia. }
      exists (a1 ++ [e]), []. rewrite !app_nil_r.
      split; [ reflexivity | ]. split.
      * rewrite (place_split e a1 [z]); [ now rewrite <- app_assoc | exact H1 | ].
        constructor; [ exact Hlt | constructor ].
      * split; [ | constructor ]. apply Forall_app. split; [ exact F1 | ].
        constructor; [ exact Hlt | constructor ].
    + exists a1, (a2 ++ [e]). split; [ now rewrite app_assoc | ]. split.
      * rewrite <- (app_nil_r (a1 ++ z :: a2)), place_split.
        -- now rewrite <- app_assoc.
        -- apply Forall_app. split; [ exact H1 | ]. constructor; [ exact Hge | exact H2 ].
        -- constructor.
      * split; [ exact F1 | ]. apply Forall_app. split; [ exact F2 | ].
        constructor; [ exact Hge | constructor ].
Qed.

Lemma flatten_represents sl es : represents sl es -> flatten sl = Ok (zeroEntry :: es).
Proof. intros (L & W & ->). now apply flatten_WF. Qed.

(** What the decoders build from a flattened skiplist. *)
Lemma rebuild_flattened sl es n draws :
  represents sl es -> (forall k, 0 <= draws k < 2 ^ 31 - 1) ->
  exists s' es1 es2, rebuild (zeroEntry :: es) n draws = Ok s' /\
    N s' = n /\ EncodedData s' = zeroEntry :: es /\
    es = es1 ++ es2 /\ holds s' (es1 ++ zeroEntry :: es2) /\
    Forall (fun x => V x < 0) es1 /\ Forall (fun x => 0 <= V x) es2.
Proof.
  intros R Hd. unfold rebuild.
  destruct (insert_all_places draws Hd (zeroEntry :: es) NewSkiplist [] 0%nat NewSkiplist_represents)
    as (sl' & E & R').
  bind_ok E. cbn [fold_left place] in R'.
  destruct (place_run_after zeroEntry es (represents_sorted _ _ R)) as (es1 & es2 & Hes & Hf & F1 & F2).
  rewrite Hf in R'. eexists _, es1, es2. split; [ reflexivity | ].
  split; [ reflexivity | ]. split; [ reflexivity | ]. split; [ exact Hes | ].
  split; [ | split; assumption ].
  exists sl'. split; [ reflexivity | exact R' ].
Qed.

Section RoundTripTuples.
Context {payload error : Type}.
Variable json_Marshal : list Entry -> Z -> payload.
Variable json_Unmarshal : payload -> list Entry * Z * option error.
Variable gob_Encode : list Entry -> Z -> payload * option error.
Variable gob_Decode : payload -> list Entry * Z * option error.
Hypothesis json_round_trip : forall d n, json_Unmarshal (json_Marshal d n) = (d, n, None).
Hypothesis gob_round_trip : forall d n, gob_Decode (gob_Encode d n).1 = (d, n, None).

(** With a JSON library that gives back what it was given, decoding the
    encoding of any summary yields the same count and the same tuples
    with one more among them: the zero tuple of the head node, before the
    first tuple of value 0 or more. *)
Theorem json_round_trip_tuples (s receiver : Summary) (es : list Entry) (draws : nat -> Z) :
  holds s es -> (forall k, 0 <= draws k < 2 ^ 31 - 1) ->
  exists b s' es1 es2,
    MarshalJSON (error := error) json_Marshal s = Ok (b, None) /\
    UnmarshalJSON json_Unmarshal receiver b draws = Ok (s', None) /\
    N s' = N s /\ es = es1 ++ es2 /\ holds s' (es1 ++ zeroEntry :: es2) /\
    Forall (fun x => V x < 0) es1 /\ Forall (fun x => 0 <= V x) es2.
Proof.
  intros (sl & Hdata & R) Hd. unfold MarshalJSON, UnmarshalJSON. rewrite Hdata.
  rewrite (flatten_represents _ _ R). change (Ok ?x ≫= ?f) with (f x). cbv beta.
  destruct (rebuild_flattened sl es (N s) draws R Hd) as (s' & es1 & es2 & E & HN & _ & Hes & H & F1 & F2).
  exists (json_Marshal (zeroEntry :: es) (N s)), s', es1, es2.
  split; [ reflexivity | ]. rewrite json_round_trip. bind_ok E.
  repeat (split; [ first [ reflexivity | assumption ] | ]). assumption.
Qed.

(** The same for gob; GobEncode also leaves the flattened tuples in the
    receiver's [EncodedData]. *)
Theorem gob_round_trip_tuples (s receiver : Summary) (es : list Entry) (draws : nat -> Z) :
  holds s es -> (forall k, 0 <= draws k < 2 ^ 31 - 1) ->
  exists s1 b err s' es1 es2,
    GobEncode gob_Encode s = Ok (s1, (b, err)) /\
    EncodedData s1 = zeroEntry :: es /\ data s1 = data s /\ N s1 = N s /\
    GobDecode gob_Decode receiver b draws = Ok (s', None) /\
    N s' = N s /\ es = es1 ++ es2 /\ holds s' (es1 ++ zeroEntry :: es2) /\
    Forall (fun x => V x < 0) es1 /\ Forall (fun x => 0 <= V x) es2.
Proof.
  intros (sl & Hdata & R) Hd. unfold GobEncode, GobDecode, the_data. rewrite Hdata.
  change (Ok ?x ≫= ?f) with (f x). cbv beta.
  rewrite (flatten_represents _ _ R). change (Ok ?x ≫= ?f) with (f x). cbv beta.
  destruct (rebuild_flattened sl es (N s) draws R Hd) as (s' & es1 & es2 & E & HN & _ & Hes & H & F1 & F2).
  pose proof (gob_round_trip (zeroEntry :: es) (N s)) as Hrt.
  destruct (gob_Encode (zeroEntry :: es) (N s)) as [b err] eqn:Eenc. cbn [fst] in Hrt.
  eexists _, b, err, s', es1, es2.
  split; [ reflexivity | ]. cbn [EncodedData data N].
  split; [ reflexivity | ]. split; [ reflexivity | ]. split; [ reflexivity | ].
  rewrite Hrt. bind_ok E.
  repeat (split; [ first [ reflexivity | assumption ] | ]). assumption.
Qed.
End RoundTripTuples.

(** Merge, for a summary that holds tuples and has a count other than 0:
    the zero tuple of its head node and its tuples are inserted in
    order, then the sweep runs with the new count. *)
Theorem Merge_tuples (s s2 : Summary) (es es2 : list Entry) (draws : nat -> Z) :
  holds s es -> holds s2 es2 -> N s2 <> 0 -> (forall k, 0 <= draws k < 2 ^ 31 - 1) ->
  exists s', Merge s s2 draws = Ok s' /\
    N s' = int_add (N s) (N s2) /\ EncodedData s' = EncodedData s /\
    holds s' (compress_list (band (int_add (N s) (N s2)))
                (fold_left (fun acc e => place e acc) (zeroEntry :: es2) es)).
Proof.
  intros (sl & Hdata & R) (sl2 & Hdata2 & R2) HN Hd. unfold Merge, the_data.
  rewrite Hdata2, Hdata. destruct (Z.eqb_spec (N s2) 0) as [|_]; [ contradiction | ].
  change (Ok ?x ≫= ?f) with (f x). cbv beta.
  pose proof (flatten_represents _ _ R2) as Hflat. unfold flatten in Hflat.
  rewrite (Merge_loop_walk _ _ _ _ _ _ _ Hflat).
  destruct (insert_all_places draws Hd (zeroEntry :: es2) sl es 0%nat R) as (sl' & E & R').
  bind_ok E.
  destruct (compress_holds {| data := Some sl'; EncodedData := EncodedData s;
                               N := int_add (N s) (N s2) |} _
              (ex_intro _ sl' (conj eq_refl R'))) as (s' & E' & HN' & HE' & H').
  exists s'. auto.
Qed.

(** ** The largest value *)

(** The sweep keeps the order, and drops a tuple only into a later one
    of a value at least as large. *)
Lemma compress_from_covers epsN : forall rest missing t,
  sorted_by_value (t :: rest) ->
  let es' := compress_from epsN missing t rest in
  sorted_by_value es' /\ Forall (fun y => V t <= V y) es' /\
  forall x, x ∈ t :: rest -> exists y, y ∈ es' /\ V x <= V y.
Proof.
  unfold sorted_by_value.
  induction rest as [|nt rest IH]; intros missing t Hs; cbn [compress_from]; cbv zeta.
  - split; [ exact Hs | ]. split; [ constructor; [ lia | constructor ] | ].
    intros x Hx. exists x. split; [ exact Hx | lia ].
  - apply StronglySorted_inv in Hs as [Hs Hall].
    pose proof Hall as Hall'. apply Forall_cons in Hall' as [Hle _].
    assert (Hnext : forall m t', V t' = V nt ->
              StronglySorted (fun x y => V x <= V y) (compress_from epsN m t' rest) /\
              Forall (fun y => V nt <= V y) (compress_from epsN m t' rest) /\
              forall x, x ∈ nt :: rest -> exists y, y ∈ compress_from epsN m t' rest /\ V x <= V y).
    { intros m t' Ht'. destruct (IH m t') as (I1 & I2 & I3).
      - apply StronglySorted_inv in Hs as [Hs' Hall2]. constructor; [ exact Hs' | ].
        rewrite Ht'. exact Hall2.
      - split; [ exact I1 | ]. split; [ now rewrite <- Ht' | ].
        intros x Hx. apply elem_of_cons in Hx as [->|Hx].
        + destruct (I3 t') as (y & Hy & Hle'); [ now left | ]. exists y. split; [ exact Hy | lia ].
        + apply I3. now right. }
    assert (Hdrop : forall m t', V t' = V nt ->
              StronglySorted (fun x y => V x <= V y) (compress_from epsN m t' rest) /\
              Forall (fun y => V t <= V y) (compress_from epsN m t' rest) /\
              forall x, x ∈ t :: nt :: rest ->
                exists y, y ∈ compress_from epsN m t' rest /\ V x <= V y).
    { intros m t' Ht'. destruct (Hnext m t' Ht') as (I1 & I2 & I3).
      split; [ exact I1 | ]. split.
      - eapply Forall_impl; [ exact I2 | ]. cbn. intros. lia.
      - intros x Hx. apply elem_of_cons in Hx as [->|Hx]; [ | now apply I3 ].
        destruct (I3 nt) as (y & Hy & Hle'); [ now left | ]. exists y. split; [ exact Hy | lia ]. }
    destruct (V t =? V nt); [ now apply Hdrop | ].
    destruct (_ <? epsN); [ now apply Hdrop | ].
    destruct (Hnext 0 {| V := V nt; G := int_add (G nt) missing; Delta := Delta nt;
                         Samples := Samples nt |} eq_refl) as (I1 & I2 & I3).
    split; [ | split ].
    + constructor; [ exact I1 | ]. eapply Forall_impl; [ exact I2 | ]. cbn. intros. lia.
    + constructor; [ lia | ]. eapply Forall_impl; [ exact I2 | ]. cbn. intros. lia.
    + intros x Hx. apply elem_of_cons in Hx as [->|Hx].
      * exists t. split; [ now left | lia ].
      * destruct (I3 x Hx) as (y & Hy & Hle'). exists y. split; [ now right | exact Hle' ].
Qed.

Lemma sorted_place d e es first :
  sorted_by_value es -> sorted_by_value (place_stamped first d e es).
Proof.
  unfold sorted_by_value. intros Hs.
  destruct (place_stamped_facts d e es first) as (es1 & es2 & e' & -> & -> & HV & _ & _ & H1 & H2).
  apply StronglySorted_app in Hs as (H12 & Hs1 & Hs2).
  apply StronglySorted_app_2; [ | exact Hs1 | ].
  - intros x y Hx Hy. apply elem_of_cons in Hy as [->|Hy]; [ | now apply H12 ].
    rewrite HV. eapply Forall_forall in H1; eauto.
  - constructor; [ exact Hs2 | ]. rewrite HV.
    destruct es2 as [|y es2]; [ constructor | ].
    apply StronglySorted_inv in Hs2 as [_ Hall]. constructor; [ lia | ].
    eapply Forall_impl; [ exact Hall | ]. cbn. intros. lia.
Qed.

Lemma Insert_tuples_covers n v t es :
  sorted_by_value es ->
  sorted_by_value (Insert_tuples n v t es) /\
  forall w, w = v \/ (exists x, x ∈ es /\ w <= V x) ->
    exists y, y ∈ Insert_tuples n v t es /\ w <= V y.
Proof.
  intros Hs. unfold Insert_tuples.
  set (e := {| V := v; G := 1; Delta := 0; Samples := [t] |}).
  pose proof (sorted_place (band (int_add n 1)) e es true Hs) as Hs1.
  destruct (place_stamped_facts (band (int_add n 1)) e es true)
    as (l1 & l2 & e' & Hes & Hp & HV & _).
  set (es1 := place_stamped true (band (int_add n 1)) e es) in *.
  assert (C1 : forall w, w = v \/ (exists x, x ∈ es /\ w <= V x) ->
                 exists y, y ∈ es1 /\ w <= V y).
  { intros w [->|(x & Hx & Hle)].
    - exists e'. split; [ rewrite Hp, elem_of_app, elem_of_cons; auto | rewrite HV; cbn; lia ].
    - exists x. split; [ | exact Hle ]. rewrite Hp. rewrite Hes in Hx.
      rewrite elem_of_app in Hx. rewrite elem_of_app, elem_of_cons. tauto. }
  cbv zeta. destruct (Z.rem _ _ =? 0); [ | auto ].
  unfold compress_list. destruct es1 as [|t1 rest]; [ auto | ].
  destruct (compress_from_covers (band (int_add n 1)) rest 0 t1 Hs1) as (I1 & _ & I3).
  split; [ exact I1 | ]. intros w Hw. destruct (C1 w Hw) as (y & Hy & Hle).
  destruct (I3 y Hy) as (z & Hz & Hle'). exists z. split; [ exact Hz | lia ].
Qed.

Lemma stream_tuples_covers l : forall n es,
  sorted_by_value es ->
  forall w, w ∈ map (fun y => y.1.1) l \/ (exists x, x ∈ es /\ w <= V x) ->
    exists y, y ∈ stream_tuples n es l /\ w <= V y.
Proof.
  induction l as [|[[v t] d] l IH]; intros n es Hs w Hw; cbn [stream_tuples map fst] in *.
  - destruct Hw as [Hw|Hw]; [ inversion Hw | exact Hw ].
  - destruct (Insert_tuples_covers n v t es Hs) as [Hs1 C1].
    apply IH; [ exact Hs1 | ].
    destruct Hw as [Hw|Hw]; [ apply elem_of_cons in Hw as [->|Hw] | ]; auto.
Qed.

(** After any run of Insert the last tuple holds the largest value
    inserted: the sweep never drops it. *)
Theorem largest_value_kept (l : list (Z * Z * Z)) :
  Forall (fun x => 0 <= x.2 < 2 ^ 31 - 1) l -> l <> [] ->
  exists s' sl es t, insert_stream NewSummary l = Ok s' /\
    data s' = Some sl /\ entries sl = Ok (es ++ [t]) /\
    V t ∈ map (fun y => y.1.1) l /\
    forall v, v ∈ map (fun y => y.1.1) l -> v <= V t.
Proof.
  intros Hd Hl.
  destruct (insert_stream_tuples l NewSummary [] NewSummary_holds Hd) as (s' & E & _ & _ & H).
  destruct H as (sl & Hdata & R).
  change (stream_tuples (N NewSummary) [] l) with (stream_tuples 0 [] l) in R.
  pose proof (stream_tuples_nonempty l 0 [] Hl) as Hne.
  pose proof (represents_sorted _ _ R) as Hs.
  destruct (exists_last Hne) as (l0 & t & Est).
  exists s', sl, l0, t. split; [ exact E | ]. split; [ exact Hdata | ].
  split; [ rewrite <- Est; now apply entries_represents | ].
  assert (Hin : forall x, x ∈ l0 ++ [t] -> V x ∈ map (fun y => y.1.1) l).
  { intros x Hx. rewrite <- Est in Hx.
    apply stream_tuples_values in Hx as [Hx|Hx]; [ inversion Hx | exact Hx ]. }
  split; [ apply Hin; apply elem_of_app; right; now left | ].
  intros v Hv.
  destruct (stream_tuples_covers l 0 [] (SSorted_nil _) v (or_introl Hv)) as (y & Hy & Hle).
  rewrite Est in Hy, Hs. apply StronglySorted_app in Hs as (Hlt & _ & _).
  apply elem_of_app in Hy as [Hy|Hy].
  - specialize (Hlt y t Hy ltac:(now left)). cbn in Hlt. lia.
  - apply list_elem_of_singleton in Hy as ->. exact Hle.
Qed.

(** ** getRoot *)

Lemma index_Some {A} (l : list A) (i : nat) (x : A) : l !! i = Some x -> index l i = Ok x.
Proof. intros Hx. unfold index. now rewrite Hx. Qed.

Lemma getRoot_loop_find (trace : Trace) (k : nat) :
  (k <= length trace)%nat ->
  getRoot_loop k trace = Ok (find is_root (rev (take k trace))).
Proof.
  induction k as [|k IH]; intros Hk; cbn [getRoot_loop].
  - reflexivity.
  - destruct (lookup_lt_is_Some_2 trace k ltac:(lia)) as [sp Hsp].
    unfold index_int.
    destruct (Z.ltb_spec (Z.of_nat (length trace) - 1 -
                          (Z.of_nat (length trace) - Z.of_nat (S k))) 0); [ lia | ].
    replace (Z.to_nat _) with k by lia.
    rewrite (index_Some _ _ _ Hsp). cbn [mbind res_bind].
    rewrite (take_S_r _ _ _ Hsp), rev_app_distr. cbn [rev app find].
    unfold is_root at 1. destruct (ParentID sp =? 0); [ reflexivity | ].
    apply IH. lia.
Qed.

(** getRoot returns the last span of the trace whose parent id is 0, and
    the last span of the trace when there is none. *)
Theorem getRoot_last_root (trace : Trace) (lst : Span) :
  last trace = Some lst ->
  getRoot trace = Ok (default lst (find is_root (rev trace))).
Proof.
  intros Hlast. unfold getRoot.
  rewrite getRoot_loop_find by lia. rewrite firstn_all.
  cbn [mbind res_bind].
  destruct (find is_root (rev trace)) as [sp|]; [ reflexivity | ].
  unfold index_int.
  assert (Hlen : (0 < length trace)%nat).
  { destruct trace; [ discriminate | simpl; lia ]. }
  destruct (Z.ltb_spec (Z.of_nat (length trace) - 1) 0); [ lia | ].
  apply index_Some. rewrite last_lookup in Hlast.
  replace (Z.to_nat _) with (pred (length trace)) by lia. exact Hlast.
Qed.

(** ** ComputeSignature *)

Lemma dedupe_uniq (k : nat) : forall hs last idx i,
  (idx <= i)%nat -> (i + k = length hs)%nat ->
  exists hs',
    dedupe k hs last idx i = Ok (hs', (idx + length (uniq_from last (drop i hs)))%nat) /\
    length hs' = length hs /\
    take (idx + length (uniq_from last (drop i hs))) hs'
      = take idx hs ++ uniq_from last (drop i hs).
Proof.
  induction k as [|k IH]; intros hs last idx i Hidx Hlen; cbn [dedupe].
  - rewrite drop_ge by lia. simpl. rewrite Nat.add_0_r, app_nil_r. now exists hs.
  - destruct (lookup_lt_is_Some_2 hs i ltac:(lia)) as [x Hx].
    rewrite (index_Some _ _ _ Hx). cbn [mbind res_bind].
    rewrite (drop_S _ _ _ Hx). cbn [uniq_from].
    destruct (decide (x = last)) as [->|Hne].
    + destruct (IH hs last idx (S i)) as (hs' & Hrun & Hl & Ht); [ lia | lia | ].
      exists hs'. auto.
    + unfold assign. rewrite decide_True by lia. cbn [mbind res_bind].
      destruct (IH (<[idx:=x]> hs) x (S idx) (S i)) as (hs' & Hrun & Hl & Ht);
        [ lia | rewrite length_insert; lia | ].
      rewrite drop_insert_lt in Hrun, Ht by lia.
      rewrite length_insert in Hl.
      exists hs'. cbn [length]. rewrite Nat.add_succ_r.
      split; [ exact Hrun | ]. split; [ exact Hl | ].
      cbn [Nat.add] in Ht. rewrite Ht.
      rewrite (take_S_r _ _ x) by (apply list_lookup_insert_eq; lia).
      rewrite take_insert_ge by lia. now rewrite <- app_assoc.
Qed.

Lemma xor_all_fold (k : nat) : forall hs i h,
  (i + k <= length hs)%nat ->
  xor_all k hs i h = Ok (xor_into h (take k (drop i hs))).
Proof.
  induction k as [|k IH]; intros hs i h Hlen; cbn [xor_all].
  - reflexivity.
  - destruct (lookup_lt_is_Some_2 hs i ltac:(lia)) as [x Hx].
    rewrite (index_Some _ _ _ Hx). cbn [mbind res_bind].
    rewrite IH by lia. rewrite (drop_S _ _ _ Hx). reflexivity.
Qed.

(** What ComputeSignature computes: the hash of the root XORed with each
    distinct value among 0 and the hashes of the spans, once. *)
Lemma ComputeSignature_uniq (trace : Trace) (root : Span) :
  getRoot trace = Ok root ->
  ComputeSignature trace =
    Ok (xor_into (computeRootHash root)
          (uniq (SortHashes (replicate (length trace) 0 ++ map computeSpanHash trace)))).
Proof.
  intros Hroot. unfold ComputeSignature. rewrite Hroot. cbn [mbind res_bind].
  set (hs := SortHashes _).
  assert (Hne : trace <> []) by (intros ->; discriminate Hroot).
  assert (Hlen : (2 <= length hs)%nat).
  { subst hs. rewrite SortHashes_length, length_app, length_replicate, length_map.
    destruct trace; [ contradiction | simpl; lia ]. }
  destruct hs as [|x hs'] eqn:Hhs; [ simpl in Hlen; lia | ].
  cbn [index lookup list_lookup mbind res_bind].
  destruct (dedupe_uniq (length (x :: hs') - 1) (x :: hs') x 1 1) as (out & Hrun & Hl & Ht);
    [ lia | simpl; lia | ].
  rewrite Hrun. cbn [mbind res_bind].
  assert (Hfit : (1 + length (uniq_from x (drop 1 (x :: hs'))) <= length out)%nat).
  { pose proof (f_equal length Ht) as Hlt.
    rewrite length_take, length_app, length_take in Hlt. cbn [length] in Hlt. 
    destruct (Nat.min_spec (1 + length (uniq_from x (drop 1 (x :: hs')))) (length out))
      as [[? Hm]|[? Hm]]; rewrite Hm in Hlt; [ lia | ].
    destruct (Nat.min_spec 1 (S (length hs'))) as [[? Hm']|[? Hm']]; rewrite Hm' in Hlt; lia. }
  rewrite xor_all_fold by lia.
  rewrite drop_0, Ht. reflexivity.
Qed.

Lemma uniq_from_sorted (l : list Z) : forall last,
  StronglySorted Z.le l -> Forall (Z.le last) l ->
  StronglySorted Z.lt (uniq_from last l) /\
  Forall (Z.lt last) (uniq_from last l) /\
  forall x, x ∈ uniq_from last l <-> x ∈ l /\ x <> last.
Proof.
  induction l as [|y l IH]; intros last Hs Hle; cbn [uniq_from].
  - split; [ constructor | ]. split; [ constructor | ].
    intros x. rewrite elem_of_nil. tauto.
  - inversion Hs as [|? ? Hs' Hy]; subst. inversion Hle as [|? ? Hly Hle']; subst.
    destruct (decide (y = last)) as [->|Hne].
    + destruct (IH last Hs' Hle') as (H1 & H2 & H3).
      split; [ exact H1 | ]. split; [ exact H2 | ].
      intros x. rewrite H3, elem_of_cons. intuition congruence.
    + destruct (IH y Hs' Hy) as (H1 & H2 & H3).
      split; [ constructor; assumption | ].
      split.
      * constructor; [ lia | ]. eapply Forall_impl; [ exact H2 | ]. intros z Hz. simpl in Hz. lia.
      * intros x. rewrite !elem_of_cons, H3.
        split.
        -- intros [->|[Hx Hxy]]; [ split; [ now left | exact Hne ] | ].
           split; [ now right | ].
           rewrite Forall_forall in Hy. specialize (Hy x Hx). lia.
        -- intros [[->|Hx] Hxl]; [ now left | ].
           destruct (decide (x = y)) as [->|Hxy]; [ now left | right; auto ].
Qed.

Lemma uniq_sorted (l : list Z) :
  StronglySorted Z.le l ->
  StronglySorted Z.lt (uniq l) /\ forall x, x ∈ uniq l <-> x ∈ l.
Proof.
  destruct l as [|y l]; intros Hs; cbn [uniq].
  - split; [ constructor | tauto ].
  - inversion Hs as [|? ? Hs' Hy]; subst.
    destruct (uniq_from_sorted l y Hs' Hy) as (H1 & H2 & H3).
    split; [ constructor; assumption | ].
    intros x. rewrite !elem_of_cons, H3.
    destruct (decide (x = y)); intuition.
Qed.

Lemma strictly_sorted_NoDup (l : list Z) : StronglySorted Z.lt l -> NoDup l.
Proof.
  induction 1 as [|x l Hs IH Hx]; constructor; [ | exact IH ].
  intros Hin. rewrite Forall_forall in Hx. specialize (Hx x Hin). lia.
Qed.

(** Sorting and then dropping repetitions leaves a list that the set of
    elements determines. *)
Lemma uniq_sort_set (l1 l2 : list Z) :
  (forall x, x ∈ l1 <-> x ∈ l2) -> uniq (SortHashes l1) = uniq (SortHashes l2).
Proof.
  intros Hset. unfold SortHashes.
  destruct (uniq_sorted (merge_sort Z.le l1)) as [Hs1 He1];
    [ apply StronglySorted_merge_sort; apply _ | ].
  destruct (uniq_sorted (merge_sort Z.le l2)) as [Hs2 He2];
    [ apply StronglySorted_merge_sort; apply _ | ].
  apply (StronglySorted_unique_strong Z.lt); [ intros; lia | assumption | assumption | ].
  apply NoDup_Permutation.
  - exact (strictly_sorted_NoDup _ Hs1).
  - exact (strictly_sorted_NoDup _ Hs2).
  - intros x. rewrite He1, He2, !merge_sort_Permutation. apply Hset.
Qed.

Lemma elem_of_replicate_zero (n : nat) (x : Z) : x ∈ replicate n 0 <-> x = 0 /\ n <> 0%nat.
Proof.
  rewrite elem_of_replicate. tauto.
Qed.

(** The signature depends only on the hash of the root and on the set
    of the hashes of the spans: their order and their repetitions do not
    matter. *)
Theorem ComputeSignature_set (t1 t2 : Trace) (r1 r2 : Span) :
  getRoot t1 = Ok r1 -> getRoot t2 = Ok r2 ->
  computeRootHash r1 = computeRootHash r2 ->
  (forall h, h ∈ map computeSpanHash t1 <-> h ∈ map computeSpanHash t2) ->
  ComputeSignature t1 = ComputeSignature t2.
Proof.
  intros H1 H2 Hroot Hset.
  rewrite (ComputeSignature_uniq t1 r1 H1), (ComputeSignature_uniq t2 r2 H2), Hroot.
  f_equal. f_equal. apply uniq_sort_set.
  assert (Hn1 : length t1 <> 0%nat) by (destruct t1; [ discriminate H1 | discriminate ]).
  assert (Hn2 : length t2 <> 0%nat) by (destruct t2; [ discriminate H2 | discriminate ]).
  intros x. rewrite !elem_of_app, !elem_of_replicate_zero, Hset. tauto.
Qed.

Lemma lxor_range (n a b : Z) :
  0 <= n -> 0 <= a < 2 ^ n -> 0 <= b < 2 ^ n -> 0 <= Z.lxor a b < 2 ^ n.
Proof.
  intros Hn Ha Hb. split; [ apply Z.lxor_nonneg; lia | ].
  destruct (Z.eq_dec (Z.lxor a b) 0) as [->|Hnz]; [ apply Z.pow_pos_nonneg; lia | ].
  assert (Hpos : 0 < Z.lxor a b) by (pose proof (proj2 (Z.lxor_nonneg a b)); lia).
  apply Z.log2_lt_pow2; [ exact Hpos | ].
  pose proof (Z.log2_lxor a b ltac:(lia) ltac:(lia)) as Hlog.
  assert (Hla : a = 0 \/ Z.log2 a < n).
  { destruct (Z.eq_dec a 0); [ now left | right; apply Z.log2_lt_pow2; lia ]. }
  assert (Hlb : b = 0 \/ Z.log2 b < n).
  { destruct (Z.eq_dec b 0); [ now left | right; apply Z.log2_lt_pow2; lia ]. }
  destruct Hla as [->|Hla], Hlb as [->|Hlb].
  - rewrite Z.lxor_0_l in Hnz. contradiction.
  - rewrite Z.lxor_0_l in *. lia.
  - rewrite Z.lxor_0_r in *. lia.
  - lia.
Qed.

Lemma xor_into_range (l : list Z) : forall h,
  0 <= h < 2 ^ 32 -> Forall (fun x => 0 <= x < 2 ^ 32) l -> 0 <= xor_into h l < 2 ^ 32.
Proof.
  induction l as [|x l IH]; intros h Hh Hl; cbn [xor_into fold_left].
  - exact Hh.
  - inversion Hl; subst. apply IH; [ | assumption ]. apply lxor_range; lia.
Qed.

Lemma computeSpanHash_range (sp : Span) : 0 <= computeSpanHash sp < 2 ^ 32.
Proof. unfold computeSpanHash, fnv_write at 1. cbn [fold_left]. apply Z.mod_pos_bound. lia. Qed.

Lemma computeRootHash_range (sp : Span) : 0 <= computeRootHash sp < 2 ^ 32.
Proof. unfold computeRootHash, fnv_write at 1. cbn [fold_left]. apply Z.mod_pos_bound. lia. Qed.

(** A signature is a 32-bit value. *)
Theorem ComputeSignature_range (trace : Trace) (sig : Signature) :
  ComputeSignature trace = Ok sig -> 0 <= sig < 2 ^ 32.
Proof.
  intros Hsig.
  destruct (getRoot trace) as [root| |] eqn:Hroot;
    try (unfold ComputeSignature in Hsig; rewrite Hroot in Hsig; discriminate Hsig).
  rewrite (ComputeSignature_uniq trace root Hroot) in Hsig. injection Hsig as <-.
  apply xor_into_range; [ apply computeRootHash_range | ].
  rewrite Forall_forall. intros x Hx.
  destruct (uniq_sorted (SortHashes (replicate (length trace) 0 ++ map computeSpanHash trace)))
    as [_ He]; [ apply StronglySorted_merge_sort; apply _ | ].
  rewrite He in Hx. unfold SortHashes in Hx. rewrite merge_sort_Permutation in Hx.
  rewrite elem_of_app, elem_of_replicate_zero in Hx.
  destruct Hx as [[-> _]|Hx]; [ lia | ].
  rewrite list_elem_of_In, in_map_iff in Hx. destruct Hx as (sp & <- & _).
  apply computeSpanHash_range.
Qed.

(** ** The sampler over a run of calls *)

Section SamplerGrowth.
Context {F : Type} `{Float64 F}.

(** AddTrace only ever appends to the buffer and writes to the last-seen
    map; the settings stay. *)
Lemma AddTrace_grows (s s' : SignatureSampler F) (trace : Trace) (env : Env F) :
  AddTrace s trace env = Ok s' ->
  (exists more, sampledTraces s' = sampledTraces s ++ more) /\
  (forall sig, is_Some (lastTSBySignature s !! sig) -> is_Some (lastTSBySignature s' !! sig)) /\
  sMin s' = sMin s /\ theta s' = theta s /\ jitter s' = jitter s.
Proof.
  unfold AddTrace. intros Hadd.
  destruct (ComputeSignature trace) as [sig0| |]; cbn [mbind res_bind] in Hadd; try discriminate.
  destruct (index trace 0) as [first| |]; cbn [mbind res_bind] in Hadd; try discriminate.
  injection Hadd as <-.
  destruct (f_lt (sMin s) _); cbn.
  - split; [ now exists [trace] | ]. split; [ | auto ].
    intros sig Hsig. destruct (decide (sig0 = sig)) as [->|Hne].
    + rewrite lookup_insert_eq. eauto.
    + now rewrite lookup_insert_ne.
  - split; [ exists []; now rewrite app_nil_r | auto ].
Qed.

(** A run of AddTrace calls never drops a buffered trace, never forgets a
    signature, and never changes the settings. *)
Theorem AddTraces_grows (calls : list (Trace * Env F)) : forall s s' : SignatureSampler F,
  AddTraces s calls = Ok s' ->
  (exists more, sampledTraces s' = sampledTraces s ++ more) /\
  (forall sig, is_Some (lastTSBySignature s !! sig) -> is_Some (lastTSBySignature s' !! sig)) /\
  sMin s' = sMin s /\ theta s' = theta s /\ jitter s' = jitter s.
Proof.
  induction calls as [|[trace env] rest IH]; intros s s' Hrun; cbn [AddTraces] in Hrun.
  - injection Hrun as <-. split; [ exists []; now rewrite app_nil_r | auto ].
  - destruct (AddTrace s trace env) as [s1| |] eqn:Hadd; cbn [mbind res_bind] in Hrun;
      try discriminate.
    destruct (AddTrace_grows _ _ _ _ Hadd) as ([m1 Hb1] & Hm1 & Hs1 & Ht1 & Hj1).
    destruct (IH _ _ Hrun) as ([m2 Hb2] & Hm2 & Hs2 & Ht2 & Hj2).
    split; [ exists (m1 ++ m2); rewrite Hb2, Hb1; now rewrite app_assoc | ].
    split; [ auto | ]. repeat split; congruence.
Qed.
End SamplerGrowth.

Section RoundingScores.
Context {R : Rounding}.
Hypothesis rnd_mono : forall x y, (x <= y)%Q -> (rnd x <= rnd y)%Q.
Hypothesis rnd_int : forall n : Z, Z.abs n <= 2^53 -> (rnd (inject_Z n) == inject_Z n)%Q.

Lemma seconds_mono (a b : Z) : a <= b -> ((seconds a : Q) <= seconds b)%Q.
Proof.
  intros Hab. unfold seconds. cbn.
  apply rnd_mono.
  pose proof (rnd_int 1000000000 ltac:(lia)) as Hg.
  assert (Hab' : (rnd (inject_Z a) <= rnd (inject_Z b))%Q).
  { apply rnd_mono. rewrite <- Zle_Qle. exact Hab. }
  assert (Hpos : (0 < rnd (inject_Z 1000000000))%Q).
  { rewrite Hg. reflexivity. }
  unfold Qdiv. apply Qmult_le_compat_r; [ exact Hab' | ].
  apply Qlt_le_weak, Qinv_lt_0_compat, Hpos.
Qed.

(** Recency: once a trace has been kept, and as long as the clock has not
    moved past the instant at which it was kept, the time score of its
    signature is 0; with [sMin] at 0 or more, a trace of that signature
    that arrives by then is dropped, whatever is drawn. *)
Theorem kept_signature_is_not_resampled
    (s s' : SignatureSampler Q) (trace trace' : Trace) (env env' : Env Q) (sig : Signature) :
  ComputeSignature trace = Ok sig ->
  ComputeSignature trace' = Ok sig ->
  f_lt (sMin s) (GetScore s sig (clock_score env) (draw env)) = true ->
  AddTrace s trace env = Ok s' ->
  clock_score env' <= clock_keep env ->
  GetTimeScore s' sig (clock_score env') = f_of_int 0 /\
  ((0 <= sMin s)%Q -> AddTrace s' trace' env' = Ok s').
Proof.
  intros Hsig Hsig' Hkept Hadd Hnow. unfold AddTrace in Hadd. rewrite Hsig in Hadd.
  change (Ok sig ≫= ?f) with (f sig) in Hadd. cbv beta in Hadd.
  rewrite Hkept in Hadd.
  destruct (index trace 0) as [first| |]; cbn [mbind res_bind] in Hadd; try discriminate.
  injection Hadd as <-.
  set (s' := {| lastTSBySignature := _; sampledTraces := _; sMin := _; theta := _; jitter := _ |}).
  assert (Hts : GetTimeScore s' sig (clock_score env') = f_of_int 0).
  { unfold GetTimeScore. cbn [lastTSBySignature s']. rewrite lookup_insert_eq.
    assert (Hle : f_le (f_sub (seconds (clock_score env')) (seconds (clock_keep env)) : Q)
                    (f_of_int 0) = true).
    { change (Qle_bool (rnd (seconds (clock_score env') - seconds (clock_keep env)))
                (rnd (inject_Z 0)) = true).
      apply Qle_bool_iff, rnd_mono.
      pose proof (seconds_mono _ _ Hnow) as Hs. change (inject_Z 0) with 0%Q. lra. }
    match goal with
    | |- (if ?c then _ else _) = _ =>
        let Hc := fresh in assert (Hc : c = true) by exact Hle; rewrite Hc; reflexivity
    end. }
  split; [ exact Hts | ].
  intros Hmin. unfold AddTrace. rewrite Hsig'.
  change (Ok sig ≫= ?f) with (f sig). cbv beta.
  assert (Hlow : f_lt (sMin s') (GetScore s' sig (clock_score env') (draw env')) = false).
  { unfold GetScore. rewrite Hts.
    match goal with |- f_lt _ (f_mul _ ?x) = false => generalize x end.
    intros x.
    change (negb (Qle_bool (rnd (rnd (inject_Z 0) * x)) (sMin s)) = false).
    apply negb_false_iff, Qle_bool_iff.
    pose proof (rnd_int 0 ltac:(lia)) as H0. change (inject_Z 0) with 0%Q in *.
    assert (Hz : (rnd (rnd 0 * x) <= rnd 0)%Q) by (apply rnd_mono; rewrite H0; lra).
    lra. }
  rewrite Hlow.
  assert (Hne : trace' <> []).
  { intros ->. discriminate Hsig'. }
  destruct trace' as [|sp rest]; [ contradiction | ]. reflexivity.
Qed.

Hypothesis sqrt_nonneg : forall x, (0 <= x)%Q -> (0 <= sqrt_r x)%Q.

(** With [theta] over 0 the time score lies between 0 and 5.  (The
    square root is then taken of a quotient that is not negative; with a
    [theta] below 0 the code takes the root of a negative number, see
    [GetTimeScore_of_negative_theta].) *)
Theorem GetTimeScore_range (s : SignatureSampler Q) (sig : Signature) (now : Z) :
  (0 < theta s)%Q ->
  (0 <= GetTimeScore s sig now <= 5)%Q.
Proof.
  intros Htheta.
  pose proof (rnd_int 0 ltac:(lia)) as H0. pose proof (rnd_int 5 ltac:(lia)) as H5.
  change (inject_Z 0) with 0%Q in H0. change (inject_Z 5) with 5%Q in H5.
  unfold GetTimeScore.
  destruct (lastTSBySignature s !! sig) as [ts|].
  - set (delta := f_sub (seconds now) ts : Q).
    destruct (f_le delta (f_of_int 0)) eqn:Hle.
    + change (f_of_int 0 : Q) with (rnd 0). lra.
    + assert (Hpos : (0 < delta)%Q).
      { change (Qle_bool delta (rnd 0) = false) in Hle.
        destruct (Qlt_le_dec 0 delta) as [Hlt|Hge]; [ exact Hlt | ].
        assert (Hc : Qle_bool delta (rnd 0) = true) by (apply Qle_bool_iff; lra).
        congruence. }
      assert (Hquot : (0 <= f_div delta (theta s))%Q).
      { change (0 <= rnd (delta / theta s))%Q.
        assert (Hq : (0 <= delta / theta s)%Q).
        { apply Qle_shift_div_l; [ exact Htheta | lra ]. }
        pose proof (rnd_mono _ _ Hq) as Hm. lra. }
      pose proof (sqrt_nonneg _ Hquot) as Hr.
      change (f_of_int 5 : Q) with (rnd 5).
      change (@f_sqrt Q _) with sqrt_r in *.
      change (@f_min Q _) with (fun x y : Q => if Qle_bool x y then x else y).
      cbv beta.
      match goal with |- context [Qle_bool ?a ?b] => destruct (Qle_bool a b) eqn:Hmin end.
      * apply Qle_bool_iff in Hmin. lra.
      * lra.
  - change (f_of_int 5 : Q) with (rnd 5). lra.
Qed.
End RoundingScores.

(** * Instances and corollaries *)

(** ** The skiplist *)

Lemma trailing_ones_ends (f : nat) : forall n level,
  0 <= n < 2 ^ Z.of_nat f ->
  exists drawn, trailing_ones (S f) n level = Ok drawn /\ (level <= drawn <= level + f)%nat.
Proof.
  induction f as [|f IH]; intros n level Hn; cbn [trailing_ones].
  - assert (n = 0) as -> by (change (2 ^ Z.of_nat 0) with 1 in Hn; lia).
    exists level. split; [ reflexivity | lia ].
  - destruct (Z.eqb_spec (Z.land n 1) 1) as [Hodd|Heven].
    + destruct (IH (Z.shiftr n 1) (S level)) as (d & Hd & Hb).
      * rewrite Z.shiftr_div_pow2 by lia. change (2 ^ 1) with 2.
        rewrite Nat2Z.inj_succ, Z.pow_succ_r in Hn by lia.
        split; [ apply Z.div_pos; lia | apply Z.div_lt_upper_bound; lia ].
      * exists d. split; [ exact Hd | lia ].
    + exists level. split; [ reflexivity | lia ].
Qed.

(** The level loop of Insert, [for n&1 == 1 { level++; n >>= 1 }], ends
    on every draw of [rand.Int31]: it counts the one bits below the
    lowest zero bit of the draw, 31 at most. *)
Theorem level_loop_counts_trailing_ones (n : Z) :
  0 <= n < 2 ^ 31 ->
  exists drawn, trailing_ones 32 n 0 = Ok drawn /\ (drawn <= 31)%nat /\
    Z.testbit n (Z.of_nat drawn) = false /\
    forall i, (i < drawn)%nat -> Z.testbit n (Z.of_nat i) = true.
Proof.
  intros Hn. destruct (trailing_ones_ends 31 n 0%nat Hn) as (drawn & Hrun & Hb).
  exists drawn. split; [ exact Hrun | ]. split; [ lia | ].
  destruct (trailing_ones_bits _ _ _ _ Hrun) as (_ & Hstop & Hones).
  rewrite Nat.sub_0_r in Hstop, Hones. auto.
Qed.

(** On the draw 11, binary 1011. *)
Lemma level_loop_counts_trailing_ones_witness :
  exists drawn, trailing_ones 32 11 0 = Ok drawn /\ (drawn <= 31)%nat /\
    Z.testbit 11 (Z.of_nat drawn) = false /\
    forall i, (i < drawn)%nat -> Z.testbit 11 (Z.of_nat i) = true.
Proof. apply (level_loop_counts_trailing_ones 11). lia. Defined.

Lemma skiplist_five_WF : WF skiplist_five [1%nat].
Proof.
  destruct (Skiplist_Insert_WF NewSkiplist [] entry_five 0 NewSkiplist_WF ltac:(lia))
    as (sl' & l1 & l2 & HL & E & W & _).
  destruct l1; [ | discriminate ]. destruct l2; [ | discriminate ].
  assert (Hsl : sl' = skiplist_five) by (vm_compute in E; injection E as <-; reflexivity).
  rewrite <- Hsl. exact W.
Qed.

Lemma skiplist_five_represents : represents skiplist_five [entry_five].
Proof. exists [1%nat]. split; [ apply skiplist_five_WF | reflexivity ]. Qed.

Lemma summary_five_holds : holds summary_five [entry_five].
Proof. exists skiplist_five. split; [ reflexivity | apply skiplist_five_represents ]. Qed.

Lemma zero_draw_in_range : forall k, 0 <= zero_draw k < 2 ^ 31 - 1.
Proof. intros k. unfold zero_draw. lia. Qed.

Lemma stream_three_draws : Forall (fun x : Z * Z * Z => 0 <= x.2 < 2 ^ 31 - 1) stream_three.
Proof. repeat constructor; cbn; lia. Qed.

Lemma stream_three_values : NoDup (map (fun x : Z * Z * Z => x.1.1) stream_three).
Proof.
  cbn. repeat (apply NoDup_cons; split; [ rewrite ?elem_of_cons, ?elem_of_nil; lia | ]).
  apply NoDup_nil_2.
Qed.

(** Insert on a well-formed skiplist, for every draw of [rand.Int31]
    other than [2^31 - 1]: the call returns and the new tuple stands after
    the tuples whose value does not exceed its own and before the others,
    which stay as they are and in their order. *)
Theorem Skiplist_Insert_sorted (sl : Skiplist) (es : list Entry) (e : Entry) (n : Z) :
  represents sl es -> 0 <= n < 2 ^ 31 - 1 ->
  exists node sl' es1 es2,
    Skiplist_Insert sl e n = Ok (node, sl') /\
    es = es1 ++ es2 /\ entries sl' = Ok (es1 ++ e :: es2) /\
    represents sl' (es1 ++ e :: es2) /\
    Forall (fun x => V x <= V e) es1 /\ Forall (fun x => V e < V x) es2.
Proof.
  intros R Hn. pose proof (represents_sorted _ _ R) as Hs.
  destruct (Insert_places sl es e n R Hn) as (node & sl' & E & R').
  assert (Hsplit : exists es1 es2, es = es1 ++ es2 /\ place e es = es1 ++ e :: es2 /\
            Forall (fun x => V x <= V e) es1 /\ Forall (fun x => V e < V x) es2).
  { clear -Hs. induction es as [|x es IH]; cbn [place].
    - exists [], []. repeat split; constructor.
    - apply StronglySorted_inv in Hs as [Hs Hall].
      destruct (Z.leb_spec (V x) (V e)) as [Hle|Hgt].
      + destruct (IH Hs) as (es1 & es2 & -> & -> & F1 & F2).
        exists (x :: es1), es2. repeat split; auto.
      + exists [], (x :: es). repeat split; auto.
        constructor; [ exact Hgt | ]. eapply Forall_impl; [ exact Hall | ]. cbn. intros. lia. }
  destruct Hsplit as (es1 & es2 & Hes & Hp & F1 & F2). rewrite Hp in R'.
  exists node, sl', es1, es2. split; [ exact E | ]. split; [ exact Hes | ].
  split; [ now apply entries_represents | ]. auto.
Qed.

(** The value 3 inserted, with the draw 1, into the skiplist that holds the value 5. *)
Lemma Skiplist_Insert_sorted_witness :
  exists node sl' es1 es2,
    Skiplist_Insert skiplist_five {| V := 3; G := 1; Delta := 0; Samples := [2] |} 1
      = Ok (node, sl') /\
    [entry_five] = es1 ++ es2 /\
    entries sl' = Ok (es1 ++ {| V := 3; G := 1; Delta := 0; Samples := [2] |} :: es2) /\
    represents sl' (es1 ++ {| V := 3; G := 1; Delta := 0; Samples := [2] |} :: es2) /\
    Forall (fun x => V x <= 3) es1 /\ Forall (fun x => 3 < V x) es2.
Proof.
  apply (Skiplist_Insert_sorted skiplist_five [entry_five]
           {| V := 3; G := 1; Delta := 0; Samples := [2] |} 1 skiplist_five_represents).
  lia.
Defined.

(** Remove on a data node of a well-formed skiplist: the call returns
    and the skiplist holds the other tuples, as they were and in their
    order. *)
Theorem Skiplist_Remove_tuples (sl : Skiplist) (l1 : list nat) (a : nat) (l2 : list nat) :
  WF sl (l1 ++ a :: l2) ->
  exists sl', Skiplist_Remove sl a = Ok sl' /\
    entries sl = Ok (map (entry_at (nodes sl)) l1 ++
                     entry_at (nodes sl) a :: map (entry_at (nodes sl)) l2) /\
    entries sl' = Ok (map (entry_at (nodes sl)) l1 ++ map (entry_at (nodes sl)) l2) /\
    WF sl' (l1 ++ l2).
Proof.
  intros W. destruct (Skiplist_Remove_WF sl l1 a l2 W) as (sl' & E & W' & _ & _ & _ & Hv).
  exists sl'. split; [ exact E | ].
  split; [ rewrite (entries_WF _ _ W), map_app; reflexivity | ].
  split; [ | exact W' ].
  rewrite (entries_WF _ _ W'), map_app.
  now rewrite !(map_entry_ext (nodes sl) (nodes sl')) by (intros; apply Hv).
Qed.

(** The only data node of [skiplist_five] removed. *)
Lemma Skiplist_Remove_tuples_witness :
  exists sl', Skiplist_Remove skiplist_five 1 = Ok sl' /\
    entries skiplist_five = Ok [entry_five] /\
    entries sl' = Ok [] /\
    WF sl' [].
Proof. apply (Skiplist_Remove_tuples skiplist_five [] 1%nat [] skiplist_five_WF). Defined.

(** One Insert with the draw 3 on a new skiplist. *)
Lemma Skiplist_Insert_height_witness :
  exists a s', Skiplist_Insert NewSkiplist entry_five 3 = Ok (a, s') /\
    (height NewSkiplist <= height s' <= S (height NewSkiplist))%nat /\
    (height s' <= 31)%nat.
Proof.
  destruct (Skiplist_Insert NewSkiplist entry_five 3) as [[a s']| |] eqn:E.
  - exists a, s'. split; [ reflexivity | ].
    apply (Skiplist_Insert_height NewSkiplist entry_five 3 a s' E). cbn. lia.
  - vm_compute in E. discriminate.
  - vm_compute in E. discriminate.
Defined.

(** ** The summary *)

Lemma place_Permutation e es : place e es ≡ₚ e :: es.
Proof.
  induction es as [|x es IH]; cbn [place]; [ reflexivity | ].
  destruct (V x <=? V e); [ | reflexivity ].
  rewrite IH. apply Permutation_swap.
Qed.

Lemma place_run_Permutation es : forall acc,
  fold_left (fun acc e => place e acc) es acc ≡ₚ acc ++ es.
Proof.
  induction es as [|e es IH]; intros acc; cbn [fold_left].
  - now rewrite app_nil_r.
  - rewrite IH, place_Permutation. cbn [app]. apply Permutation_middle.
Qed.

(** What [UnmarshalJSON] and [GobDecode] build from a decoded payload:
    whatever the order of the payload, a skiplist that holds its tuples
    in ascending order of value, tuples of the same value in the order of
    the payload. *)
Theorem rebuild_sorts (enc : list Entry) (n : Z) (draws : nat -> Z) :
  (forall k, 0 <= draws k < 2 ^ 31 - 1) ->
  exists s' sl es, rebuild enc n draws = Ok s' /\
    N s' = n /\ EncodedData s' = enc /\ data s' = Some sl /\
    entries sl = Ok es /\ es = fold_left (fun acc e => place e acc) enc [] /\
    sorted_by_value es /\ es ≡ₚ enc.
Proof.
  intros Hd. unfold rebuild.
  destruct (insert_all_places draws Hd enc NewSkiplist [] 0%nat NewSkiplist_represents)
    as (sl & E & R).
  bind_ok E. eexists _, sl, (fold_left (fun acc e => place e acc) enc []).
  split; [ reflexivity | ].
  split; [ reflexivity | ]. split; [ reflexivity | ]. split; [ reflexivity | ].
  split; [ now apply entries_represents | ]. split; [ reflexivity | ].
  split; [ now apply (represents_sorted sl) | apply (place_run_Permutation enc []) ].
Qed.

(** A payload out of order, with two tuples of the value 5. *)
Lemma rebuild_sorts_witness :
  exists s' sl es,
    rebuild [entry_five; zeroEntry; {| V := 5; G := 2; Delta := 1; Samples := [7] |}] 3 zero_draw
      = Ok s' /\
    N s' = 3 /\
    EncodedData s' = [entry_five; zeroEntry; {| V := 5; G := 2; Delta := 1; Samples := [7] |}] /\
    data s' = Some sl /\ entries sl = Ok es /\
    es = fold_left (fun acc e => place e acc)
           [entry_five; zeroEntry; {| V := 5; G := 2; Delta := 1; Samples := [7] |}] [] /\
    sorted_by_value es /\
    es ≡ₚ [entry_five; zeroEntry; {| V := 5; G := 2; Delta := 1; Samples := [7] |}].
Proof. apply (rebuild_sorts _ 3 zero_draw zero_draw_in_range). Defined.



(** Any run of Summary.Insert on a summary with a well-formed skiplist
    returns, whatever the values and for all draws other than [2^31 - 1];
    the tuples afterwards are those of the run on the sequence of tuples. *)
Theorem insert_stream_refines (s : Summary) (es : list Entry) (l : list (Z * Z * Z)) :
  holds s es -> Forall (fun x => 0 <= x.2 < 2 ^ 31 - 1) l ->
  exists s' sl', insert_stream s l = Ok s' /\
    data s' = Some sl' /\ entries sl' = Ok (stream_tuples (N s) es l) /\
    holds s' (stream_tuples (N s) es l) /\
    EncodedData s' = EncodedData s /\
    (0 <= N s -> N s + Z.of_nat (length l) < 2 ^ 63 -> N s' = N s + Z.of_nat (length l)).
Proof.
  intros H Hd. destruct (insert_stream_tuples l s es H Hd) as (s' & E & HN & HE & H').
  pose proof H' as (sl' & Hdata & R).
  exists s', sl'. split; [ exact E | ]. split; [ exact Hdata | ].
  split; [ now apply entries_represents | ]. split; [ exact H' | ].
  split; [ exact HE | ]. intros H0 Hb. rewrite HN. now apply count_small.
Qed.

(** Three more Inserts on the summary made by [Insert(5, 1)]. *)
Lemma insert_stream_refines_witness :
  exists s' sl', insert_stream summary_five stream_three = Ok s' /\
    data s' = Some sl' /\
    entries sl' = Ok (stream_tuples (N summary_five) [entry_five] stream_three) /\
    holds s' (stream_tuples (N summary_five) [entry_five] stream_three) /\
    EncodedData s' = EncodedData summary_five /\
    (0 <= N summary_five -> N summary_five + Z.of_nat (length stream_three) < 2 ^ 63 ->
     N s' = N summary_five + Z.of_nat (length stream_three)).
Proof.
  apply (insert_stream_refines summary_five [entry_five] stream_three
           summary_five_holds stream_three_draws).
Defined.

(** On the three values 5, 3 and 9. *)
Lemma distinct_values_keep_weight_witness :
  exists s' sl es, insert_stream NewSummary stream_three = Ok s' /\
    data s' = Some sl /\ entries sl = Ok es /\
    N s' = 3 /\ sum_G es = N s'.
Proof.
  apply (distinct_values_keep_weight stream_three stream_three_draws).
  - vm_compute. reflexivity.
  - exact stream_three_values.
Defined.

(** On the three values 5, 3 and 9. *)
Lemma tuples_sorted_inserted_witness :
  exists s' sl es, insert_stream NewSummary stream_three = Ok s' /\
    data s' = Some sl /\ entries sl = Ok es /\
    StronglySorted (fun x y => V x <= V y) es /\
    forall x, x ∈ es -> V x ∈ map (fun y : Z * Z * Z => y.1.1) stream_three.
Proof. apply (tuples_sorted_inserted stream_three stream_three_draws). Defined.

(** On the three values 5, 3 and 9. *)
Lemma largest_value_kept_witness :
  exists s' sl es t, insert_stream NewSummary stream_three = Ok s' /\
    data s' = Some sl /\ entries sl = Ok (es ++ [t]) /\
    V t ∈ map (fun y : Z * Z * Z => y.1.1) stream_three /\
    forall v, v ∈ map (fun y : Z * Z * Z => y.1.1) stream_three -> v <= V t.
Proof.
  apply (largest_value_kept stream_three stream_three_draws). discriminate.
Defined.

(** On a new summary, at the median. *)
Lemma Quantile_empty_witness : Quantile NewSummary half = Panic NotReached.
Proof. apply (Quantile_empty NewSummary half NewSummary_holds). Defined.

(** The median of the three values 5, 3 and 9. *)
Lemma Quantile_returns_inserted_witness :
  exists s' v samples, insert_stream NewSummary stream_three = Ok s' /\
    Quantile s' half = Ok (v, samples) /\
    v ∈ map (fun y : Z * Z * Z => y.1.1) stream_three.
Proof.
  apply (Quantile_returns_inserted stream_three half stream_three_draws). discriminate.
Defined.

(** On the summary made by [Insert(5, 1)]. *)
Lemma BySlices_tuples_witness : BySlices summary_five = Ok (slices 0 [entry_five]).
Proof. apply (BySlices_tuples summary_five [entry_five] summary_five_holds). Defined.

(** With the codec that carries the payload as it is, on the summary made by [Insert(5, 1)]. *)
Lemma json_round_trip_tuples_witness :
  exists b s' es1 es2,
    MarshalJSON (error := unit) plain_encode summary_five = Ok (b, None) /\
    UnmarshalJSON plain_decode NewSummary b zero_draw = Ok (s', None) /\
    N s' = N summary_five /\ [entry_five] = es1 ++ es2 /\
    holds s' (es1 ++ zeroEntry :: es2) /\
    Forall (fun x => V x < 0) es1 /\ Forall (fun x => 0 <= V x) es2.
Proof.
  apply (json_round_trip_tuples plain_encode plain_decode (fun d n => eq_refl)
           summary_five NewSummary [entry_five] zero_draw
           summary_five_holds zero_draw_in_range).
Defined.

(** The same for gob. *)
Lemma gob_round_trip_tuples_witness :
  exists s1 b err s' es1 es2,
    GobEncode plain_gob_encode summary_five = Ok (s1, (b, err)) /\
    EncodedData s1 = zeroEntry :: [entry_five] /\ data s1 = data summary_five /\
    N s1 = N summary_five /\
    GobDecode plain_decode NewSummary b zero_draw = Ok (s', None) /\
    N s' = N summary_five /\ [entry_five] = es1 ++ es2 /\
    holds s' (es1 ++ zeroEntry :: es2) /\
    Forall (fun x => V x < 0) es1 /\ Forall (fun x => 0 <= V x) es2.
Proof.
  apply (gob_round_trip_tuples plain_gob_encode plain_decode (fun d n => eq_refl)
           summary_five NewSummary [entry_five] zero_draw
           summary_five_holds zero_draw_in_range).
Defined.

(** The summary made by [Insert(5, 1)] merged with another that holds the same tuple. *)
Lemma Merge_tuples_witness :
  exists s', Merge summary_five summary_five zero_draw = Ok s' /\
    N s' = int_add (N summary_five) (N summary_five) /\
    EncodedData s' = EncodedData summary_five /\
    holds s' (compress_list (band (int_add (N summary_five) (N summary_five)))
                (fold_left (fun acc e => place e acc) (zeroEntry :: [entry_five]) [entry_five])).
Proof.
  apply (Merge_tuples summary_five summary_five [entry_five] [entry_five] zero_draw
           summary_five_holds summary_five_holds).
  - discriminate.
  - exact zero_draw_in_range.
Defined.

(** ** The signature and the sampler *)

(** A trace whose root is neither first nor last. *)
Lemma getRoot_last_root_witness :
  getRoot trace_three = Ok (default span_db (find is_root (rev trace_three))).
Proof. apply (getRoot_last_root trace_three span_db). reflexivity. Defined.

(** Two traces with the same root and the same spans, in another order and with a repetition. *)
Lemma ComputeSignature_set_witness : ComputeSignature trace_two = ComputeSignature trace_three.
Proof.
  apply (ComputeSignature_set trace_two trace_three span_web span_web).
  - reflexivity.
  - reflexivity.
  - reflexivity.
  - intros h. unfold trace_two, trace_three. cbn [map].
    rewrite !elem_of_cons, !elem_of_nil. tauto.
Defined.

(** The signature of the trace made of [span_web]. *)
Lemma ComputeSignature_range_witness : 0 <= 4096983264 < 2 ^ 32.
Proof. apply (ComputeSignature_range [span_web] 4096983264). evaluate. Defined.

(** On the three calls of [three_calls], in binary64. *)
Lemma AddTraces_grows_witness :
  exists s', AddTraces (sampler64 2) three_calls = Ok s' /\
    (exists more, sampledTraces s' = sampledTraces (sampler64 2) ++ more) /\
    (forall sig, is_Some (lastTSBySignature (sampler64 2) !! sig) ->
                 is_Some (lastTSBySignature s' !! sig)) /\
    sMin s' = sMin (sampler64 2) /\ theta s' = theta (sampler64 2) /\
    jitter s' = jitter (sampler64 2).
Proof.
  destruct (AddTraces (sampler64 2) three_calls) as [s'| |] eqn:Hrun.
  - exists s'. split; [ reflexivity | ].
    exact (AddTraces_grows three_calls (sampler64 2) s' Hrun).
  - vm_compute in Hrun. discriminate.
  - vm_compute in Hrun. discriminate.
Defined.

Lemma sqrt_to_nonneg (k : positive) (x : Q) : (0 <= sqrt_to k x)%Q.
Proof.
  unfold sqrt_to, Qle. cbn [Qnum Qden]. rewrite Z.mul_0_l, Z.mul_1_r. apply Z.sqrt_nonneg.
Qed.

(** In fixed-point arithmetic with 10 binary digits: a new trace is kept,
    and the same trace at the same instant is dropped. *)
Lemma kept_signature_is_not_resampled_witness :
  exists s', AddTrace (H := @rounded (fixed_point 1024)) samplerQ [span_web] envQ = Ok s' /\
    GetTimeScore (H := @rounded (fixed_point 1024)) s' 4096983264 1000000000
      = @f_of_int Q (@rounded (fixed_point 1024)) 0 /\
    AddTrace (H := @rounded (fixed_point 1024)) s' [span_web] envQ = Ok s'.
Proof.
  destruct (AddTrace (H := @rounded (fixed_point 1024)) samplerQ [span_web] envQ)
    as [s'| |] eqn:Hadd.
  - exists s'. split; [ reflexivity | ].
    destruct (kept_signature_is_not_resampled (R := fixed_point 1024)
                (round_to_mono 1024) (fun n _ => round_to_int 1024 n)
                samplerQ s' [span_web] [span_web] envQ envQ 4096983264) as [Hts Hdrop].
    + evaluate.
    + evaluate.
    + evaluate.
    + exact Hadd.
    + cbn. lia.
    + split; [ exact Hts | ]. apply Hdrop. vm_compute. discriminate.
  - vm_compute in Hadd. discriminate.
  - vm_compute in Hadd. discriminate.
Defined.

(** In fixed-point arithmetic with 10 binary digits: a signature seen at
    1 s and scored at 61 s, with [theta = 60]. *)
Lemma GetTimeScore_range_witness :
  (0 < theta seen_samplerQ)%Q /\
  (0 <= GetTimeScore (H := @rounded (fixed_point 1024)) seen_samplerQ
          4096983264%Z 61000000000%Z <= 5)%Q.
Proof.
  split; [ reflexivity | ].
  apply (GetTimeScore_range (R := fixed_point 1024)
           (round_to_mono 1024) (fun n _ => round_to_int 1024 n)
           (fun x _ => sqrt_to_nonneg 1024 x)).
  reflexivity.
Defined.

(** On bit-exact binary64 with [theta = -60]: the same signature, seen at
    1 s and scored at 61 s, gets the square root of -1, which is not a
    number. *)
Lemma GetTimeScore_of_negative_theta :
  GetTimeScore negative_theta_sampler 4096983264 61000000000 = S754_nan.
Proof. evaluate. Qed.
